(** * pulseaudio-mixer-cli: the entity registry [PAMenu]

    A shallow embedding of the UI backend of [pulseaudio-mixer-cli.py]
    (class [PAMenu], a [dict] subclass mapping display names to
    [(iface, proxy)] pairs) and of the drawing of its window, with the
    properties of them that the specification states and further ones
    that the code shows.

    Modelling conventions.
    - A Python [dict] is an insertion-ordered association list, as CPython
      implements it: item assignment replaces the binding in place or
      appends a new one, [del] and [pop] drop the binding.
    - A D-Bus proxy object is identified with its [object_path].
    - Text is a byte string ([string]); decoding with [optz.encoding] is the
      identity on it, [len] is the number of bytes.
    - Floats are exact rationals ([Q]); a value the code computes is stated
      as the expression it evaluates.
    - Methods run in a state-and-exception monad over the instance state.
      The sound server, the bus and the clock are an oracle [remote]
      answering the n-th interaction of the process; every call made to the
      server is appended to a trace.
    - The mutual recursion between [refresh] and the [_dbus_failsafe]
      wrapper is bounded by [fuel], the interpreter's remaining stack
      depth; exhausting it raises [RecursionError].
    - The failure hook is a traced call that returns, as the class allows;
      the hook the program installs replaces the process instead.
    - The monitoring child process and the signal that fills [updates] are
      outside the model: a queued record is an input.
    - The drawing of the window ([win_draw]) is the list of its [addstr]
      calls; a window is its numbers of rows and columns. The [Mute]
      property is not among the answers of the oracle: [get_mute] is a
      parameter of the drawing. *)

From Stdlib Require Import List String Ascii Bool Arith ZArith NArith.
From Stdlib Require Import QArith Qminmax Qround Lia Lqa Sorted Permutation.
From Stdlib Require Import DecimalString DecimalN OrderedTypeEx.
Import ListNotations.

#[local] Open Scope nat_scope.
#[local] Open Scope list_scope.
#[local] Open Scope string_scope.

(** ** Dictionaries *)

Module Dict.
Section Ops.
Context {V : Type}.

Definition t := list (string * V).

Fixpoint get (d : t) (k : string) : option V :=
  match d with
  | [] => None
  | (k', v) :: d' => if k' =? k then Some v else get d' k
  end.

Definition mem (d : t) (k : string) : bool :=
  match get d k with Some _ => true | None => false end.

(** [d[k] = v] *)
Fixpoint set (d : t) (k : string) (v : V) : t :=
  match d with
  | [] => [(k, v)]
  | (k', v') :: d' =>
      if k' =? k then (k', v) :: d' else (k', v') :: set d' k v
  end.

(** [del d[k]] on a key that is present *)
Fixpoint del (d : t) (k : string) : t :=
  match d with
  | [] => []
  | (k', v') :: d' => if k' =? k then d' else (k', v') :: del d' k
  end.

Definition keys (d : t) : list string := map fst d.
End Ops.
Arguments t : clear implicits.
End Dict.

(** ** Instance state, environment and exceptions *)

(** A registry value [(iface, obj)]; [obj] is known by its object path. *)
Definition entry : Type := string * string.

Definition iface_of (e : entry) : string := fst e.
Definition object_path (e : entry) : string := snd e.

(** What the process does to the outside world, in order. *)
Inductive event : Type :=
| EGetBus
| ECoreGet (prop : string)
| EPropertyList (path iface : string)
| EGetVolume (path iface : string)
| ESetVolume (path iface : string) (val : list Z)
| EKillChild
| EFailHook.

(** The answers of the outside world to the interaction number [n];
    [None] and [false] stand for a raised [DBusException]. *)
Record remote : Type := {
  r_get_bus : nat -> bool;
  r_core_get : nat -> string -> option (list string);
  r_property_list : nat -> string -> string -> option (Dict.t string);
  r_get_volume : nat -> string -> string -> option (list Z);
  r_set_volume : nat -> string -> string -> list Z -> bool;
  r_time : nat -> Q
}.

(** The command-line options the backend reads. *)
Record options : Type := {
  max_level : Z;
  use_media_name : bool
}.

Record PAMenu : Type := {
  items : Dict.t entry;
  max_key_len : nat;
  updates : list (list string);
  _volume_val_cache : Dict.t (list Q * Q);
  _mute_val_cache : Dict.t (bool * Q);
  _unique_idx : N;
  fail_hook : bool;
  _cache_time : Q;
  tick : nat;
  trace : list event
}.

Definition with_items (d : Dict.t entry) (s : PAMenu) : PAMenu :=
  {| items := d; max_key_len := max_key_len s; updates := updates s;
     _volume_val_cache := _volume_val_cache s;
     _mute_val_cache := _mute_val_cache s; _unique_idx := _unique_idx s;
     fail_hook := fail_hook s; _cache_time := _cache_time s;
     tick := tick s; trace := trace s |}.

Definition with_max_key_len (n : nat) (s : PAMenu) : PAMenu :=
  {| items := items s; max_key_len := n; updates := updates s;
     _volume_val_cache := _volume_val_cache s;
     _mute_val_cache := _mute_val_cache s; _unique_idx := _unique_idx s;
     fail_hook := fail_hook s; _cache_time := _cache_time s;
     tick := tick s; trace := trace s |}.

Definition with_updates (q : list (list string)) (s : PAMenu) : PAMenu :=
  {| items := items s; max_key_len := max_key_len s; updates := q;
     _volume_val_cache := _volume_val_cache s;
     _mute_val_cache := _mute_val_cache s; _unique_idx := _unique_idx s;
     fail_hook := fail_hook s; _cache_time := _cache_time s;
     tick := tick s; trace := trace s |}.

Definition with_caches (vc : Dict.t (list Q * Q)) (mc : Dict.t (bool * Q))
    (s : PAMenu) : PAMenu :=
  {| items := items s; max_key_len := max_key_len s; updates := updates s;
     _volume_val_cache := vc; _mute_val_cache := mc;
     _unique_idx := _unique_idx s;
     fail_hook := fail_hook s; _cache_time := _cache_time s;
     tick := tick s; trace := trace s |}.

Definition with_unique_idx (i : N) (s : PAMenu) : PAMenu :=
  {| items := items s; max_key_len := max_key_len s; updates := updates s;
     _volume_val_cache := _volume_val_cache s;
     _mute_val_cache := _mute_val_cache s; _unique_idx := i;
     fail_hook := fail_hook s; _cache_time := _cache_time s;
     tick := tick s; trace := trace s |}.

(** One more interaction with the outside world, leaving [evs] behind. *)
Definition interacted (evs : list event) (s : PAMenu) : PAMenu :=
  {| items := items s; max_key_len := max_key_len s; updates := updates s;
     _volume_val_cache := _volume_val_cache s;
     _mute_val_cache := _mute_val_cache s; _unique_idx := _unique_idx s;
     fail_hook := fail_hook s; _cache_time := _cache_time s;
     tick := S (tick s); trace := (trace s ++ evs)%list |}.

Inductive exn : Type :=
| DBusException
| KeyError
| PAUpdate
| TypeError
| ValueError
| ZeroDivisionError
| OverflowError
| RecursionError.

Definition exn_eqb (a b : exn) : bool :=
  match a, b with
  | DBusException, DBusException | KeyError, KeyError
  | PAUpdate, PAUpdate | TypeError, TypeError | ValueError, ValueError
  | ZeroDivisionError, ZeroDivisionError | OverflowError, OverflowError
  | RecursionError, RecursionError => true
  | _, _ => false
  end.

Inductive outcome (A : Type) : Type :=
| Ret (a : A)
| Raise (e : exn).
Arguments Ret {A} a.
Arguments Raise {A} e.

(** ** The method monad *)

Definition M (A : Type) : Type := PAMenu -> outcome A * PAMenu.

Definition ret {A} (a : A) : M A := fun s => (Ret a, s).

Definition raise {A} (e : exn) : M A := fun s => (Raise e, s).

Definition bind {A B} (m : M A) (k : A -> M B) : M B :=
  fun s =>
    match m s with
    | (Ret a, s') => k a s'
    | (Raise e, s') => (Raise e, s')
    end.

Declare Scope pa_scope.
Delimit Scope pa_scope with pa.
Notation "x <- m ;; k" := (bind m (fun x => k))
  (at level 61, m at next level, right associativity) : pa_scope.
Notation "m ;; k" := (bind m (fun _ => k))
  (at level 61, right associativity) : pa_scope.
#[local] Open Scope pa_scope.

(** [try: m except e: handler] *)
Definition try_except {A} (m : M A) (e : exn) (handler : M A) : M A :=
  fun s =>
    match m s with
    | (Raise e', s') => if exn_eqb e' e then handler s' else (Raise e', s')
    | r => r
    end.

(** [try: m except e: handler else: k] *)
Definition try_except_else {A B} (m : M A) (e : exn) (handler : M B)
    (k : A -> M B) : M B :=
  fun s =>
    match m s with
    | (Ret a, s') => k a s'
    | (Raise e', s') => if exn_eqb e' e then handler s' else (Raise e', s')
    end.

Definition gets {A} (f : PAMenu -> A) : M A := fun s => (Ret (f s), s).

Definition modify (f : PAMenu -> PAMenu) : M unit := fun s => (Ret tt, f s).

Fixpoint mapM {A B} (f : A -> M B) (l : list A) : M (list B) :=
  match l with
  | [] => ret []
  | x :: l' => y <- f x ;; ys <- mapM f l' ;; ret (y :: ys)
  end.

Fixpoint forM_ {A} (l : list A) (f : A -> M unit) : M unit :=
  match l with
  | [] => ret tt
  | x :: l' => f x ;; forM_ l' f
  end.

(** [d[k]], raising [KeyError] *)
Definition getitem {V} (d : Dict.t V) (k : string) : M V :=
  match Dict.get d k with
  | Some v => ret v
  | None => raise KeyError
  end.

(** ** Text helpers *)

(** [_dbus_dec]: drop the NUL bytes of a property value. *)
Fixpoint _dbus_dec (prop : string) : string :=
  match prop with
  | EmptyString => EmptyString
  | String c rest =>
      if Ascii.eqb c Ascii.zero then _dbus_dec rest
      else String c (_dbus_dec rest)
  end.

(** ['{}'.format(i)] for a counter value *)
Definition str_of_N (i : N) : string :=
  NilEmpty.string_of_uint (N.to_uint i).

Definition _placeholder_names : list string := ["audio stream"; "AudioStream"].

(** The successor of a value of
    [it.cycle(it.takewhile(lambda _: _ < 2**30, it.count(0)))]. *)
Definition cycle_succ (i : N) : N :=
  if (i + 1 <? 2 ^ 30)%N then (i + 1)%N else 0%N.

(** [next(self._unique_idx)] *)
Definition next_unique_idx : M N :=
  fun s => (Ret (_unique_idx s), with_unique_idx (cycle_succ (_unique_idx s)) s).

(** [_get_name_unique]: ['{} #{}'.format(name, next(self._unique_idx))] *)
Definition _get_name_unique (name : string) : M string :=
  i <- next_unique_idx ;; ret (name ++ " #" ++ str_of_N i).

(** The extension of a stream name,
    ['({application.process.user}@{application.process.host}:{application.process.id})'],
    when all three properties exist. *)
Definition stream_ext (props : Dict.t string) : option string :=
  match Dict.get props "application.process.user",
        Dict.get props "application.process.host",
        Dict.get props "application.process.id" with
  | Some u, Some h, Some i =>
      Some ("(" ++ _dbus_dec u ++ "@" ++ _dbus_dec h ++ ":" ++ _dbus_dec i ++ ")")
  | _, _, _ => None
  end.

(** The extension of a device name,
    ['({device.profile.name}@{alsa.driver_name})']. *)
Definition device_ext (props : Dict.t string) : option string :=
  match Dict.get props "device.profile.name",
        Dict.get props "alsa.driver_name" with
  | Some p, Some d => Some ("(" ++ _dbus_dec p ++ "@" ++ _dbus_dec d ++ ")")
  | _, _ => None
  end.

(** The last [try] of [_get_name]: ['{} {}'.format(name, ext)], the name
    alone on [KeyError]. *)
Definition with_ext (name : string) (ext : option string) : string :=
  match ext with
  | Some e => name ++ " " ++ e
  | None => name
  end.

(** ** Iteration order *)

(** [_sort_key]: an item [(name, (iface, obj))] is ordered by
    [(iface, name)]. *)
Definition _sort_key (item : string * entry) : string * string :=
  (iface_of (snd item), fst item).

(** Tuple comparison [a <= b], lexicographic on code points. *)
Definition tuple_leb (a b : string * string) : bool :=
  match String.compare (fst a) (fst b) with
  | Lt => true
  | Eq => String.leb (snd a) (snd b)
  | Gt => false
  end.

Fixpoint insert_item (x : string * entry) (l : list (string * entry))
    : list (string * entry) :=
  match l with
  | [] => [x]
  | y :: l' =>
      if tuple_leb (_sort_key x) (_sort_key y) then x :: l
      else y :: insert_item x l'
  end.

(** [sorted(l, key=self._sort_key)], a stable sort. *)
Fixpoint sorted (l : list (string * entry)) : list (string * entry) :=
  match l with
  | [] => []
  | x :: l' => insert_item x (sorted l')
  end.

(** [sorted(..., reverse=reverse)]: descending, still stable. *)
Definition sorted_by_key (l : list (string * entry)) (reverse : bool)
    : list (string * entry) :=
  if reverse then rev (sorted (rev l)) else sorted l.

(** [__iter__(reverse)]: the names of the sorted items. *)
Definition iter (d : Dict.t entry) (reverse : bool) : list string :=
  map fst (sorted_by_key d reverse).

(** [__reversed__] *)
Definition reversed (d : Dict.t entry) : list string := iter d true.

Fixpoint dropwhile {A} (p : A -> bool) (l : list A) : list A :=
  match l with
  | [] => []
  | x :: l' => if p x then dropwhile p l' else l
  end.

(** [next_key]: element 1 of the names from [item] on followed by two
    copies of all names, [''] on [IndexError]. *)
Definition next_key (d : Dict.t entry) (item : string) : string :=
  nth 1 (dropwhile (fun k => negb (k =? item)) (iter d false)
           ++ (iter d false ++ iter d false))%list "".

Definition prev_key (d : Dict.t entry) (item : string) : string :=
  nth 1 (dropwhile (fun k => negb (k =? item)) (reversed d)
           ++ (reversed d ++ reversed d))%list "".

(** ** Volume values *)

(** The result of [get_volume]: the channel tuple or its mean. *)
Inductive volume : Type :=
| Channels (val : list Q)
| Average (val : Q).

Definition Qltb (a b : Q) : bool :=
  match Qcompare a b with Lt => true | _ => false end.

Definition sum (val : list Q) : Q := fold_left Qplus val 0%Q.

(** [sum(val) / len(val)], for a [val] that is not empty *)
Definition mean (val : list Q) : Q :=
  (sum val / inject_Z (Z.of_nat (List.length val)))%Q.

(** [op.truediv(a, b)] *)
Definition truediv (a b : Z) : M Q :=
  if (b =? 0)%Z then raise ZeroDivisionError
  else ret (inject_Z a / inject_Z b)%Q.

(** [dbus.UInt32(z)] *)
Definition UInt32 (z : Z) : M Z :=
  if ((0 <=? z)%Z && (z <? 2 ^ 32)%Z)%bool then ret z
  else raise OverflowError.

(** [len(v)] for a value returned by [get_volume] *)
Definition len (v : volume) : M nat :=
  match v with
  | Channels val => ret (List.length val)
  | Average _ => raise TypeError
  end.

(** ** The methods of [PAMenu] *)

Section Backend.

Variable optz : options.
Variable srv : remote.
(** [round] rounds half away from zero in Python 2 and half to even in
    Python 3; the program runs on both. *)
Variable py_round : Q -> Z.

(** A method call on the bus: it is traced, and fails as the server says. *)
Definition dbus_call {A} (ev : event) (answer : nat -> option A) : M A :=
  fun s =>
    match answer (tick s) with
    | Some a => (Ret a, interacted [ev] s)
    | None => (Raise DBusException, interacted [ev] s)
    end.

(** [get_bus()] *)
Definition get_bus : M unit :=
  dbus_call EGetBus (fun n => if r_get_bus srv n then Some tt else None).

(** [self.bus.get_object(object_path='/org/pulseaudio/core1')
      .Get('org.PulseAudio.Core1', prop, ...)] *)
Definition core_get (prop : string) : M (list string) :=
  dbus_call (ECoreGet prop) (fun n => r_core_get srv n prop).

(** [dict(stream.Get('org.PulseAudio.Core1.{}'.format(iface), 'PropertyList'))] *)
Definition property_list (path iface : string) : M (Dict.t string) :=
  dbus_call (EPropertyList path iface)
    (fun n => r_property_list srv n path iface).

(** [time()] *)
Definition time : M Q :=
  fun s => (Ret (r_time srv (tick s)), interacted [] s).

(** [os.kill(child_pid, signal.SIGUSR1)] *)
Definition kill_child : M unit :=
  fun s => (Ret tt, interacted [EKillChild] s).

(** [if self.fail_hook: self.fail_hook()] *)
Definition call_fail_hook : M unit :=
  fun s => if fail_hook s then (Ret tt, interacted [EFailHook] s) else (Ret tt, s).

(** [self[name] = v] *)
Definition setitem (name : string) (v : entry) : M unit :=
  modify (fun s => with_items (Dict.set (items s) name v) s).

(** [del self[name]] *)
Definition delitem (name : string) : M unit :=
  d <- gets items ;;
  if Dict.mem d name then modify (with_items (Dict.del d name))
  else raise KeyError.

(** [self.pop(name)] *)
Definition pop (name : string) : M entry :=
  d <- gets items ;;
  v <- getitem d name ;;
  modify (with_items (Dict.del d name)) ;;
  ret v.

(** The first [try] of the stream branch of [_get_name]: the name it
    returns at once, if any. *)
Definition media_name (props : Dict.t string) : option string :=
  if use_media_name optz then
    match Dict.get props "media.name" with
    | Some v =>
        let name := _dbus_dec v in
        if existsb (String.eqb name) _placeholder_names then None
        else Some name
    | None => None
    end
  else None.

Definition _get_name (iface : string) (props : Dict.t string) : M string :=
  if iface =? "Stream" then
    match media_name props with
    | Some name => ret name
    | None =>
        name <- match Dict.get props "application.name" with
                | Some v => ret (_dbus_dec v)
                | None =>
                    v <- getitem props "media.name" ;;
                    _get_name_unique (_dbus_dec v)
                end ;;
        ret (with_ext name (stream_ext props))
    end
  else if iface =? "Device" then
    name <- match Dict.get props "alsa.id" with
            | Some v => ret (_dbus_dec v)
            | None =>
                match Dict.get props "device.api",
                      Dict.get props "device.string" with
                | Some a, Some d => ret (_dbus_dec a ++ "." ++ _dbus_dec d)
                | _, _ =>
                    v <- getitem props "device.description" ;;
                    i <- next_unique_idx ;;
                    ret (_dbus_dec v ++ " #" ++ str_of_N i)
                end
            end ;;
    ret (with_ext name (device_ext props))
  else raise KeyError.

(** The body of [add], before decoration. *)
Definition add_body (path iface : string) : M string :=
  stream_props <- property_list path iface ;;
  name <- _get_name iface stream_props ;;
  d <- gets items ;;
  name <- (if (use_media_name optz && Dict.mem d name)%bool then
             old <- pop name ;;
             renamed <- _get_name_unique name ;;
             setitem renamed old ;;
             _get_name_unique name
           else ret name) ;;
  setitem name (iface, path) ;;
  longest <- gets max_key_len ;;
  (if (longest <? String.length name)%nat
   then modify (with_max_key_len (String.length name))
   else ret tt) ;;
  ret name.

(** The [for ... break ... else] scan of [remove]: the name of the first
    item whose proxy has the path. *)
Fixpoint find_path (d : Dict.t entry) (path : string) : option string :=
  match d with
  | [] => None
  | (name, e) :: d' =>
      if object_path e =? path then Some name else find_path d' path
  end.

(** The body of [remove], before decoration. *)
Definition remove_body (path : string) : M unit :=
  d <- gets items ;;
  match find_path d path with
  | None => ret tt
  | Some name =>
      delitem name ;;
      longest <- gets max_key_len ;;
      if (String.length name =? longest)%nat then
        d' <- gets items ;;
        modify (with_max_key_len
                  match d' with
                  | [] => 0
                  | _ => list_max (map String.length (iter d' false))
                  end)
      else ret tt
  end.

(** [_dbus_failsafe(method)]; [refresh_soft] is [self.refresh()]. A call
    that ends in the failure hook returns [None]. *)
Definition _dbus_failsafe {A} (refresh_soft : M unit) (method : M A)
    : M (option A) :=
  try_except (a <- method ;; ret (Some a)) DBusException
    (try_except (refresh_soft ;; a <- method ;; ret (Some a)) DBusException
       (call_fail_hook ;; ret None)).

(** [del self[name]] for a value of [stream_names]; [None] is never a
    key. *)
Definition del_name (name : option string) : M unit :=
  match name with
  | Some k => delitem k
  | None => raise KeyError
  end.

(** [stream_names.difference(self)]: the added names that are not keys
    of the registry. A set has no order and no duplicates; neither matters
    to the loop over it, which stops at its first name. *)
Definition difference (names : list (option string)) (d : Dict.t entry)
    : list (option string) :=
  filter (fun n => match n with
                   | Some k => negb (Dict.mem d k)
                   | None => true
                   end) names.

Fixpoint refresh (fuel : nat) (soft : bool) : M unit :=
  match fuel with
  | O => raise RecursionError
  | S fuel' =>
      let add := fun iface path =>
        _dbus_failsafe (refresh fuel' true) (add_body path iface) in
      (if soft then ret tt
       else modify (with_items []) ;; get_bus) ;;
      modify (with_caches [] []) ;;
      modify (with_max_key_len 0) ;;
      try_except_else
        (paths <- core_get "PlaybackStreams" ;;
         stream_names <- mapM (add "Stream") paths ;;
         paths <- core_get "Sinks" ;;
         _ <- mapM (add "Device") paths ;;
         ret stream_names)
        DBusException
        (if soft then refresh fuel' false else raise DBusException)
        (fun stream_names =>
           if soft then
             d <- gets items ;;
             forM_ (difference stream_names d) del_name
           else kill_child)
  end.

(** The decorated methods. *)
Definition add (fuel : nat) (path iface : string) : M (option string) :=
  _dbus_failsafe (refresh fuel true) (add_body path iface).

Definition remove (fuel : nat) (path : string) : M (option unit) :=
  _dbus_failsafe (refresh fuel true) (remove_body path).

(** The [while self.updates] loop of [update]; the queue is only appended
    to by the signal handler, which does not run in this model. *)
Fixpoint update_loop (fuel : nat) (queue : list (list string)) : M unit :=
  match queue with
  | [] => ret tt
  | record :: rest =>
      modify (with_updates rest) ;;
      match record with
      | [action; path] =>
          (if action =? "+" then add fuel path "Stream" ;; ret tt
           else if action =? "-" then remove fuel path ;; ret tt
           else if action =? "^" then add fuel path "Sink" ;; ret tt
           else if action =? "v" then remove fuel path ;; ret tt
           else raise KeyError) ;;
          update_loop fuel rest
      | _ => raise ValueError
      end
  end.

Definition update (fuel : nat) : M unit :=
  queue <- gets updates ;; update_loop fuel queue.

(** The body of [_get_volume], before decoration. *)
Definition _get_volume_body (item : string) : M (list Z) :=
  d <- gets items ;;
  e <- getitem d item ;;
  dbus_call (EGetVolume (object_path e) (iface_of e))
    (fun n => r_get_volume srv n (object_path e) (iface_of e)).

Definition _get_volume (fuel : nat) (item : string) : M (option (list Z)) :=
  _dbus_failsafe (refresh fuel true) (_get_volume_body item).

(** The remote fetch of [get_volume], taken when the cache has no fresh
    value. *)
Definition fetch_volume (fuel : nat) (item : string) (ts_chk : Q)
    : M (list Q) :=
  fetched <- try_except (_get_volume fuel item) KeyError (raise PAUpdate) ;;
  match fetched with
  | None => raise TypeError
  | Some levels =>
      val <- mapM (fun v => q <- truediv v (max_level optz) ;;
                            ret (Qmin q 1)) levels ;;
      modify (fun s => with_caches
                (Dict.set (_volume_val_cache s) item (val, ts_chk))
                (_mute_val_cache s) s) ;;
      ret val
  end.

Definition get_volume (fuel : nat) (item : string) (raw : bool) : M volume :=
  cache <- gets _volume_val_cache ;;
  ts_chk <- time ;;
  cache_time <- gets _cache_time ;;
  val <- match Dict.get cache item with
         | Some (val, ts) =>
             if Qltb ts (ts_chk - cache_time) then fetch_volume fuel item ts_chk
             else ret val
         | None => fetch_volume fuel item ts_chk
         end ;;
  if raw then ret (Channels val)
  else
    match val with
    | [] => raise ZeroDivisionError
    | _ => ret (Average (mean val))
    end.

(** The body of [_set_volume], before decoration. *)
Definition _set_volume_body (item : string) (val : list Z) : M unit :=
  d <- gets items ;;
  e <- getitem d item ;;
  dbus_call (ESetVolume (object_path e) (iface_of e) val)
    (fun n => if r_set_volume srv n (object_path e) (iface_of e) val
              then Some tt else None).

Definition _set_volume (fuel : nat) (item : string) (val : list Z)
    : M (option unit) :=
  _dbus_failsafe (refresh fuel true) (_set_volume_body item val).

Definition set_volume (fuel : nat) (item : string) (level : Q) : M unit :=
  current <- get_volume fuel item true ;;
  channels <- len current ;;
  let val := repeat (Qmax 0 (Qmin 1 level)) channels in
  val_dbus <- mapM (fun v => UInt32 (py_round (v * inject_Z (max_level optz))))
                   val ;;
  try_except (_set_volume fuel item val_dbus ;; ret tt) KeyError
    (raise PAUpdate) ;;
  ts <- time ;;
  modify (fun s => with_caches
            (Dict.set (_volume_val_cache s) item (val, ts))
            (_mute_val_cache s) s).

End Backend.

(** The state [__init__(self, cache_time=2, fail_hook=None)] starts from,
    before its hard refresh; [None] is an argument left out. *)
Definition new_menu (cache_time : option Q) (hook : bool) : PAMenu :=
  {| items := []; max_key_len := 0; updates := [];
     _volume_val_cache := []; _mute_val_cache := []; _unique_idx := 0%N;
     fail_hook := hook;
     _cache_time := match cache_time with Some t => t | None => 2%Q end;
     tick := 0; trace := [] |}.

(** ** Observations *)

(** [a] may come before [b] in the iteration. *)
Definition key_le (a b : string * entry) : Prop :=
  tuple_leb (_sort_key a) (_sort_key b) = true.

(** The names of the registry are pairwise distinct. *)
Definition unique_names (s : PAMenu) : Prop := NoDup (Dict.keys (items s)).

(** [update_handler], given the split line read from the pipe. *)
Definition update_handler (record : list string) : M unit :=
  modify (fun s => with_updates (updates s ++ [record])%list s).

(** The calls made on an instance from outside. *)
Inductive operation : Type :=
| OpAdd (path iface : string)
| OpRemove (path : string)
| OpUpdate
| OpRefresh (soft : bool)
| OpSignal (record : list string)
| OpGetVolume (item : string) (raw : bool)
| OpSetVolume (item : string) (level : Q).

(** The state an operation leaves behind, whether it returns or raises. *)
Definition run_operation (optz : options) (srv : remote) (py_round : Q -> Z)
    (fuel : nat) (op : operation) (s : PAMenu) : PAMenu :=
  match op with
  | OpAdd path iface => snd (add optz srv fuel path iface s)
  | OpRemove path => snd (remove optz srv fuel path s)
  | OpUpdate => snd (update optz srv fuel s)
  | OpRefresh soft => snd (refresh optz srv fuel soft s)
  | OpSignal record => snd (update_handler record s)
  | OpGetVolume item raw => snd (get_volume optz srv fuel item raw s)
  | OpSetVolume item level => snd (set_volume optz srv py_round fuel item level s)
  end.

Definition run_operations (optz : options) (srv : remote) (py_round : Q -> Z)
    (fuel : nat) (ops : list operation) (s : PAMenu) : PAMenu :=
  fold_left (fun s op => run_operation optz srv py_round fuel op s) ops s.

(** A method keeps a property of the instance state, however it ends. *)
Definition preserves {A} (P : PAMenu -> Prop) (m : M A) : Prop :=
  forall s, P s -> P (snd (m s)).

(** The hard refreshes a trace shows: each one connects to the bus once,
    and nothing else does. *)
Definition hard_refreshes (tr : list event) : nat :=
  List.length
    (filter (fun ev => match ev with EGetBus => true | _ => false end) tr).

(** The state after [if self.fail_hook: self.fail_hook()]. *)
Definition after_fail_hook (s : PAMenu) : PAMenu :=
  if fail_hook s then interacted [EFailHook] s else s.

(** The name [_get_name] derives from the properties alone, without the
    counter, when names are not taken from [media.name]. *)
Definition plain_name (iface : string) (props : Dict.t string) : option string :=
  if iface =? "Stream" then
    match Dict.get props "application.name" with
    | Some v => Some (with_ext (_dbus_dec v) (stream_ext props))
    | None => None
    end
  else if iface =? "Device" then
    match Dict.get props "alsa.id" with
    | Some v => Some (with_ext (_dbus_dec v) (device_ext props))
    | None =>
        match Dict.get props "device.api", Dict.get props "device.string" with
        | Some a, Some d =>
            Some (with_ext (_dbus_dec a ++ "." ++ _dbus_dec d) (device_ext props))
        | _, _ => None
        end
    end
  else None.

(** The registry after [self[name] = entry] for each of [es] in turn. *)
Definition register (es : list (string * entry)) (d : Dict.t entry)
    : Dict.t entry :=
  fold_left (fun d e => Dict.set d (fst e) (snd e)) es d.

(** At every interaction, [path] has properties from which the name
    [name] is derived without the counter. *)
Definition named (srv : remote) (iface path name : string) : Prop :=
  forall n, exists props,
    r_property_list srv n path iface = Some props
    /\ plain_name iface props = Some name.

(** The entries a snapshot registers: [(name, (iface, path))] for each
    [(path, name)]. *)
Definition entries (iface : string) (named_paths : list (string * string))
    : list (string * entry) :=
  map (fun pn => (snd pn, (iface, fst pn))) named_paths.

(** [max_key_len] after adding [names] in turn. *)
Definition longest (names : list string) (start : nat) : nat :=
  fold_left Nat.max (map String.length names) start.

(** ** Further observations *)

(** [max_key_len] is the length of the longest registered name. *)
Definition width_exact (s : PAMenu) : Prop :=
  max_key_len s = list_max (map String.length (Dict.keys (items s))).

(** The table lookup of [update]: one record of the queue, handed to its
    method. *)
Definition dispatch (optz : options) (srv : remote) (fuel : nat)
    (action path : string) : M unit :=
  if action =? "+" then add optz srv fuel path "Stream" ;; ret tt
  else if action =? "-" then remove optz srv fuel path ;; ret tt
  else if action =? "^" then add optz srv fuel path "Sink" ;; ret tt
  else if action =? "v" then remove optz srv fuel path ;; ret tt
  else raise KeyError.

(** The [try] block of [refresh]: the objects the server lists are added,
    the names given to the streams are returned. *)
Definition refresh_adds (optz : options) (srv : remote) (fuel' : nat)
    : M (list (option string)) :=
  let add := fun iface path =>
    _dbus_failsafe (refresh optz srv fuel' true) (add_body optz srv path iface) in
  paths <- core_get srv "PlaybackStreams" ;;
  stream_names <- mapM (add "Stream") paths ;;
  paths <- core_get srv "Sinks" ;;
  _ <- mapM (add "Device") paths ;;
  ret stream_names.

(** [refresh] from [self.max_key_len = 0] on. *)
Definition refresh_rebuild (optz : options) (srv : remote) (fuel' : nat)
    (soft : bool) : M unit :=
  modify (with_max_key_len 0) ;;
  try_except_else (refresh_adds optz srv fuel') DBusException
    (if soft then refresh optz srv fuel' false else raise DBusException)
    (fun stream_names =>
       if soft then
         d <- gets items ;;
         forM_ (difference stream_names d) del_name
       else kill_child).

(** The trace has grown from [t0]. *)
Definition grown (t0 : list event) (s : PAMenu) : Prop :=
  exists tr, trace s = (t0 ++ tr)%list.

(** Nothing is cached. *)
Definition caches_empty (s : PAMenu) : Prop :=
  _volume_val_cache s = [] /\ _mute_val_cache s = [].

(** A level between 0 and 1. *)
Definition level_ok (q : Q) : Prop := (0 <= q <= 1)%Q.

(** Every cached volume has its levels between 0 and 1. *)
Definition cache_in_range (s : PAMenu) : Prop :=
  forall item val ts,
    Dict.get (_volume_val_cache s) item = Some (val, ts) -> Forall level_ok val.

(** The server reports no negative level (they are unsigned on the wire). *)
Definition levels_unsigned (srv : remote) : Prop :=
  forall n path iface levels,
    r_get_volume srv n path iface = Some levels -> Forall (Z.le 0) levels.

(** What [get_volume] answers is made of levels between 0 and 1. *)
Definition volume_ok (o : outcome volume) : Prop :=
  match o with
  | Ret (Channels val) => Forall level_ok val
  | Ret (Average m) => level_ok m
  | Raise _ => True
  end.

(** The names [k] calls of [_get_name_unique(name)] return, from the
    counter value [i] on. *)
Fixpoint drawn (name : string) (i : N) (k : nat) : list string :=
  match k with
  | O => []
  | S k' => (name ++ " #" ++ str_of_N i) :: drawn name (cycle_succ i) k'
  end.

(** From the interaction [n] on, the bus cannot be reached and every call
    on the server fails. *)
Definition down_from (srv : remote) (n : nat) : Prop :=
  forall k, n <= k ->
    r_get_bus srv k = false
    /\ (forall prop, r_core_get srv k prop = None)
    /\ (forall path iface, r_get_volume srv k path iface = None)
    /\ (forall path iface val, r_set_volume srv k path iface val = false).

(** The state a soft refresh leaves when the server is down: the listing
    fails, then the reconnection of the hard refresh. *)
Definition given_up (s : PAMenu) : PAMenu :=
  interacted [EGetBus]
    (with_items []
       (interacted [ECoreGet "PlaybackStreams"]
          (with_max_key_len 0 (with_caches [] [] s)))).

(** ** Drawing *)

(** [bar_caps], the default of [win_draw] *)
Definition bar_caps (bar : string) : string := " [ " ++ bar ++ " ]".

Definition item_len_min : Z := 10%Z.
Definition bar_len_min : Z := 10%Z.
Definition mute_button_len : Z := 2%Z.

(** [s * n], the repetition of a string; empty for [n <= 0] *)
Definition str_times (s : string) (n : Z) : string :=
  Nat.iter (Z.to_nat n) (String.append s) "".

(** [item[:n]] *)
Definition slice_to (item : string) (n : Z) : string :=
  if (n <? 0)%Z then
    substring 0 (Z.to_nat (Z.of_nat (String.length item) + n)) item
  else substring 0 (Z.to_nat n) item.

(** The column widths [win_draw] settles on for a window of more than one
    column: [(item_len_max, bar_len)]. *)
Definition layout (win_len : Z) (max_key_len : nat) : Z * Z :=
  let item_len_max := Z.of_nat max_key_len in
  let bar_len := (win_len - item_len_max - mute_button_len
                  - Z.of_nat (String.length (bar_caps "")))%Z in
  if (bar_len <? bar_len_min)%Z then
    let item_len_max :=
      Z.max item_len_min (item_len_max + bar_len - bar_len_min) in
    let bar_len := (win_len - item_len_max - mute_button_len
                    - Z.of_nat (String.length (bar_caps "")))%Z in
    let item_len_max := if (bar_len <=? 0)%Z then win_len else item_len_max in
    let item_len_max :=
      if (item_len_max <? item_len_min)%Z
      then Z.min (Z.of_nat max_key_len) win_len else item_len_max in
    (item_len_max, bar_len)
  else (item_len_max, bar_len).

(** The bar of a row: [bar_caps('#' * bar_fill + '-' * (bar_len - bar_fill))]
    with [bar_fill = int(round(volume * bar_len))]. *)
Definition volume_bar (py_round : Q -> Z) (bar_len : Z) (volume : Q) : string :=
  let bar_fill := py_round (volume * inject_Z bar_len)%Q in
  bar_caps (str_times "#" bar_fill ++ str_times "-" (bar_len - bar_fill)%Z).

(** One [addstr] call: [(column, text, reversed)]. *)
Definition cell : Type := (Z * string * bool)%type.

Section Drawing.

Variable optz : options.
Variable srv : remote.
Variable py_round : Q -> Z.
(** [items.get_mute]: the [Mute] property is not among the answers of
    [remote]; the drawing is taken for any method in its place, its answer
    for its truth value. *)
Variable get_mute : string -> M bool.

(** The body of the loop of [win_draw]: the [addstr] calls of one row. *)
Definition draw_row (fuel : nat) (win_len : Z) (widths : Z * Z)
    (hl item : string) : M (list cell) :=
  let (item_len_max, bar_len) := widths in
  let label := (0%Z, slice_to item item_len_max, item =? hl) in
  if (win_len >? item_len_max + mute_button_len)%Z then
    mute <- get_mute item ;;
    let mute_button := (item_len_max, if mute then " M" else " -", false) in
    if (bar_len >? 0)%Z then
      level <- get_volume optz srv fuel item false ;;
      match level with
      | Average v =>
          ret [label; mute_button;
               ((item_len_max + mute_button_len)%Z,
                volume_bar py_round bar_len v, false)]
      | Channels _ => raise TypeError
      end
    else ret [label; mute_button]
  else ret [label].

(** [win_draw(win, items, hl)] on a window of [win_rows] rows and
    [win_len] columns: the rows it has drawn when it returns, as
    [(row, calls)], after erasing the window. The names are those of the
    registry when the loop starts; the loop stops short of the bottom
    row. What was drawn before a call raises is not kept. *)
Definition win_draw (fuel : nat) (win_rows win_len : Z) (hl : string)
    : M (list (nat * list cell)) :=
  if (win_len <=? 1)%Z then ret []
  else
    item_len_max <- gets max_key_len ;;
    let widths := layout win_len item_len_max in
    d <- gets items ;;
    let names := firstn (Z.to_nat (win_rows - 1)) (iter d false) in
    rows <- mapM (draw_row fuel win_len widths hl) names ;;
    ret (combine (seq 0 (List.length names)) rows).

End Drawing.

(** The call stays inside a window of [win_len] columns. *)
Definition fits (win_len : Z) (c : cell) : Prop :=
  let '(col, text, _) := c in
  (0 <= col /\ col + Z.of_nat (String.length text) <= win_len)%Z.

(** ** A sample server *)

Module Sample.

(** Property lists: an application stream, two streams known by their
    media name only, and an ALSA sink. *)
Definition props_of (path iface : string) : option (Dict.t string) :=
  if path =? "/stream/app" then
    Some [("application.name", "App"); ("media.name", "song");
          ("application.process.user", "u");
          ("application.process.host", "h");
          ("application.process.id", "1")]
  else if path =? "/stream/song" then Some [("media.name", "song")]
  else if path =? "/stream/song2" then Some [("media.name", "song")]
  else if path =? "/sink/0" then Some [("alsa.id", "Speakers")]
  else None.

(** A server that answers every call, with the given streams and sinks
    and two channels at half and full level; the clock shows the number
    of interactions so far, in seconds. *)
Definition server (streams sinks : list string) : remote :=
  {| r_get_bus := fun _ => true;
     r_core_get := fun _ prop =>
       if prop =? "PlaybackStreams" then Some streams else Some sinks;
     r_property_list := fun _ => props_of;
     r_get_volume := fun _ _ _ => Some [32768%Z; 65536%Z];
     r_set_volume := fun _ _ _ _ => true;
     r_time := fun n => inject_Z (Z.of_nat n) |}.

(** The same server, whose volume reads fail at the interactions in
    [down]. *)
Definition flaky_server (streams sinks : list string) (down : list nat)
    : remote :=
  {| r_get_bus := fun _ => true;
     r_core_get := fun _ prop =>
       if prop =? "PlaybackStreams" then Some streams else Some sinks;
     r_property_list := fun _ => props_of;
     r_get_volume := fun n _ _ =>
       if existsb (Nat.eqb n) down then None else Some [32768%Z; 65536%Z];
     r_set_volume := fun _ _ _ _ => true;
     r_time := fun n => inject_Z (Z.of_nat n) |}.

Definition by_application : options :=
  {| max_level := 65536; use_media_name := false |}.

Definition by_media_name : options :=
  {| max_level := 65536; use_media_name := true |}.

(** [round], half away from zero. *)
Definition round_half_up (q : Q) : Z :=
  if Qle_bool 0 q then Qfloor (q + (1 # 2)) else Qceiling (q - (1 # 2)).

(** A registry holding one entity, with empty caches. *)
Definition menu_with (name : string) (e : entry) : PAMenu :=
  {| items := [(name, e)]; max_key_len := String.length name;
     updates := []; _volume_val_cache := []; _mute_val_cache := [];
     _unique_idx := 0%N; fail_hook := true; _cache_time := 2%Q;
     tick := 0; trace := [] |}.

(** A registry of two streams and a sink, inserted in that order. *)
Definition three : Dict.t entry :=
  [("song #0", ("Stream", "/stream/song"));
   ("Speakers", ("Device", "/sink/0"));
   ("App (u@h:1)", ("Stream", "/stream/app"))].

(** A session: start, a stream appears, a sink disappears, soft refresh. *)
Definition session : list operation :=
  [OpRefresh false; OpSignal ["+"; "/stream/song2"]; OpUpdate;
   OpAdd "/stream/song" "Stream"; OpRemove "/sink/0"; OpRefresh true].

End Sample.

(** ** More samples *)

Module Scene.

(** A bus that cannot be reached. *)
Definition unreachable : remote :=
  {| r_get_bus := fun _ => false;
     r_core_get := fun _ _ => None;
     r_property_list := fun _ _ _ => None;
     r_get_volume := fun _ _ _ => None;
     r_set_volume := fun _ _ _ _ => false;
     r_time := fun n => inject_Z (Z.of_nat n) |}.

(** A [get_mute] that answers from a list of muted names and touches
    nothing. *)
Definition muted (names : list string) (item : string) : M bool :=
  ret (existsb (String.eqb item) names).

(** The registry [Sample.three], as a refresh leaves it. *)
Definition menu_of_three : PAMenu :=
  with_max_key_len 11 (with_items Sample.three (new_menu None true)).

End Scene.

(** * Properties *)

(** ** Dictionaries *)

Lemma get_set_same {V} (d : Dict.t V) k v :
  Dict.get (Dict.set d k v) k = Some v.
Proof.
  induction d as [|[k' v'] d IH]; simpl.
  - now rewrite String.eqb_refl.
  - destruct (k' =? k) eqn:E; simpl; rewrite E; auto.
Qed.

Lemma get_set_other {V} (d : Dict.t V) k k' v :
  k' <> k -> Dict.get (Dict.set d k v) k' = Dict.get d k'.
Proof.
  intros Hne. induction d as [|[k0 v0] d IH]; simpl.
  - destruct (k =? k') eqn:E; auto.
    apply String.eqb_eq in E. congruence.
  - destruct (k0 =? k) eqn:E; simpl.
    + apply String.eqb_eq in E. subst k0.
      destruct (k =? k') eqn:E'; auto.
      apply String.eqb_eq in E'. congruence.
    + now rewrite IH.
Qed.

Lemma get_some_in_keys {V} (d : Dict.t V) k v :
  Dict.get d k = Some v -> In k (Dict.keys d).
Proof.
  induction d as [|[k' v'] d IH]; simpl; [discriminate|].
  destruct (k' =? k) eqn:E; intros H.
  - apply String.eqb_eq in E. now left.
  - right. now apply IH.
Qed.

Lemma get_none_not_in_keys {V} (d : Dict.t V) k :
  Dict.get d k = None <-> ~ In k (Dict.keys d).
Proof.
  induction d as [|[k' v'] d IH]; simpl.
  - tauto.
  - destruct (k' =? k) eqn:E.
    + apply String.eqb_eq in E. split; [discriminate | tauto].
    + apply String.eqb_neq in E. rewrite IH. tauto.
Qed.

Lemma mem_true_iff {V} (d : Dict.t V) k :
  Dict.mem d k = true <-> In k (Dict.keys d).
Proof.
  unfold Dict.mem. destruct (Dict.get d k) eqn:E.
  - split; [intros _; eapply get_some_in_keys; eauto | auto].
  - apply get_none_not_in_keys in E. split; [discriminate | tauto].
Qed.

Lemma keys_set {V} (d : Dict.t V) k v :
  Dict.keys (Dict.set d k v) =
  if Dict.mem d k then Dict.keys d else (Dict.keys d ++ [k])%list.
Proof.
  unfold Dict.mem. induction d as [|[k' v'] d IH]; simpl; auto.
  destruct (k' =? k) eqn:E; simpl; auto.
  rewrite IH. now destruct (Dict.get d k).
Qed.

Lemma in_keys_del {V} (d : Dict.t V) k k' :
  In k' (Dict.keys (Dict.del d k)) -> In k' (Dict.keys d).
Proof.
  induction d as [|[k0 v0] d IH]; simpl; auto.
  destruct (k0 =? k); simpl; tauto.
Qed.

Lemma NoDup_keys_set {V} (d : Dict.t V) k v :
  NoDup (Dict.keys d) -> NoDup (Dict.keys (Dict.set d k v)).
Proof.
  intros Hd. rewrite keys_set. destruct (Dict.mem d k) eqn:E; auto.
  apply NoDup_app; auto.
  - repeat constructor. simpl. tauto.
  - intros x Hx [<-|[]].
    apply mem_true_iff in Hx. congruence.
Qed.

Lemma NoDup_keys_del {V} (d : Dict.t V) k :
  NoDup (Dict.keys d) -> NoDup (Dict.keys (Dict.del d k)).
Proof.
  induction d as [|[k0 v0] d IH]; simpl; auto.
  intros Hd. inversion Hd; subst.
  destruct (k0 =? k); simpl; auto.
  constructor; auto. intros Hin. now apply in_keys_del in Hin.
Qed.

Lemma not_in_keys_del {V} (d : Dict.t V) k :
  NoDup (Dict.keys d) -> ~ In k (Dict.keys (Dict.del d k)).
Proof.
  induction d as [|[k0 v0] d IH]; simpl; auto.
  intros Hd. inversion Hd; subst.
  destruct (k0 =? k) eqn:E; simpl.
  - apply String.eqb_eq in E. now subst.
  - apply String.eqb_neq in E. intros [H|H]; [congruence | now apply IH].
Qed.

Lemma get_del_other {V} (d : Dict.t V) k k' :
  k' <> k -> Dict.get (Dict.del d k) k' = Dict.get d k'.
Proof.
  intros Hne. induction d as [|[k0 v0] d IH]; simpl; auto.
  destruct (k0 =? k) eqn:E; simpl.
  - apply String.eqb_eq in E. subst k0.
    destruct (k =? k') eqn:E'; auto.
    apply String.eqb_eq in E'. congruence.
  - now rewrite IH.
Qed.

(** ** [remove] *)

Lemma find_path_none (d : Dict.t entry) path :
  (forall name e, In (name, e) d -> object_path e <> path) ->
  find_path d path = None.
Proof.
  induction d as [|[name e] d IH]; simpl; intros H; auto.
  destruct (object_path e =? path) eqn:E.
  - apply String.eqb_eq in E. exfalso. eapply H; eauto.
  - apply IH. intros n e' Hin. eapply H; eauto.
Qed.

(** C10: when no registered entity's proxy has object path [path],
    [remove(path)] returns normally and leaves the whole instance state,
    the registry and [max_key_len] included, as it was. *)
Theorem remove_unknown_path_unchanged :
  forall optz srv fuel path s,
    (forall name e, In (name, e) (items s) -> object_path e <> path) ->
    remove optz srv fuel path s = (Ret (Some tt), s).
Proof.
  intros optz srv fuel path s H.
  unfold remove, _dbus_failsafe, try_except, remove_body, bind, gets; simpl.
  now rewrite (find_path_none _ _ H).
Qed.

(** ** The order of iteration *)

Lemma string_leb_spec a b :
  String.leb a b = true <-> a = b \/ String_as_OT.lt a b.
Proof.
  unfold String.leb.
  destruct (String.compare a b) eqn:E; split; intros H; auto.
  - left. now apply String_as_OT.cmp_eq.
  - right. now apply String_as_OT.cmp_lt.
  - discriminate.
  - destruct H as [H|H].
    + apply String_as_OT.cmp_eq in H. unfold String_as_OT.cmp in H. congruence.
    + apply String_as_OT.cmp_lt in H. unfold String_as_OT.cmp in H. congruence.
Qed.

Lemma string_lt_irrefl a : ~ String_as_OT.lt a a.
Proof. intros H. apply String_as_OT.lt_not_eq in H. now apply H. Qed.

Lemma string_lt_asym a b : String_as_OT.lt a b -> ~ String_as_OT.lt b a.
Proof.
  intros H1 H2. apply (string_lt_irrefl a).
  eapply String_as_OT.lt_trans; eauto.
Qed.

Lemma string_lt_total a b : a = b \/ String_as_OT.lt a b \/ String_as_OT.lt b a.
Proof.
  destruct (String.compare a b) eqn:E.
  - left. now apply String_as_OT.cmp_eq.
  - right; left. now apply String_as_OT.cmp_lt.
  - right; right. apply String_as_OT.cmp_lt. unfold String_as_OT.cmp.
    rewrite String.compare_antisym, E. reflexivity.
Qed.

Lemma tuple_leb_spec a b :
  tuple_leb a b = true <->
  String_as_OT.lt (fst a) (fst b) \/
  (fst a = fst b /\ (snd a = snd b \/ String_as_OT.lt (snd a) (snd b))).
Proof.
  unfold tuple_leb.
  destruct (String.compare (fst a) (fst b)) eqn:E.
  - apply String_as_OT.cmp_eq in E. rewrite string_leb_spec, E.
    split; [tauto|]. intros [H|H]; [|tauto].
    now apply string_lt_irrefl in H.
  - apply String_as_OT.cmp_lt in E. tauto.
  - split; [discriminate|].
    assert (Hgt : String_as_OT.lt (fst b) (fst a)).
    { apply String_as_OT.cmp_lt. unfold String_as_OT.cmp.
      rewrite String.compare_antisym, E. reflexivity. }
    intros [H|[H _]].
    + now apply string_lt_asym in H.
    + rewrite H in Hgt. now apply string_lt_irrefl in Hgt.
Qed.

Lemma tuple_leb_total a b : tuple_leb a b = false -> tuple_leb b a = true.
Proof.
  intros H. apply tuple_leb_spec.
  assert (N : ~ (tuple_leb a b = true)) by congruence.
  rewrite tuple_leb_spec in N.
  destruct (string_lt_total (fst a) (fst b)) as [E|[L|L]]; try tauto.
  destruct (string_lt_total (snd a) (snd b)) as [E'|[L'|L']]; try tauto.
  right. split; auto.
Qed.

Lemma tuple_leb_trans a b c :
  tuple_leb a b = true -> tuple_leb b c = true -> tuple_leb a c = true.
Proof.
  rewrite !tuple_leb_spec.
  intros [H1|[E1 H1]] [H2|[E2 H2]].
  - left. eapply String_as_OT.lt_trans; eauto.
  - left. now rewrite <- E2.
  - left. now rewrite E1.
  - right. split; [congruence|].
    destruct H1 as [H1|H1], H2 as [H2|H2].
    + left; congruence.
    + right. now rewrite H1.
    + right. now rewrite <- H2.
    + right. eapply String_as_OT.lt_trans; eauto.
Qed.

Lemma tuple_leb_antisym a b :
  tuple_leb a b = true -> tuple_leb b a = true -> a = b.
Proof.
  rewrite !tuple_leb_spec.
  destruct a as [a1 a2], b as [b1 b2]; simpl.
  intros [H1|[E1 H1]] [H2|[E2 H2]].
  - now apply string_lt_asym in H1.
  - subst. now apply string_lt_irrefl in H1.
  - subst. now apply string_lt_irrefl in H2.
  - subst. destruct H1 as [H1|H1], H2 as [H2|H2]; try congruence.
    now apply string_lt_asym in H1.
Qed.

Lemma insert_item_perm x l : Permutation (insert_item x l) (x :: l).
Proof.
  induction l as [|y l IH]; simpl; auto.
  destruct (tuple_leb (_sort_key x) (_sort_key y)); auto.
  rewrite IH. apply perm_swap.
Qed.

Lemma sorted_perm l : Permutation (sorted l) l.
Proof.
  induction l as [|x l IH]; simpl; auto.
  rewrite insert_item_perm. now constructor.
Qed.

Lemma insert_item_sorted x l :
  StronglySorted key_le l -> StronglySorted key_le (insert_item x l).
Proof.
  induction l as [|y l IH]; simpl; intros Hs.
  - repeat constructor.
  - inversion Hs as [|? ? Hl Hy]; subst.
    destruct (tuple_leb (_sort_key x) (_sort_key y)) eqn:E.
    + constructor; auto. constructor; auto.
      eapply Forall_impl; [|exact Hy].
      intros z Hz. unfold key_le in *. eapply tuple_leb_trans; eauto.
    + constructor; auto.
      eapply Permutation_Forall.
      * symmetry. apply insert_item_perm.
      * constructor; auto. now apply tuple_leb_total.
Qed.

Lemma sorted_sorted l : StronglySorted key_le (sorted l).
Proof.
  induction l as [|x l IH]; simpl.
  - constructor.
  - now apply insert_item_sorted.
Qed.

(** Two sorted lists with the same items, all of different sort keys,
    are one list. *)
Lemma sorted_unique l1 l2 :
  StronglySorted key_le l1 -> StronglySorted key_le l2 ->
  Permutation l1 l2 -> NoDup (map _sort_key l1) -> l1 = l2.
Proof.
  revert l2. induction l1 as [|x l1 IH]; intros l2 S1 S2 P N.
  - now apply Permutation_nil in P.
  - destruct l2 as [|y l2].
    { symmetry in P. now apply Permutation_nil in P. }
    inversion S1 as [|? ? S1' F1]; subst.
    inversion S2 as [|? ? S2' F2]; subst.
    simpl in N. inversion N as [|? ? Nx N']; subst.
    assert (Exy : x = y).
    { assert (Hx : In x (y :: l2)) by (eapply Permutation_in; eauto; now left).
      assert (Hy : In y (x :: l1)).
      { eapply Permutation_in; [symmetry; eauto | now left]. }
      destruct Hx as [Hx|Hx]; auto. destruct Hy as [Hy|Hy]; auto.
      rewrite Forall_forall in F1, F2.
      assert (K : _sort_key x = _sort_key y).
      { apply tuple_leb_antisym; [apply F1 | apply F2]; auto. }
      exfalso. apply Nx. rewrite K. now apply in_map. }
    subst y. f_equal. apply IH; auto.
    eapply Permutation_cons_inv; eauto.
Qed.

Lemma NoDup_sort_keys (d : Dict.t entry) :
  NoDup (Dict.keys d) -> NoDup (map _sort_key d).
Proof.
  unfold Dict.keys. induction d as [|[k e] d IH]; simpl; intros H.
  - constructor.
  - inversion H; subst. constructor; auto.
    intros Hin. apply in_map_iff in Hin. destruct Hin as [[k' e'] [Hk Hin]].
    unfold _sort_key in Hk. simpl in Hk. injection Hk as _ ->.
    match goal with H : ~ In _ _ |- _ => apply H end.
    now apply (in_map fst) in Hin.
Qed.

(** The order does not depend on the order of insertion. *)
Lemma sorted_perm_invariant (d d' : Dict.t entry) :
  NoDup (Dict.keys d) -> Permutation d' d -> sorted d' = sorted d.
Proof.
  intros N P. apply sorted_unique; auto using sorted_sorted.
  - now rewrite !sorted_perm.
  - eapply Permutation_NoDup; [|apply NoDup_sort_keys; exact N].
    apply Permutation_map. rewrite sorted_perm. now symmetry.
Qed.

Lemma reversed_is_rev (d : Dict.t entry) :
  NoDup (Dict.keys d) -> reversed d = rev (iter d false).
Proof.
  intros N. unfold reversed, iter, sorted_by_key.
  rewrite map_rev. do 2 f_equal.
  apply sorted_perm_invariant; auto.
  symmetry. apply Permutation_rev.
Qed.

Lemma iter_perm (d : Dict.t entry) : Permutation (iter d false) (Dict.keys d).
Proof. unfold iter, sorted_by_key, Dict.keys. apply Permutation_map, sorted_perm. Qed.

(** ** Neighbours in the iteration *)

Lemma dropwhile_nth (l : list string) i :
  NoDup l -> i < List.length l ->
  dropwhile (fun k => negb (k =? nth i l "")) l = skipn i l.
Proof.
  revert i. induction l as [|x l IH]; intros i N Hi; simpl in Hi; [lia|].
  inversion N as [|? ? Hx N']; subst.
  destruct i as [|i]; simpl.
  - now rewrite String.eqb_refl.
  - destruct (x =? nth i l "") eqn:E.
    + apply String.eqb_eq in E. exfalso. apply Hx. rewrite E.
      apply nth_In. lia.
    + simpl. apply IH; auto. lia.
Qed.

Lemma second_from_nth (l : list string) i :
  NoDup l -> i < List.length l ->
  nth 1 (dropwhile (fun k => negb (k =? nth i l "")) l ++ (l ++ l))%list ""
  = nth ((i + 1) mod List.length l) l "".
Proof.
  intros N Hi. rewrite dropwhile_nth by auto.
  destruct (Nat.eq_dec (i + 1) (List.length l)) as [E|E].
  - rewrite E, Nat.Div0.mod_same.
    rewrite app_nth2 by (rewrite length_skipn; lia).
    rewrite length_skipn. replace (1 - (List.length l - i)) with 0 by lia.
    apply app_nth1. lia.
  - rewrite Nat.mod_small by lia.
    rewrite app_nth1 by (rewrite length_skipn; lia).
    rewrite nth_skipn. f_equal; lia.
Qed.

Lemma next_key_nth (d : Dict.t entry) i :
  NoDup (Dict.keys d) -> i < List.length (iter d false) ->
  next_key d (nth i (iter d false) "")
  = nth ((i + 1) mod List.length (iter d false)) (iter d false) "".
Proof.
  intros N Hi. unfold next_key. apply second_from_nth; auto.
  eapply Permutation_NoDup; [symmetry; apply iter_perm | exact N].
Qed.

Lemma prev_key_nth (d : Dict.t entry) i :
  NoDup (Dict.keys d) -> i < List.length (iter d false) ->
  prev_key d (nth i (iter d false) "")
  = nth ((i + List.length (iter d false) - 1) mod List.length (iter d false))
        (iter d false) "".
Proof.
  intros N Hi. unfold prev_key. rewrite reversed_is_rev by auto.
  set (l := iter d false) in *. set (n := List.length l) in *.
  assert (Nl : NoDup l).
  { eapply Permutation_NoDup; [symmetry; apply iter_perm | exact N]. }
  assert (Hn : List.length (rev l) = n) by apply length_rev.
  replace (nth i l "") with (nth (n - S i) (rev l) "").
  2:{ rewrite rev_nth by lia. f_equal. fold n. lia. }
  rewrite second_from_nth.
  - rewrite Hn. rewrite rev_nth by (fold n; apply Nat.mod_upper_bound; lia).
    fold n. f_equal.
    destruct i as [|i].
    + replace (n - 1 + 1) with n by lia. rewrite Nat.Div0.mod_same.
      rewrite Nat.mod_small; lia.
    + rewrite (Nat.mod_small (n - S (S i) + 1)) by lia.
      replace (S i + n - 1) with (i + 1 * n) by lia.
      rewrite Nat.Div0.mod_add. rewrite Nat.mod_small; lia.
  - now apply NoDup_rev.
  - rewrite Hn. lia.
Qed.

(** C2: for a registry with distinct names, iteration yields the names
    sorted by [(iface, name)], whatever the order of insertion; the
    successor of the i-th of them by [next_key] is the one after it, the
    first after the last, its predecessor by [prev_key] is the one before
    it, the last before the first; and both answer [''] on an empty
    registry. *)
Theorem iteration_sorted_and_cyclic :
  forall d : Dict.t entry,
    NoDup (Dict.keys d) ->
    let names := iter d false in
    let n := List.length names in
    names = map fst (sorted_by_key d false)
    /\ StronglySorted key_le (sorted_by_key d false)
    /\ Permutation names (Dict.keys d)
    /\ (forall d', Permutation d' d -> iter d' false = names)
    /\ (forall i, i < n ->
          next_key d (nth i names "") = nth ((i + 1) mod n) names ""
          /\ prev_key d (nth i names "") = nth ((i + n - 1) mod n) names "")
    /\ (forall item, next_key [] item = "" /\ prev_key [] item = "").
Proof.
  intros d N names n. repeat split.
  - apply sorted_sorted.
  - apply iter_perm.
  - intros d' P. unfold names, iter, sorted_by_key. f_equal.
    now apply sorted_perm_invariant.
  - now apply next_key_nth.
  - now apply prev_key_nth.
Qed.

(** ** Properties kept by every method *)

Section Preservation.

Variable P : PAMenu -> Prop.

Lemma preserves_ret {A} (a : A) : preserves P (ret a).
Proof. intros s H. exact H. Qed.

Lemma preserves_raise {A} e : preserves P (@raise A e).
Proof. intros s H. exact H. Qed.

Lemma preserves_gets {A} (f : PAMenu -> A) : preserves P (gets f).
Proof. intros s H. exact H. Qed.

Lemma preserves_bind {A B} (m : M A) (k : A -> M B) :
  preserves P m -> (forall a, preserves P (k a)) -> preserves P (bind m k).
Proof.
  intros Hm Hk s H. unfold bind. specialize (Hm s H).
  destruct (m s) as [[a|e] s']; simpl in *; auto. now apply Hk.
Qed.

Lemma preserves_try_except {A} (m h : M A) e :
  preserves P m -> preserves P h -> preserves P (try_except m e h).
Proof.
  intros Hm Hh s H. unfold try_except. specialize (Hm s H).
  destruct (m s) as [[a|e'] s']; simpl in *; auto.
  destruct (exn_eqb e' e); auto.
Qed.

Lemma preserves_try_except_else {A B} (m : M A) (h : M B) (k : A -> M B) e :
  preserves P m -> preserves P h -> (forall a, preserves P (k a)) ->
  preserves P (try_except_else m e h k).
Proof.
  intros Hm Hh Hk s H. unfold try_except_else. specialize (Hm s H).
  destruct (m s) as [[a|e'] s']; simpl in *.
  - now apply Hk.
  - destruct (exn_eqb e' e); auto.
Qed.

Lemma preserves_mapM {A B} (f : A -> M B) l :
  (forall x, preserves P (f x)) -> preserves P (mapM f l).
Proof.
  intros Hf. induction l as [|x l IH]; simpl.
  - apply preserves_ret.
  - apply preserves_bind; auto. intros y.
    apply preserves_bind; auto. intros ys. apply preserves_ret.
Qed.

Lemma preserves_forM_ {A} (f : A -> M unit) l :
  (forall x, preserves P (f x)) -> preserves P (forM_ l f).
Proof.
  intros Hf. induction l as [|x l IH]; simpl.
  - apply preserves_ret.
  - apply preserves_bind; auto.
Qed.

Lemma preserves_getitem {V} (d : Dict.t V) k : preserves P (getitem d k).
Proof.
  unfold getitem. destruct (Dict.get d k); [apply preserves_ret | apply preserves_raise].
Qed.

Lemma preserves_modify f : (forall s, P s -> P (f s)) -> preserves P (modify f).
Proof. intros Hf s H. now apply Hf. Qed.

(** Properties of the registry alone. *)
Hypothesis P_interacted : forall evs s, P s -> P (interacted evs s).
Hypothesis P_caches : forall vc mc s, P s -> P (with_caches vc mc s).
Hypothesis P_max_key_len : forall n s, P s -> P (with_max_key_len n s).
Hypothesis P_unique_idx : forall i s, P s -> P (with_unique_idx i s).
Hypothesis P_updates : forall q s, P s -> P (with_updates q s).
Hypothesis P_clear : forall s, P s -> P (with_items [] s).
Hypothesis P_set :
  forall k v s, P s -> P (with_items (Dict.set (items s) k v) s).
Hypothesis P_del :
  forall k s, P s -> P (with_items (Dict.del (items s) k) s).

Variable optz : options.
Variable srv : remote.
Variable py_round : Q -> Z.

Ltac preserve_step :=
  match goal with
  | |- preserves _ (ret _) => apply preserves_ret
  | |- preserves _ (raise _) => apply preserves_raise
  | |- preserves _ (gets _) => apply preserves_gets
  | |- preserves _ (getitem _ _) => apply preserves_getitem
  | |- preserves _ (bind _ _) => apply preserves_bind; [|intros ?]
  | |- preserves _ (try_except _ _ _) => apply preserves_try_except
  | |- preserves _ (try_except_else _ _ _ _) =>
      apply preserves_try_except_else; [| |intros ?]
  | |- preserves _ (mapM _ _) => apply preserves_mapM; intros ?
  | |- preserves _ (forM_ _ _) => apply preserves_forM_; intros ?
  | |- preserves _ (modify _) => apply preserves_modify; intros ? ?
  | |- preserves _ (if ?b then _ else _) => destruct b
  | |- preserves _ (match ?x with _ => _ end) => destruct x
  | |- P (with_caches _ _ _) => apply P_caches
  | |- P (with_max_key_len _ _) => apply P_max_key_len
  | |- P (with_updates _ _) => apply P_updates
  | |- P (with_items [] _) => apply P_clear
  | |- P (with_items (Dict.set _ _ _) _) => apply P_set
  | |- _ => assumption
  end.

Ltac preserve := repeat preserve_step.

Lemma preserves_dbus_call {A} ev (answer : nat -> option A) :
  preserves P (dbus_call ev answer).
Proof.
  intros s H. unfold dbus_call.
  destruct (answer (tick s)); simpl; now apply P_interacted.
Qed.

Lemma preserves_time : preserves P (time srv).
Proof. intros s H. now apply P_interacted. Qed.

Lemma preserves_kill_child : preserves P kill_child.
Proof. intros s H. now apply P_interacted. Qed.

Lemma preserves_call_fail_hook : preserves P call_fail_hook.
Proof.
  intros s H. unfold call_fail_hook.
  destruct (fail_hook s); simpl; auto.
Qed.

Lemma preserves_next_unique_idx : preserves P next_unique_idx.
Proof. intros s H. now apply P_unique_idx. Qed.

Lemma preserves_get_name_unique name : preserves P (_get_name_unique name).
Proof.
  unfold _get_name_unique. preserve; try apply preserves_next_unique_idx.
Qed.

Lemma preserves_delitem name : preserves P (delitem name).
Proof.
  intros s H. unfold delitem, bind, gets, modify, raise; simpl.
  destruct (Dict.mem (items s) name); simpl; auto.
Qed.

Lemma preserves_pop name : preserves P (pop name).
Proof.
  intros s H. unfold pop, bind, gets, getitem, modify, ret, raise; simpl.
  destruct (Dict.get (items s) name); simpl; auto.
Qed.

Lemma preserves_get_name iface props : preserves P (_get_name optz iface props).
Proof.
  unfold _get_name. preserve;
    try first [apply preserves_get_name_unique | apply preserves_next_unique_idx].
Qed.

Lemma preserves_add_body path iface : preserves P (add_body optz srv path iface).
Proof.
  unfold add_body, property_list, setitem.
  preserve;
    try first [ apply preserves_dbus_call | apply preserves_get_name
          | apply preserves_pop | apply preserves_get_name_unique ].
Qed.

Lemma preserves_remove_body path : preserves P (remove_body path).
Proof.
  unfold remove_body. preserve; try apply preserves_delitem.
Qed.

Lemma preserves_failsafe {A} (r : M unit) (m : M A) :
  preserves P r -> preserves P m -> preserves P (_dbus_failsafe r m).
Proof.
  intros Hr Hm. unfold _dbus_failsafe. preserve; try apply preserves_call_fail_hook.
Qed.

Lemma preserves_refresh fuel : forall soft, preserves P (refresh optz srv fuel soft).
Proof.
  induction fuel as [|fuel IH]; intros soft; simpl.
  - apply preserves_raise.
  - unfold core_get, get_bus, del_name.
    preserve;
      try first [ apply preserves_dbus_call | apply preserves_kill_child
            | apply preserves_delitem | apply IH
            | apply preserves_failsafe;
              [apply IH | apply preserves_add_body] ].
Qed.

Lemma preserves_add fuel path iface : preserves P (add optz srv fuel path iface).
Proof.
  apply preserves_failsafe; [apply preserves_refresh | apply preserves_add_body].
Qed.

Lemma preserves_remove fuel path : preserves P (remove optz srv fuel path).
Proof.
  apply preserves_failsafe; [apply preserves_refresh | apply preserves_remove_body].
Qed.

Lemma preserves_update_loop fuel queue :
  preserves P (update_loop optz srv fuel queue).
Proof.
  induction queue as [|record rest IH]; simpl.
  - apply preserves_ret.
  - preserve; try first [apply preserves_add | apply preserves_remove].
Qed.

Lemma preserves_update fuel : preserves P (update optz srv fuel).
Proof. unfold update. preserve. apply preserves_update_loop. Qed.

Lemma preserves_update_handler record : preserves P (update_handler record).
Proof. unfold update_handler. preserve. Qed.

Lemma preserves_fetch_volume fuel item ts :
  preserves P (fetch_volume optz srv fuel item ts).
Proof.
  unfold fetch_volume, _get_volume, _get_volume_body, truediv.
  preserve.
  apply preserves_failsafe; [apply preserves_refresh|].
  preserve. apply preserves_dbus_call.
Qed.

Lemma preserves_get_volume fuel item raw :
  preserves P (get_volume optz srv fuel item raw).
Proof.
  unfold get_volume.
  preserve; try first [apply preserves_time | apply preserves_fetch_volume].
Qed.

Lemma preserves_set_volume fuel item level :
  preserves P (set_volume optz srv py_round fuel item level).
Proof.
  unfold set_volume, len, UInt32, _set_volume, _set_volume_body.
  preserve; try first [apply preserves_time | apply preserves_get_volume].
  apply preserves_failsafe; [apply preserves_refresh|].
  preserve. apply preserves_dbus_call.
Qed.

Lemma preserves_run_operation fuel op s :
  P s -> P (run_operation optz srv py_round fuel op s).
Proof.
  destruct op; simpl.
  - apply preserves_add.
  - apply preserves_remove.
  - apply preserves_update.
  - apply preserves_refresh.
  - apply preserves_update_handler.
  - apply preserves_get_volume.
  - apply preserves_set_volume.
Qed.

Lemma preserves_run_operations fuel ops :
  forall s, P s -> P (run_operations optz srv py_round fuel ops s).
Proof.
  unfold run_operations.
  induction ops as [|op ops IH]; simpl; intros s H; auto.
  apply IH. now apply preserves_run_operation.
Qed.

End Preservation.

(** ** Names stay distinct *)

(** C9: whatever sequence of [add], [remove], [update] and [refresh] calls
    (and signals, volume reads and writes) is made on a registry with
    pairwise distinct names, whatever the server answers and whether the
    calls return or raise, the names of the registry are pairwise distinct
    after it; a prefix of a sequence being a sequence, that holds at every
    point between two calls. *)
Theorem names_stay_unique :
  forall optz srv py_round fuel ops s,
    unique_names s ->
    unique_names (run_operations optz srv py_round fuel ops s).
Proof.
  intros optz srv py_round fuel ops s H.
  apply preserves_run_operations; auto; unfold unique_names; simpl; intros.
  - constructor.
  - now apply NoDup_keys_set.
  - now apply NoDup_keys_del.
Qed.

(** ** Name collisions in [add] *)

Lemma with_unique_idx_same s : with_unique_idx (_unique_idx s) s = s.
Proof. now destruct s. Qed.

Lemma get_name_only_counter optz iface props s :
  snd (_get_name optz iface props s)
  = with_unique_idx (_unique_idx (snd (_get_name optz iface props s))) s.
Proof.
  assert (H : exists i, snd (_get_name optz iface props s) = with_unique_idx i s).
  { apply (preserves_get_name (fun s' => exists i, s' = with_unique_idx i s)).
    - intros i s' [j ->]. now exists i.
    - exists (_unique_idx s). symmetry. apply with_unique_idx_same. }
  destruct H as [i H]. rewrite H. reflexivity.
Qed.

Lemma str_of_N_inj i j : str_of_N i = str_of_N j -> i = j.
Proof.
  unfold str_of_N. intros H.
  apply DecimalN.Unsigned.to_uint_inj.
  assert (E : NilEmpty.uint_of_string (NilEmpty.string_of_uint (N.to_uint i)) =
              NilEmpty.uint_of_string (NilEmpty.string_of_uint (N.to_uint j)))
    by now rewrite H.
  rewrite !NilEmpty.usu in E. congruence.
Qed.

Lemma cycle_succ_neq i : cycle_succ i <> i.
Proof.
  unfold cycle_succ. destruct (i + 1 <? 2 ^ 30)%N eqn:E.
  - lia.
  - apply N.ltb_ge in E. intros H. rewrite <- H in E.
    vm_compute in E. now apply E.
Qed.

Lemma append_inj_l a b c : a ++ b = a ++ c -> b = c.
Proof. induction a; simpl; intros H; auto. injection H as H. auto. Qed.

Lemma append_length a b : String.length (a ++ b) = String.length a + String.length b.
Proof. induction a; simpl; auto. Qed.

Lemma suffixed_neq name i : name ++ " #" ++ str_of_N i <> name.
Proof.
  intros H. apply (f_equal String.length) in H.
  rewrite append_length in H. simpl in H. lia.
Qed.

Lemma suffixed_inj name i j :
  name ++ " #" ++ str_of_N i = name ++ " #" ++ str_of_N j -> i = j.
Proof.
  intros H. apply append_inj_l in H. simpl in H. injection H as H.
  now apply str_of_N_inj.
Qed.

Lemma get_del_same {V} (d : Dict.t V) k :
  NoDup (Dict.keys d) -> Dict.get (Dict.del d k) k = None.
Proof.
  intros N. apply get_none_not_in_keys. now apply not_in_keys_del.
Qed.

Lemma bind_Ret {A B} (m : M A) (k : A -> M B) s a s' :
  m s = (Ret a, s') -> bind m k s = k a s'.
Proof. intros H. unfold bind. now rewrite H. Qed.

Lemma bind_Raise {A B} (m : M A) (k : A -> M B) s e s' :
  m s = (Raise e, s') -> bind m k s = (Raise e, s').
Proof. intros H. unfold bind. now rewrite H. Qed.

Lemma try_except_Ret {A} (m h : M A) e s a s' :
  m s = (Ret a, s') -> try_except m e h s = (Ret a, s').
Proof. intros H. unfold try_except. now rewrite H. Qed.

Lemma failsafe_Ret {A} (r : M unit) (m : M A) s a s' :
  m s = (Ret a, s') -> _dbus_failsafe r m s = (Ret (Some a), s').
Proof.
  intros H. unfold _dbus_failsafe. apply try_except_Ret.
  now erewrite bind_Ret by exact H.
Qed.

Lemma add_body_collision optz srv path iface s props name s1 old :
    use_media_name optz = true ->
    r_property_list srv (tick s) path iface = Some props ->
    _get_name optz iface props (interacted [EPropertyList path iface] s)
      = (Ret name, s1) ->
    Dict.get (items s1) name = Some old ->
    let renamed := name ++ " #" ++ str_of_N (_unique_idx s1) in
    let fresh := name ++ " #" ++ str_of_N (cycle_succ (_unique_idx s1)) in
    exists s',
      add_body optz srv path iface s = (Ret fresh, s')
      /\ items s' = Dict.set (Dict.set (Dict.del (items s1) name) renamed old)
                             fresh (iface, path).
Proof.
  intros Hm Hp Hn Ho renamed fresh.
  unfold add_body.
  erewrite bind_Ret by (unfold property_list, dbus_call; rewrite Hp; reflexivity).
  erewrite bind_Ret by exact Hn.
  erewrite bind_Ret by reflexivity.
  unfold Dict.mem. rewrite Hm, Ho. cbv beta iota delta [andb].
  erewrite (bind_Ret (_ ;; _)).
  2:{ erewrite bind_Ret by (unfold pop; erewrite bind_Ret by reflexivity;
                            erewrite bind_Ret by (unfold getitem; rewrite Ho; reflexivity);
                            erewrite bind_Ret by reflexivity; reflexivity).
      erewrite bind_Ret by reflexivity.
      erewrite bind_Ret by reflexivity.
      reflexivity. }
  erewrite bind_Ret by reflexivity.
  erewrite bind_Ret by reflexivity.
  match goal with |- context [if ?b then _ else _] => destruct b end.
  - erewrite bind_Ret by reflexivity. eexists. split; reflexivity.
  - erewrite bind_Ret by reflexivity. eexists. split; reflexivity.
Qed.

(** C8, as the code has it: in media-name mode, when the name [add]
    derives is already registered, the existing entry is moved to that name
    with the next counter value as suffix, the new entity is inserted under
    the name with the counter value after that as suffix, and the contested
    name itself is left unregistered; the two suffixed names differ from each
    other and from the contested name. *)
Theorem add_collision_suffixes_both :
  forall optz srv fuel path iface s props name s1 old,
    use_media_name optz = true ->
    unique_names s ->
    r_property_list srv (tick s) path iface = Some props ->
    _get_name optz iface props (interacted [EPropertyList path iface] s)
      = (Ret name, s1) ->
    Dict.get (items s) name = Some old ->
    let renamed := name ++ " #" ++ str_of_N (_unique_idx s1) in
    let fresh := name ++ " #" ++ str_of_N (cycle_succ (_unique_idx s1)) in
    exists s',
      add optz srv fuel path iface s = (Ret (Some fresh), s')
      /\ items s' = Dict.set (Dict.set (Dict.del (items s) name) renamed old)
                             fresh (iface, path)
      /\ Dict.get (items s') name = None
      /\ Dict.get (items s') renamed = Some old
      /\ Dict.get (items s') fresh = Some (iface, path)
      /\ renamed <> fresh /\ renamed <> name /\ fresh <> name.
Proof.
  intros optz srv fuel path iface s props name s1 old Hm Hu Hp Hn Ho renamed fresh.
  assert (Hs1 : s1 = with_unique_idx (_unique_idx s1)
                       (interacted [EPropertyList path iface] s)).
  { pose proof (get_name_only_counter optz iface props
                  (interacted [EPropertyList path iface] s)) as E.
    rewrite Hn in E. exact E. }
  assert (Hi : items s1 = items s) by (rewrite Hs1; reflexivity).
  assert (Hrf : renamed <> fresh).
  { intros E. apply suffixed_inj in E. symmetry in E.
    now apply cycle_succ_neq in E. }
  assert (Hrn : renamed <> name) by apply suffixed_neq.
  assert (Hfn : fresh <> name) by apply suffixed_neq.
  destruct (add_body_collision optz srv path iface s props name s1 old)
    as [s' [Hadd Hitems]]; auto; [congruence|].
  fold renamed fresh in Hitems. rewrite Hi in Hitems.
  exists s'. split; [now apply failsafe_Ret|]. split; [exact Hitems|].
  rewrite Hitems. repeat split; auto.
  - rewrite !get_set_other by auto. now apply get_del_same.
  - rewrite get_set_other by auto. apply get_set_same.
  - apply get_set_same.
Qed.

(** C8 fails as stated: the new entity is not registered under the
    contested name, which here is ["song"]; it gets ["song #1"]. *)
Lemma add_collision_contested_name_vacated :
  let r := add Sample.by_media_name (Sample.server [] []) 1
               "/stream/song2" "Stream"
               (Sample.menu_with "song" ("Stream", "/stream/song")) in
  fst r = Ret (Some "song #1")
  /\ Dict.get (items (snd r)) "song" <> Some ("Stream", "/stream/song2")
  /\ items (snd r) = [("song #0", ("Stream", "/stream/song"));
                      ("song #1", ("Stream", "/stream/song2"))].
Proof. vm_compute. repeat split. discriminate. Qed.

Lemma add_collision_suffixes_both_witness :
  exists s',
    add Sample.by_media_name (Sample.server [] []) 1 "/stream/song2" "Stream"
        (Sample.menu_with "song" ("Stream", "/stream/song"))
    = (Ret (Some "song #1"), s')
    /\ items s' = [("song #0", ("Stream", "/stream/song"));
                   ("song #1", ("Stream", "/stream/song2"))]
    /\ Dict.get (items s') "song" = None
    /\ Dict.get (items s') "song #0" = Some ("Stream", "/stream/song")
    /\ Dict.get (items s') "song #1" = Some ("Stream", "/stream/song2")
    /\ "song #0" <> "song #1" /\ "song #0" <> "song" /\ "song #1" <> "song".
Proof.
  apply (add_collision_suffixes_both
           Sample.by_media_name (Sample.server [] []) 1
           "/stream/song2" "Stream"
           (Sample.menu_with "song" ("Stream", "/stream/song"))
           [("media.name", "song")] "song"
           (interacted [EPropertyList "/stream/song2" "Stream"]
              (Sample.menu_with "song" ("Stream", "/stream/song")))
           ("Stream", "/stream/song")).
  - reflexivity.
  - unfold unique_names. simpl. repeat constructor. simpl. tauto.
  - reflexivity.
  - reflexivity.
  - reflexivity.
Defined.

(** ** Volume reads and writes *)

Lemma Qltb_true a b : Qltb a b = true <-> (a < b)%Q.
Proof.
  unfold Qltb. rewrite Qlt_alt. destruct (a ?= b)%Q; split; congruence.
Qed.

Lemma Qltb_false a b : Qltb a b = false <-> ~ (a < b)%Q.
Proof.
  rewrite <- Qltb_true. destruct (Qltb a b); split; congruence.
Qed.

Lemma mapM_normalize optz levels s :
  max_level optz <> 0%Z ->
  mapM (fun v => q <- truediv v (max_level optz) ;; ret (Qmin q 1)) levels s
  = (Ret (map (fun v => Qmin (inject_Z v / inject_Z (max_level optz)) 1) levels), s).
Proof.
  intros Hm. induction levels as [|v levels IH]; simpl; auto.
  destruct (max_level optz =? 0)%Z eqn:E; [apply Z.eqb_eq in E; contradiction|].
  erewrite bind_Ret by (unfold truediv; rewrite E; reflexivity).
  erewrite bind_Ret by apply IH. reflexivity.
Qed.

(** C4: a [get_volume] call finding a cached value no older than the cache
    time (the code's test [ts < ts_chk - self._cache_time] fails) returns
    that value and calls nothing on the server; a call finding no value,
    or one older than the cache time (the test succeeds), on a registered
    name makes exactly one [Volume] read, and when the server answers it
    stores [min(level / max_level, 1.0)] per channel with the time of the
    call and returns that value. The value returned is the tuple when
    [raw] is set, and otherwise its arithmetic mean: the sum of the
    levels, added from 0 in their order, divided by their number. The
    cache time of an instance made without [cache_time] is 2 seconds. *)
Theorem get_volume_cache_ttl :
  forall optz srv fuel item s,
    let now := r_time srv (tick s) in
    (forall val ts raw,
        Dict.get (_volume_val_cache s) item = Some (val, ts) ->
        ~ (ts < now - _cache_time s)%Q ->
        let r := get_volume optz srv fuel item raw s in
        trace (snd r) = trace s
        /\ _volume_val_cache (snd r) = _volume_val_cache s
        /\ (raw = true -> fst r = Ret (Channels val))
        /\ (raw = false -> val <> [] ->
            fst r = Ret (Average (fold_left Qplus val 0%Q
                                  / inject_Z (Z.of_nat (List.length val))))))
    /\ (forall e levels raw,
        (Dict.get (_volume_val_cache s) item = None
         \/ exists val ts,
              Dict.get (_volume_val_cache s) item = Some (val, ts)
              /\ (ts < now - _cache_time s)%Q) ->
        Dict.get (items s) item = Some e ->
        r_get_volume srv (S (tick s)) (object_path e) (iface_of e) = Some levels ->
        max_level optz <> 0%Z ->
        let val := map (fun v => Qmin (inject_Z v / inject_Z (max_level optz)) 1)
                       levels in
        let r := get_volume optz srv fuel item raw s in
        trace (snd r) = (trace s ++ [EGetVolume (object_path e) (iface_of e)])%list
        /\ Dict.get (_volume_val_cache (snd r)) item = Some (val, now)
        /\ (raw = true -> fst r = Ret (Channels val))
        /\ (raw = false -> levels <> [] ->
            fst r = Ret (Average (fold_left Qplus val 0%Q
                                  / inject_Z (Z.of_nat (List.length val))))))
    /\ (forall hook, _cache_time (new_menu None hook) = 2%Q).
Proof.
  intros optz srv fuel item s now. split; [|split; [|reflexivity]].
  - intros val ts raw Hc Hage r. subst r.
    assert (Hf : Qltb ts (now - _cache_time s) = false).
    { now apply Qltb_false. }
    unfold get_volume.
    erewrite bind_Ret by reflexivity.
    erewrite bind_Ret by reflexivity.
    erewrite bind_Ret by reflexivity.
    change (_cache_time (interacted [] s)) with (_cache_time s).
    fold now. rewrite Hc, Hf.
    erewrite bind_Ret by reflexivity.
    destruct raw.
    + simpl. rewrite app_nil_r. repeat split; congruence.
    + destruct val as [|v val]; simpl; rewrite app_nil_r; repeat split; congruence.
  - intros e levels raw Hstale He Hl Hm val r. subst r.
    assert (Hfetch : fetch_volume optz srv fuel item now (interacted [] s)
               = (Ret val, with_caches
                    (Dict.set (_volume_val_cache s) item (val, now))
                    (_mute_val_cache s)
                    (interacted [EGetVolume (object_path e) (iface_of e)]
                       (interacted [] s)))).
    { unfold fetch_volume.
      erewrite bind_Ret.
      2:{ apply try_except_Ret. unfold _get_volume. apply failsafe_Ret.
          unfold _get_volume_body.
          erewrite bind_Ret by reflexivity.
          erewrite bind_Ret by (unfold getitem; simpl; rewrite He; reflexivity).
          unfold dbus_call. simpl. rewrite Hl. reflexivity. }
      cbv beta iota.
      erewrite bind_Ret by (apply mapM_normalize; exact Hm).
      erewrite bind_Ret by reflexivity. reflexivity. }
    unfold get_volume.
    erewrite bind_Ret by reflexivity.
    erewrite bind_Ret by reflexivity.
    erewrite bind_Ret by reflexivity.
    fold now.
    erewrite bind_Ret.
    2:{ destruct Hstale as [Hc | [cv [ts [Hc Hage]]]]; rewrite Hc.
        - exact Hfetch.
        - change (_cache_time (interacted [] s)) with (_cache_time s).
          replace (Qltb ts (now - _cache_time s)) with true.
          + exact Hfetch.
          + symmetry. now apply Qltb_true. }
    destruct raw.
    + simpl. rewrite app_nil_r. rewrite get_set_same. repeat split; congruence.
    + destruct levels as [|l levels]; simpl; rewrite app_nil_r, get_set_same;
        repeat split; congruence.
Qed.

Lemma mapM_UInt32_repeat (py_round : Q -> Z) ml q n s :
  (0 <= py_round (q * inject_Z ml)%Q < 2 ^ 32)%Z ->
  mapM (fun v => UInt32 (py_round (v * inject_Z ml)%Q)) (repeat q n) s
  = (Ret (repeat (py_round (q * inject_Z ml)%Q) n), s).
Proof.
  intros Hr. induction n as [|n IH]; simpl; auto.
  erewrite bind_Ret.
  2:{ unfold UInt32.
      replace ((0 <=? py_round (q * inject_Z ml)%Q)%Z
               && (py_round (q * inject_Z ml)%Q <? 2 ^ 32)%Z)%bool with true.
      - reflexivity.
      - symmetry. apply andb_true_iff. split; [apply Z.leb_le | apply Z.ltb_lt]; lia. }
  erewrite bind_Ret by apply IH. reflexivity.
Qed.

Lemma clamp_bounds level : (0 <= Qmax 0 (Qmin 1 level) <= 1)%Q.
Proof.
  split.
  - apply Q.le_max_l.
  - apply Q.max_lub; [lra | apply Q.le_min_l].
Qed.

Lemma set_volume_when_representable :
  forall optz srv py_round fuel item level s chans s1 e,
    get_volume optz srv fuel item true s = (Ret (Channels chans), s1) ->
    Dict.get (items s1) item = Some e ->
    let clamped := Qmax 0 (Qmin 1 level) in
    let n := List.length chans in
    let dbus_level := py_round (clamped * inject_Z (max_level optz))%Q in
    (0 <= dbus_level < 2 ^ 32)%Z ->
    r_set_volume srv (tick s1) (object_path e) (iface_of e)
                 (repeat dbus_level n) = true ->
    let r := set_volume optz srv py_round fuel item level s in
    fst r = Ret tt
    /\ trace (snd r)
       = (trace s1 ++ [ESetVolume (object_path e) (iface_of e)
                                  (repeat dbus_level n)])%list
    /\ Dict.get (_volume_val_cache (snd r)) item
       = Some (repeat clamped n, r_time srv (S (tick s1)))
    /\ (0 <= clamped <= 1)%Q.
Proof.
  intros optz srv py_round fuel item level s chans s1 e Hget He clamped n
         dbus_level Hrange Hset r.
  assert (E : r = (Ret tt,
                   with_caches
                     (Dict.set (_volume_val_cache s1) item
                        (repeat clamped n, r_time srv (S (tick s1))))
                     (_mute_val_cache s1)
                     (interacted []
                        (interacted [ESetVolume (object_path e) (iface_of e)
                                                (repeat dbus_level n)] s1)))).
  { subst r. unfold set_volume.
    erewrite bind_Ret by exact Hget.
    erewrite bind_Ret by reflexivity.
    erewrite bind_Ret by (apply mapM_UInt32_repeat; exact Hrange).
    erewrite bind_Ret.
    2:{ apply try_except_Ret. erewrite bind_Ret; [reflexivity|].
        unfold _set_volume. apply failsafe_Ret. unfold _set_volume_body.
        erewrite bind_Ret by reflexivity.
        erewrite bind_Ret by (unfold getitem; simpl; rewrite He; reflexivity).
        unfold dbus_call. fold n clamped dbus_level. rewrite Hset. reflexivity. }
    erewrite bind_Ret by reflexivity. reflexivity. }
  rewrite E. simpl. rewrite app_nil_r, get_set_same.
  repeat split; try apply clamp_bounds.
Qed.

Lemma rounded_level_in_range (py_round : Q -> Z) ml level :
  (forall q, (Qfloor q <= py_round q <= Qceiling q)%Z) ->
  (0 <= ml < 2 ^ 32)%Z ->
  (0 <= py_round (Qmax 0 (Qmin 1 level) * inject_Z ml)%Q < 2 ^ 32)%Z.
Proof.
  intros Hr Hm.
  pose proof (clamp_bounds level) as [H0 H1].
  set (c := Qmax 0 (Qmin 1 level)) in *.
  assert (Hml : (0 <= inject_Z ml)%Q).
  { change 0%Q with (inject_Z 0). rewrite <- Zle_Qle. lia. }
  assert (Hq0 : (inject_Z 0 <= c * inject_Z ml)%Q).
  { change (inject_Z 0) with 0%Q. now apply Qmult_le_0_compat. }
  assert (Hq1 : (c * inject_Z ml <= inject_Z ml)%Q).
  { rewrite <- (Qmult_1_l (inject_Z ml)) at 2.
    now apply Qmult_le_compat_r. }
  apply Qfloor_resp_le in Hq0. rewrite Qfloor_Z in Hq0.
  apply Qceiling_resp_le in Hq1. rewrite Qceiling_Z in Hq1.
  specialize (Hr (c * inject_Z ml)%Q). lia.
Qed.


Lemma round_half_up_between q :
  (Qfloor q <= Sample.round_half_up q <= Qceiling q)%Z.
Proof.
  unfold Sample.round_half_up.
  pose proof (Qfloor_le q) as Hf. pose proof (Qle_ceiling q) as Hc.
  destruct (Qle_bool 0 q).
  - split.
    + apply Qfloor_resp_le. lra.
    + pose proof (Qfloor_le (q + (1 # 2))) as H.
      assert (L : (inject_Z (Qfloor (q + (1 # 2))) < inject_Z (Qceiling q + 1))%Q).
      { rewrite inject_Z_plus. change (inject_Z 1) with 1%Q. lra. }
      rewrite <- Zlt_Qlt in L. lia.
  - split.
    + pose proof (Qle_ceiling (q - (1 # 2))) as H.
      assert (L : (inject_Z (Qfloor q - 1) < inject_Z (Qceiling (q - (1 # 2))))%Q).
      { replace (Qfloor q - 1)%Z with (Qfloor q + -1)%Z by lia.
        rewrite inject_Z_plus. change (inject_Z (-1)) with (-1)%Q. lra. }
      rewrite <- Zlt_Qlt in L. lia.
    + apply Qceiling_resp_le. lra.
Qed.

(** C3: for a rounding that stays between floor and ceiling (both Pythons'
    do) and a [max_level] that fits 32 bits: when
    [get_volume(item, raw=True)] reports [n] channels, the name is
    registered and the server accepts the write, [set_volume(item, x)]
    returns after exactly one [Volume] write of [n] times
    [round(max(0, min(1, x)) * max_level)], and the volume cache then holds
    [n] times [max(0, min(1, x))], a level between 0 and 1, with the time
    read after the write. *)
Theorem set_volume_clamps_and_caches :
  forall optz srv py_round fuel item level s chans s1 e,
    (forall q, (Qfloor q <= py_round q <= Qceiling q)%Z) ->
    (0 <= max_level optz < 2 ^ 32)%Z ->
    get_volume optz srv fuel item true s = (Ret (Channels chans), s1) ->
    Dict.get (items s1) item = Some e ->
    let clamped := Qmax 0 (Qmin 1 level) in
    let n := List.length chans in
    let dbus_level := py_round (clamped * inject_Z (max_level optz))%Q in
    r_set_volume srv (tick s1) (object_path e) (iface_of e)
                 (repeat dbus_level n) = true ->
    let r := set_volume optz srv py_round fuel item level s in
    fst r = Ret tt
    /\ trace (snd r)
       = (trace s1 ++ [ESetVolume (object_path e) (iface_of e)
                                  (repeat dbus_level n)])%list
    /\ Dict.get (_volume_val_cache (snd r)) item
       = Some (repeat clamped n, r_time srv (S (tick s1)))
    /\ (0 <= clamped <= 1)%Q.
Proof.
  intros optz srv py_round fuel item level s chans s1 e Hround Hmax Hget He
         clamped n dbus_level Hset r.
  apply (set_volume_when_representable optz srv py_round fuel item level s
           chans s1 e); auto.
  now apply rounded_level_in_range.
Qed.


Lemma get_volume_cache_ttl_witness :
  let srv := Sample.server [] ["/sink/0"] in
  let s := Sample.menu_with "Speakers" ("Device", "/sink/0") in
  let fresh := with_caches [("Speakers", ([1 # 4; 3 # 4], 0))]%Q [] s in
  let r := get_volume Sample.by_application srv 1 "Speakers" false fresh in
  let r' := get_volume Sample.by_application srv 1 "Speakers" true s in
  let r'' := get_volume Sample.by_application srv 1 "Speakers" false s in
  (trace (snd r) = []
   /\ exists m, fst r = Ret (Average m) /\ (m == 1 # 2)%Q)
  /\ (trace (snd r') = [EGetVolume "/sink/0" "Device"]
      /\ fst r' = Ret (Channels [Qmin (32768 / 65536) 1;
                                 Qmin (65536 / 65536) 1]))
  /\ (trace (snd r'') = [EGetVolume "/sink/0" "Device"]
      /\ exists m, fst r'' = Ret (Average m) /\ (m == 3 # 4)%Q).
Proof.
  intros srv s fresh r r' r''. split; [|split].
  - destruct (get_volume_cache_ttl Sample.by_application srv 1 "Speakers"
                fresh) as [H _].
    destruct (H [1 # 4; 3 # 4]%Q 0%Q false) as (Ht & _ & _ & Hr).
    + reflexivity.
    + intros L. vm_compute in L. discriminate L.
    + split; [exact Ht|]. eexists. split.
      * apply Hr; [reflexivity | discriminate].
      * reflexivity.
  - destruct (get_volume_cache_ttl Sample.by_application srv 1 "Speakers" s)
      as [_ [H _]].
    destruct (H ("Device", "/sink/0") [32768%Z; 65536%Z] true)
      as (Ht & _ & Hr & _).
    + left. reflexivity.
    + reflexivity.
    + reflexivity.
    + discriminate.
    + split; [exact Ht | apply Hr; reflexivity].
  - destruct (get_volume_cache_ttl Sample.by_application srv 1 "Speakers" s)
      as [_ [H _]].
    destruct (H ("Device", "/sink/0") [32768%Z; 65536%Z] false)
      as (Ht & _ & _ & Hr).
    + left. reflexivity.
    + reflexivity.
    + reflexivity.
    + discriminate.
    + split; [exact Ht|]. eexists. split.
      * apply Hr; [reflexivity | discriminate].
      * reflexivity.
Defined.

Lemma set_volume_clamps_and_caches_witness :
  let s := Sample.menu_with "Speakers" ("Device", "/sink/0") in
  let r := set_volume Sample.by_application (Sample.server [] ["/sink/0"])
             Sample.round_half_up 1 "Speakers" (1 # 2) s in
  fst r = Ret tt
  /\ trace (snd r) = [EGetVolume "/sink/0" "Device";
                      ESetVolume "/sink/0" "Device" [32768%Z; 32768%Z]]
  /\ Dict.get (_volume_val_cache (snd r)) "Speakers"
     = Some ([Qmax 0 (Qmin 1 (1 # 2)); Qmax 0 (Qmin 1 (1 # 2))], inject_Z 3)
  /\ (0 <= Qmax 0 (Qmin 1 (1 # 2)) <= 1)%Q.
Proof.
  intros s r.
  apply (set_volume_clamps_and_caches Sample.by_application
           (Sample.server [] ["/sink/0"]) Sample.round_half_up 1
           "Speakers" (1 # 2) s
           [Qmin (32768 / 65536) 1; Qmin (65536 / 65536) 1]
           (snd (get_volume Sample.by_application
                   (Sample.server [] ["/sink/0"]) 1 "Speakers" true s))
           ("Device", "/sink/0")).
  - apply round_half_up_between.
  - split; [apply Z.leb_le | apply Z.ltb_lt]; reflexivity.
  - reflexivity.
  - reflexivity.
  - reflexivity.
Defined.

(** ** The failsafe wrapper *)

Lemma call_fail_hook_eq s : call_fail_hook s = (Ret tt, after_fail_hook s).
Proof. unfold call_fail_hook, after_fail_hook. now destruct (fail_hook s). Qed.

(** C6, as the code has it: a wrapped method that returns or raises
    anything but [DBusException] is left alone; when its first attempt
    raises [DBusException], [refresh()] is called once with its default
    [soft=True], and if that returns the method is called once more: its
    result is returned, or, when it raises [DBusException] again, the
    failure hook (if any) is called and the call returns [None]; when the
    refresh itself raises [DBusException] the hook is called and [None]
    returned without a retry. No [DBusException] escapes. *)
Theorem dbus_failsafe_soft_refresh_then_retry :
  forall optz srv fuel (A : Type) (method : M A) s,
    let wrapped := _dbus_failsafe (refresh optz srv fuel true) method in
    fst (wrapped s) <> Raise DBusException
    /\ (forall a s1, method s = (Ret a, s1) -> wrapped s = (Ret (Some a), s1))
    /\ (forall e s1, method s = (Raise e, s1) -> e <> DBusException ->
          wrapped s = (Raise e, s1))
    /\ (forall s1 s2,
          method s = (Raise DBusException, s1) ->
          refresh optz srv fuel true s1 = (Ret tt, s2) ->
          (forall a s3, method s2 = (Ret a, s3) ->
             wrapped s = (Ret (Some a), s3))
          /\ (forall s3, method s2 = (Raise DBusException, s3) ->
                wrapped s = (Ret None, after_fail_hook s3)))
    /\ (forall s1 s2,
          method s = (Raise DBusException, s1) ->
          refresh optz srv fuel true s1 = (Raise DBusException, s2) ->
          wrapped s = (Ret None, after_fail_hook s2)).
Proof.
  intros optz srv fuel A method s wrapped. subst wrapped.
  unfold _dbus_failsafe, try_except, bind.
  repeat split.
  - destruct (method s) as [[a|e] s1]; simpl; [discriminate|].
    destruct e; simpl; try discriminate.
    destruct (refresh optz srv fuel true s1) as [[[]|e] s2]; simpl.
    + destruct (method s2) as [[a|e] s3]; simpl; [discriminate|].
      destruct e; simpl; try discriminate.
      rewrite call_fail_hook_eq. discriminate.
    + destruct e; simpl; try discriminate.
      rewrite call_fail_hook_eq. discriminate.
  - intros a s1 H. now rewrite H.
  - intros e s1 H He. rewrite H. destruct e; simpl; congruence.
  - intros a s3 H3. rewrite H; simpl. rewrite H0, H3. reflexivity.
  - intros s3 H3. rewrite H; simpl. rewrite H0, H3; simpl.
    now rewrite call_fail_hook_eq.
  - intros s1 s2 H1 H2. rewrite H1; simpl. rewrite H2; simpl.
    now rewrite call_fail_hook_eq.
Qed.

(** C6 fails as stated: a volume read that fails once is recovered by a
    soft refresh and a retry; the process never reconnects to the bus, so
    no hard refresh is performed. *)
Lemma failsafe_recovers_without_hard_refresh :
  let r := _get_volume Sample.by_application
             (Sample.flaky_server [] ["/sink/0"] [0]) 1 "Speakers"
             (Sample.menu_with "Speakers" ("Device", "/sink/0")) in
  fst r = Ret (Some [32768%Z; 65536%Z])
  /\ trace (snd r) = [EGetVolume "/sink/0" "Device"; ECoreGet "PlaybackStreams";
                      ECoreGet "Sinks"; EPropertyList "/sink/0" "Device";
                      EGetVolume "/sink/0" "Device"]
  /\ hard_refreshes (trace (snd r)) <> 1.
Proof. vm_compute. repeat split. discriminate. Qed.

Lemma dbus_failsafe_soft_refresh_then_retry_witness :
  let s := Sample.menu_with "Speakers" ("Device", "/sink/0") in
  let srv := Sample.flaky_server [] ["/sink/0"] [0] in
  let method := _get_volume_body srv "Speakers" in
  let s2 := snd (refresh Sample.by_application srv 1 true (snd (method s))) in
  _dbus_failsafe (refresh Sample.by_application srv 1 true) method s
  = (Ret (Some [32768%Z; 65536%Z]), snd (method s2)).
Proof.
  intros s srv method s2.
  destruct (dbus_failsafe_soft_refresh_then_retry
              Sample.by_application srv 1 _ method s) as (_ & _ & _ & H & _).
  destruct (H (snd (method s)) s2) as [H' _]; [reflexivity | reflexivity |].
  apply H'. reflexivity.
Defined.

(** ** Soft refresh *)

Lemma del_name_absent name s :
  match name with Some k => Dict.mem (items s) k = false | None => True end ->
  del_name name s = (Raise KeyError, s).
Proof.
  destruct name as [k|]; simpl; auto.
  intros H. unfold delitem, bind, gets. now rewrite H.
Qed.

(** The reconciliation loop of a soft refresh deletes nothing: the names
    it walks are those absent from the registry, so it is empty or its
    first [del] raises [KeyError]. *)
Lemma reconcile_deletes_nothing names s :
  forM_ (difference names (items s)) del_name s
  = (match difference names (items s) with
     | [] => Ret tt
     | _ :: _ => Raise KeyError
     end, s).
Proof.
  destruct (difference names (items s)) as [|x l] eqn:E; simpl; auto.
  assert (Hx : In x (difference names (items s))) by (rewrite E; now left).
  unfold difference in Hx. apply filter_In in Hx. destruct Hx as [_ Hx].
  erewrite bind_Raise; [reflexivity|].
  apply del_name_absent. destruct x as [k|]; auto.
  now apply negb_true_iff in Hx.
Qed.

(** C1 at a failing input: the registry holds a stream that the server no
    longer lists; a soft refresh fetches the (empty) snapshot, returns, and
    the stream is still registered. The loop meant to remove it removes
    nothing on any input: it leaves the state as it is, returning when no
    added name is missing from the registry and raising [KeyError]
    otherwise. *)
Theorem soft_refresh_keeps_vanished_stream :
  (let s := Sample.menu_with "App (u@h:1)" ("Stream", "/stream/app") in
   let r := refresh Sample.by_application (Sample.server [] []) 1 true s in
   fst r = Ret tt
   /\ trace (snd r) = [ECoreGet "PlaybackStreams"; ECoreGet "Sinks"]
   /\ items (snd r) = [("App (u@h:1)", ("Stream", "/stream/app"))])
  /\ (forall names s,
        snd (forM_ (difference names (items s)) del_name s) = s
        /\ fst (forM_ (difference names (items s)) del_name s)
           = match difference names (items s) with
             | [] => Ret tt
             | _ :: _ => Raise KeyError
             end).
Proof.
  split.
  - vm_compute. repeat split.
  - intros names s. rewrite reconcile_deletes_nothing. split; reflexivity.
Qed.

(** ** Sink events *)

Lemma get_name_sink optz props s :
  _get_name optz "Sink" props s = (Raise KeyError, s).
Proof. reflexivity. Qed.

Lemma add_body_sink optz srv path s :
  exists e s', add_body optz srv path "Sink" s = (Raise e, s').
Proof.
  unfold add_body, property_list, dbus_call, bind.
  destruct (r_property_list srv (tick s) path "Sink"); eauto.
  rewrite get_name_sink. eauto.
Qed.

(** C7 at a failing input: [update] hands a ['^'] event to [add] with
    the interface ['Sink'], for which [_get_name] has no naming rule; such
    a call never returns a name, and draining the event for a sink the
    server describes raises [KeyError] and registers nothing. *)
Theorem sink_added_event_registers_nothing :
  (forall optz srv fuel path s name s',
      add optz srv fuel path "Sink" s <> (Ret (Some name), s'))
  /\ (let s := with_updates [["^"; "/sink/0"]] (new_menu None true) in
      let r := update Sample.by_application (Sample.server [] ["/sink/0"]) 1 s in
      fst r = Raise KeyError
      /\ updates (snd r) = []
      /\ items (snd r) = []).
Proof.
  split.
  - intros optz srv fuel path s name s'.
    unfold add, _dbus_failsafe, try_except.
    unfold bind at 1.
    destruct (add_body_sink optz srv path s) as (e & s1 & ->).
    destruct (exn_eqb e DBusException); [|discriminate].
    unfold bind at 1.
    destruct (refresh optz srv fuel true s1) as [[[]|e2] s2].
    + unfold bind.
      destruct (add_body_sink optz srv path s2) as (e3 & s3 & ->).
      destruct (exn_eqb e3 DBusException); [|discriminate].
      rewrite call_fail_hook_eq. discriminate.
    + destruct (exn_eqb e2 DBusException); [|discriminate].
      unfold bind. rewrite call_fail_hook_eq. discriminate.
  - vm_compute. repeat split.
Qed.

(** ** Soft refresh twice *)

Lemma set_set_same {V} (d : Dict.t V) k v v' :
  Dict.set (Dict.set d k v) k v' = Dict.set d k v'.
Proof.
  induction d as [|[k0 v0] d IH]; simpl.
  - now rewrite String.eqb_refl.
  - destruct (k0 =? k) eqn:E; simpl; rewrite E; auto. now rewrite IH.
Qed.

Lemma set_set_comm {V} (d : Dict.t V) k v k1 v1 :
  k <> k1 -> Dict.mem d k = true ->
  Dict.set (Dict.set d k v) k1 v1 = Dict.set (Dict.set d k1 v1) k v.
Proof.
  intros Hne. unfold Dict.mem.
  induction d as [|[k0 v0] d IH]; simpl; [discriminate|].
  destruct (k0 =? k) eqn:E; simpl.
  - apply String.eqb_eq in E. subst k0. intros _.
    destruct (k =? k1) eqn:E1; [apply String.eqb_eq in E1; congruence|].
    simpl. now rewrite String.eqb_refl.
  - intros H. destruct (k0 =? k1) eqn:E1; simpl; rewrite E; auto.
    now rewrite IH.
Qed.

Lemma set_same {V} (d : Dict.t V) k v :
  Dict.get d k = Some v -> Dict.set d k v = d.
Proof.
  induction d as [|[k0 v0] d IH]; simpl; [discriminate|].
  destruct (k0 =? k) eqn:E.
  - intros H. injection H as ->. reflexivity.
  - intros H. now rewrite IH.
Qed.

Lemma mem_set {V} (d : Dict.t V) k v k' :
  Dict.mem (Dict.set d k v) k' = (Dict.mem d k' || (k =? k'))%bool.
Proof.
  unfold Dict.mem. destruct (String.eqb_spec k k') as [->|Hne].
  - rewrite get_set_same. now rewrite orb_true_r.
  - rewrite get_set_other by congruence. now rewrite orb_false_r.
Qed.

Lemma mem_register es : forall d k,
  Dict.mem d k = true -> Dict.mem (register es d) k = true.
Proof.
  induction es as [|[k0 v0] es IH]; simpl; auto.
  intros d k H. apply IH. rewrite mem_set, H. reflexivity.
Qed.

Lemma mem_register_key es : forall d k,
  In k (map fst es) -> Dict.mem (register es d) k = true.
Proof.
  induction es as [|[k0 v0] es IH]; simpl; [tauto|].
  intros d k [->|H].
  - apply mem_register. rewrite mem_set, String.eqb_refl. apply orb_true_r.
  - now apply IH.
Qed.

Lemma register_set_absorbed es : forall d k v,
  In k (map fst es) -> Dict.mem d k = true ->
  register es (Dict.set d k v) = register es d.
Proof.
  induction es as [|[k1 v1] es IH]; simpl; [tauto|].
  intros d k v Hin Hmem.
  destruct (String.eqb_spec k1 k) as [->|Hne].
  - now rewrite set_set_same.
  - destruct Hin as [H|H]; [congruence|].
    rewrite set_set_comm by auto.
    apply IH; auto. rewrite mem_set, Hmem. reflexivity.
Qed.

Lemma get_register_other es : forall d k,
  ~ In k (map fst es) -> Dict.get (register es d) k = Dict.get d k.
Proof.
  induction es as [|[k1 v1] es IH]; simpl; auto.
  intros d k H. rewrite IH by tauto. apply get_set_other. intuition congruence.
Qed.

Lemma register_fixed es : forall d,
  (forall k, In k (map fst es) -> Dict.get (register es d) k = Dict.get d k) ->
  (forall k, In k (map fst es) -> Dict.mem d k = true) ->
  register es d = d.
Proof.
  induction es as [|[k1 v1] es IH]; simpl; auto.
  intros d Hget Hmem.
  destruct (in_dec string_dec k1 (map fst es)) as [Hin|Hnin].
  - rewrite register_set_absorbed by auto.
    apply IH; auto. intros k Hk.
    rewrite <- Hget by auto. now rewrite register_set_absorbed by auto.
  - assert (E : Dict.get d k1 = Some v1).
    { rewrite <- Hget by auto. rewrite get_register_other by auto.
      apply get_set_same. }
    rewrite set_same by auto. apply IH; auto.
    intros k Hk. rewrite <- (Hget k) by auto. now rewrite set_same by auto.
Qed.

Lemma register_app es1 es2 d :
  register (es1 ++ es2)%list d = register es2 (register es1 d).
Proof. apply fold_left_app. Qed.

Lemma get_register_key es : forall d d' k,
  In k (map fst es) ->
  Dict.get (register es d) k = Dict.get (register es d') k.
Proof.
  induction es as [|[k1 v1] es IH]; simpl; [tauto|].
  intros d d' k Hk.
  destruct (in_dec string_dec k (map fst es)) as [Hin|Hnin].
  - now apply IH.
  - destruct Hk as [->|Hk]; [|contradiction].
    rewrite !get_register_other by auto. now rewrite !get_set_same.
Qed.

Lemma register_idempotent es d : register es (register es d) = register es d.
Proof.
  apply register_fixed.
  - intros k Hk. now apply get_register_key.
  - intros k Hk. now apply mem_register_key.
Qed.

Lemma try_except_else_Ret {A B} (m : M A) (h : M B) (k : A -> M B) e s a s' :
  m s = (Ret a, s') -> try_except_else m e h k s = k a s'.
Proof. intros H. unfold try_except_else. now rewrite H. Qed.

Lemma get_name_plain optz iface props name s :
  use_media_name optz = false ->
  plain_name iface props = Some name ->
  _get_name optz iface props s = (Ret name, s).
Proof.
  intros Hm. unfold plain_name, _get_name, media_name. rewrite Hm.
  destruct (iface =? "Stream").
  - destruct (Dict.get props "application.name"); [|discriminate].
    intros H. injection H as <-. reflexivity.
  - destruct (iface =? "Device"); [|discriminate].
    destruct (Dict.get props "alsa.id").
    + intros H. injection H as <-. reflexivity.
    + destruct (Dict.get props "device.api"); [|discriminate].
      destruct (Dict.get props "device.string"); [|discriminate].
      intros H. injection H as <-. reflexivity.
Qed.

Lemma add_plain optz srv (R : M unit) path iface name s :
  use_media_name optz = false ->
  named srv iface path name ->
  exists s',
    _dbus_failsafe R (add_body optz srv path iface) s = (Ret (Some name), s')
    /\ items s' = Dict.set (items s) name (iface, path)
    /\ max_key_len s' = Nat.max (max_key_len s) (String.length name).
Proof.
  intros Hm Hn. destruct (Hn (tick s)) as (props & Hp & Hname).
  assert (E : exists s',
             add_body optz srv path iface s = (Ret name, s')
             /\ items s' = Dict.set (items s) name (iface, path)
             /\ max_key_len s' = Nat.max (max_key_len s) (String.length name)).
  { unfold add_body.
    erewrite bind_Ret by (unfold property_list, dbus_call; rewrite Hp; reflexivity).
    erewrite bind_Ret by (apply get_name_plain; eauto).
    erewrite bind_Ret by reflexivity.
    rewrite Hm. cbv beta iota delta [andb].
    erewrite bind_Ret by reflexivity.
    erewrite bind_Ret by reflexivity.
    erewrite bind_Ret by reflexivity.
    cbn [max_key_len with_items interacted].
    destruct (max_key_len s <? String.length name)%nat eqn:L.
    - apply Nat.ltb_lt in L.
      erewrite bind_Ret by reflexivity. eexists. split; [reflexivity|].
      split; [reflexivity|]. simpl. lia.
    - apply Nat.ltb_ge in L.
      erewrite bind_Ret by reflexivity. eexists. split; [reflexivity|].
      split; [reflexivity|]. simpl. lia. }
  destruct E as (s' & E & Hi & Hl). exists s'. split; auto.
  now apply failsafe_Ret.
Qed.

Lemma mapM_add_plain optz srv (R : M unit) iface named_paths :
  use_media_name optz = false ->
  Forall (fun pn => named srv iface (fst pn) (snd pn)) named_paths ->
  forall s, exists s',
    mapM (fun path => _dbus_failsafe R (add_body optz srv path iface))
         (map fst named_paths) s
    = (Ret (map (fun pn => Some (snd pn)) named_paths), s')
    /\ items s' = register (entries iface named_paths) (items s)
    /\ max_key_len s' = longest (map snd named_paths) (max_key_len s).
Proof.
  intros Hm. induction 1 as [|[p nm] l Hn _ IH]; intros s; simpl.
  - exists s. repeat split.
  - destruct (add_plain optz srv R p iface nm s Hm Hn) as (s1 & E1 & Hi1 & Hl1).
    destruct (IH s1) as (s2 & E2 & Hi2 & Hl2).
    exists s2. split; [|split].
    + erewrite bind_Ret by exact E1.
      erewrite bind_Ret by exact E2. reflexivity.
    + rewrite Hi2, Hi1. reflexivity.
    + rewrite Hl2, Hl1. reflexivity.
Qed.

Lemma difference_nil names d :
  (forall k, In (Some k) names -> Dict.mem d k = true) ->
  ~ In None names ->
  difference names d = [].
Proof.
  intros H N. induction names as [|[k|] names IH]; simpl; auto.
  - rewrite H by (now left). simpl. apply IH.
    + intros k' Hk'. apply H. now right.
    + intros Hn. apply N. now right.
  - exfalso. apply N. now left.
Qed.

Lemma refresh_plain optz srv fuel streams sinks :
  use_media_name optz = false ->
  (forall n, r_core_get srv n "PlaybackStreams" = Some (map fst streams)) ->
  (forall n, r_core_get srv n "Sinks" = Some (map fst sinks)) ->
  Forall (fun pn => named srv "Stream" (fst pn) (snd pn)) streams ->
  Forall (fun pn => named srv "Device" (fst pn) (snd pn)) sinks ->
  forall s, exists s',
    refresh optz srv (S fuel) true s = (Ret tt, s')
    /\ items s' = register (entries "Stream" streams ++ entries "Device" sinks)%list
                           (items s)
    /\ max_key_len s' = longest (map snd streams ++ map snd sinks)%list 0.
Proof.
  intros Hm Hst Hsk Fst Fsk s.
  set (sa := interacted [ECoreGet "PlaybackStreams"]
               (with_max_key_len 0 (with_caches [] [] s))).
  destruct (mapM_add_plain optz srv (refresh optz srv fuel true) "Stream"
              streams Hm Fst sa) as (sb & Eb & Hib & Hlb).
  destruct (mapM_add_plain optz srv (refresh optz srv fuel true) "Device"
              sinks Hm Fsk (interacted [ECoreGet "Sinks"] sb))
    as (sd & Ed & Hid & Hld).
  cbn [items interacted max_key_len] in Hid, Hld.
  assert (Hia : items sa = items s) by reflexivity.
  assert (Hla : max_key_len sa = 0) by reflexivity.
  exists sd. split; [|split].
  - cbn [refresh].
    erewrite bind_Ret by reflexivity.
    erewrite bind_Ret by reflexivity.
    erewrite bind_Ret by reflexivity.
    erewrite try_except_else_Ret.
    2:{ erewrite bind_Ret
          by (unfold core_get, dbus_call; simpl; rewrite Hst; reflexivity).
        erewrite bind_Ret by exact Eb.
        erewrite bind_Ret
          by (unfold core_get, dbus_call; rewrite Hsk; reflexivity).
        erewrite bind_Ret by exact Ed. reflexivity. }
    cbv beta iota.
    erewrite bind_Ret by reflexivity.
    rewrite difference_nil; [reflexivity| |].
    + intros k Hk. apply in_map_iff in Hk. destruct Hk as ([p nm] & Hk & Hin).
      simpl in Hk. injection Hk as ->.
      rewrite Hid. apply mem_register. rewrite Hib. apply mem_register_key.
      unfold entries. rewrite map_map. simpl.
      apply in_map_iff. exists (p, k). auto.
    + intros Hn. apply in_map_iff in Hn. destruct Hn as (x & Hx & _). discriminate.
  - rewrite Hid, Hib, Hia. now rewrite register_app.
  - rewrite Hld, Hlb, Hla.
    unfold longest. now rewrite map_app, fold_left_app.
Qed.

Lemma named_paths_exist srv iface paths :
  (forall p, In p paths -> exists name, named srv iface p name) ->
  exists named_paths,
    map fst named_paths = paths
    /\ Forall (fun pn => named srv iface (fst pn) (snd pn)) named_paths.
Proof.
  induction paths as [|p paths IH]; intros H.
  - exists []. split; constructor.
  - destruct (H p (or_introl eq_refl)) as [nm Hn].
    destruct IH as (l & El & Fl); [intros q Hq; apply H; now right|].
    exists ((p, nm) :: l). split; [simpl; now rewrite El | now constructor].
Qed.

(** C5, as the code has it: with names not taken from [media.name], on a
    server that lists the same streams and sinks at every call and
    describes each stream with an [application.name] and each sink with an
    [alsa.id] or a [device.api] and [device.string] (so that no name needs
    the counter), a soft refresh returns, and a second one returns leaving
    the registry and the longest-name length as the first left them. *)
Theorem soft_refresh_idempotent_for_plain_names :
  forall optz srv fuel streams sinks s,
    use_media_name optz = false ->
    (forall n, r_core_get srv n "PlaybackStreams" = Some streams) ->
    (forall n, r_core_get srv n "Sinks" = Some sinks) ->
    (forall p, In p streams -> exists name, named srv "Stream" p name) ->
    (forall p, In p sinks -> exists name, named srv "Device" p name) ->
    exists s1 s2,
      refresh optz srv (S fuel) true s = (Ret tt, s1)
      /\ refresh optz srv (S fuel) true s1 = (Ret tt, s2)
      /\ items s2 = items s1
      /\ max_key_len s2 = max_key_len s1.
Proof.
  intros optz srv fuel streams sinks s Hm Hst Hsk Nst Nsk.
  destruct (named_paths_exist _ _ _ Nst) as (ps & <- & Fst).
  destruct (named_paths_exist _ _ _ Nsk) as (pk & <- & Fsk).
  destruct (refresh_plain optz srv fuel ps pk Hm Hst Hsk Fst Fsk s)
    as (s1 & E1 & Hi1 & Hl1).
  destruct (refresh_plain optz srv fuel ps pk Hm Hst Hsk Fst Fsk s1)
    as (s2 & E2 & Hi2 & Hl2).
  exists s1, s2. repeat split; auto.
  - rewrite Hi2, Hi1. apply register_idempotent.
  - congruence.
Qed.

(** C5 fails as stated: a stream without [application.name] is named with
    the counter, so a second soft refresh of an unchanged server registers
    it once more under a new name; and when names are taken from
    [media.name], the second refresh finds the name taken and suffixes
    both. *)
Lemma soft_refresh_renames_synthetic_stream :
  let srv := Sample.server ["/stream/song"] [] in
  let r1 := refresh Sample.by_application srv 1 true (new_menu None true) in
  let r2 := refresh Sample.by_application srv 1 true (snd r1) in
  let m1 := refresh Sample.by_media_name srv 1 true (new_menu None true) in
  let m2 := refresh Sample.by_media_name srv 1 true (snd m1) in
  (fst r1 = Ret tt /\ fst r2 = Ret tt
   /\ items (snd r1) = [("song #0", ("Stream", "/stream/song"))]
   /\ items (snd r2) = [("song #0", ("Stream", "/stream/song"));
                        ("song #1", ("Stream", "/stream/song"))]
   /\ items (snd r2) <> items (snd r1))
  /\ (fst m1 = Ret tt /\ fst m2 = Ret tt
      /\ items (snd m1) = [("song", ("Stream", "/stream/song"))]
      /\ items (snd m2) = [("song #0", ("Stream", "/stream/song"));
                           ("song #1", ("Stream", "/stream/song"))]
      /\ items (snd m2) <> items (snd m1)).
Proof. vm_compute. repeat split; discriminate. Qed.

Lemma soft_refresh_idempotent_for_plain_names_witness :
  exists s1 s2,
    refresh Sample.by_application (Sample.server ["/stream/app"] ["/sink/0"])
            1 true (new_menu None true) = (Ret tt, s1)
    /\ refresh Sample.by_application (Sample.server ["/stream/app"] ["/sink/0"])
               1 true s1 = (Ret tt, s2)
    /\ items s2 = items s1
    /\ max_key_len s2 = max_key_len s1.
Proof.
  apply (soft_refresh_idempotent_for_plain_names
           Sample.by_application (Sample.server ["/stream/app"] ["/sink/0"])
           0 ["/stream/app"] ["/sink/0"] (new_menu None true)).
  - reflexivity.
  - reflexivity.
  - reflexivity.
  - intros p [<-|[]]. exists "App (u@h:1)". intros n.
    eexists. split; reflexivity.
  - intros p [<-|[]]. exists "Speakers". intros n.
    eexists. split; reflexivity.
Defined.

(** ** The properties on the sample server *)

Lemma remove_unknown_path_unchanged_witness :
  remove Sample.by_application (Sample.server [] ["/sink/0"]) 1 "/sink/7"
         (Sample.menu_with "Speakers" ("Device", "/sink/0"))
  = (Ret (Some tt), Sample.menu_with "Speakers" ("Device", "/sink/0")).
Proof.
  apply remove_unknown_path_unchanged.
  intros name e [H|[]]. injection H as _ <-. discriminate.
Defined.

Lemma iteration_sorted_and_cyclic_witness :
  iter Sample.three false = ["Speakers"; "App (u@h:1)"; "song #0"]
  /\ next_key Sample.three "Speakers" = "App (u@h:1)"
  /\ next_key Sample.three "song #0" = "Speakers"
  /\ prev_key Sample.three "Speakers" = "song #0".
Proof.
  destruct (iteration_sorted_and_cyclic Sample.three) as (_ & _ & _ & _ & H & _).
  { unfold Sample.three. simpl. repeat constructor; simpl; intuition discriminate. }
  destruct (H 0) as [Hnext Hprev]; [simpl; lia|].
  destruct (H 2) as [Hwrap _]; [simpl; lia|].
  split; [reflexivity|]. split; [exact Hnext|]. split; [exact Hwrap | exact Hprev].
Defined.

Lemma names_stay_unique_witness :
  unique_names
    (run_operations Sample.by_media_name
       (Sample.server ["/stream/song"] ["/sink/0"]) Sample.round_half_up 2
       Sample.session (new_menu None true)).
Proof. apply names_stay_unique. constructor. Defined.

(** * Further properties *)

(** ** Moving the highlight *)

Lemma registered_index (d : Dict.t entry) x :
  In x (Dict.keys d) ->
  exists i, i < List.length (iter d false) /\ nth i (iter d false) "" = x.
Proof.
  intros H. apply In_nth.
  eapply Permutation_in; [symmetry; apply iter_perm | exact H].
Qed.

(** X1: on a registry with distinct names, [prev_key] undoes [next_key]
    and [next_key] undoes [prev_key] at every registered name, and both
    answer a registered name. *)
Theorem next_prev_key_inverse :
  forall (d : Dict.t entry) x,
    NoDup (Dict.keys d) -> In x (Dict.keys d) ->
    prev_key d (next_key d x) = x
    /\ next_key d (prev_key d x) = x
    /\ In (next_key d x) (Dict.keys d)
    /\ In (prev_key d x) (Dict.keys d).
Proof.
  intros d x N Hx.
  destruct (registered_index d x Hx) as (i & Hi & <-).
  remember (iter d false) as l eqn:El.
  remember (List.length l) as n eqn:En.
  assert (Hn : n <> 0) by lia.
  assert (Hin : forall j, j < n -> In (nth j l "") (Dict.keys d)).
  { intros j Hj. eapply Permutation_in; [apply iter_perm|].
    rewrite <- El. apply nth_In. lia. }
  assert (B1 : (i + 1) mod n < n) by now apply Nat.mod_upper_bound.
  assert (B2 : (i + n - 1) mod n < n) by now apply Nat.mod_upper_bound.
  assert (Nx : next_key d (nth i l "") = nth ((i + 1) mod n) l "").
  { subst l n. now apply next_key_nth. }
  assert (Px : prev_key d (nth i l "") = nth ((i + n - 1) mod n) l "").
  { subst l n. now apply prev_key_nth. }
  assert (Nj : forall j, j < n ->
               next_key d (nth j l "") = nth ((j + 1) mod n) l "").
  { intros j Hj. subst l n. now apply next_key_nth. }
  assert (Pj : forall j, j < n ->
               prev_key d (nth j l "") = nth ((j + n - 1) mod n) l "").
  { intros j Hj. subst l n. now apply prev_key_nth. }
  rewrite Nx, Px, Pj, Nj by auto.
  repeat split; auto.
  - f_equal. destruct (Nat.eq_dec (i + 1) n) as [E|E].
    + rewrite E, Nat.Div0.mod_same. replace (0 + n - 1) with i by lia.
      apply Nat.mod_small. lia.
    + rewrite (Nat.mod_small (i + 1)) by lia.
      replace (i + 1 + n - 1) with (i + 1 * n) by lia.
      rewrite Nat.Div0.mod_add. apply Nat.mod_small. lia.
  - f_equal. destruct i as [|i].
    + replace (0 + n - 1) with (n - 1) by lia.
      rewrite (Nat.mod_small (n - 1)) by lia.
      replace (n - 1 + 1) with n by lia. apply Nat.Div0.mod_same.
    + replace (S i + n - 1) with (i + 1 * n) by lia.
      rewrite Nat.Div0.mod_add. rewrite (Nat.mod_small i) by lia.
      rewrite Nat.mod_small; lia.
Qed.

Lemma dropwhile_absent (l : list string) item :
  ~ In item l -> dropwhile (fun k => negb (k =? item)) l = [].
Proof.
  induction l as [|x l IH]; simpl; auto.
  intros H. destruct (String.eqb_spec x item) as [->|Hne]; simpl.
  - exfalso. apply H. now left.
  - apply IH. tauto.
Qed.

(** X2: for an item that is not registered (a stale highlight, or ['']),
    on a registry that is not empty, [next_key] answers the second name of
    the iteration, not the first, and [prev_key] the last but one; with a
    single name both answer it. Both answer a registered name. *)
Theorem next_prev_key_of_stranger :
  forall (d : Dict.t entry) item,
    NoDup (Dict.keys d) -> ~ In item (Dict.keys d) -> d <> [] ->
    let names := iter d false in
    let n := List.length names in
    next_key d item = nth (1 mod n) names ""
    /\ prev_key d item = nth ((n + n - 2) mod n) names ""
    /\ In (next_key d item) (Dict.keys d)
    /\ In (prev_key d item) (Dict.keys d).
Proof.
  intros d item N Hx Hd names n.
  assert (Hl : Permutation names (Dict.keys d)) by apply iter_perm.
  assert (Hn : n <> 0).
  { unfold n. rewrite (Permutation_length Hl). unfold Dict.keys.
    rewrite length_map. destruct d; [congruence | simpl; lia]. }
  assert (Hxn : ~ In item names).
  { intros H. apply Hx. eapply Permutation_in; eauto. }
  assert (E1 : next_key d item = nth (1 mod n) names "").
  { unfold next_key. fold names. rewrite dropwhile_absent by auto. simpl.
    destruct (Nat.eq_dec n 1) as [E|E].
    - rewrite E. simpl. destruct names as [|a [|b l]]; simpl in *; try lia.
      reflexivity.
    - rewrite Nat.mod_small by lia. apply app_nth1. fold n. lia. }
  assert (E2 : prev_key d item = nth ((n + n - 2) mod n) names "").
  { unfold prev_key. rewrite reversed_is_rev by auto. fold names.
    rewrite dropwhile_absent by (now rewrite <- in_rev). simpl.
    destruct (Nat.eq_dec n 1) as [E|E].
    - rewrite E. simpl. destruct names as [|a [|b l]]; simpl in *; try lia.
      reflexivity.
    - rewrite app_nth1 by (rewrite length_rev; fold n; lia).
      rewrite rev_nth by (fold n; lia). fold n. f_equal.
      replace (n + n - 2) with (n - 2 + 1 * n) by lia.
      rewrite Nat.Div0.mod_add. rewrite Nat.mod_small; lia. }
  rewrite E1, E2. repeat split; auto;
    (eapply Permutation_in; [exact Hl|]; apply nth_In; fold n;
     now apply Nat.mod_upper_bound).
Qed.

(** ** Removing an entity *)

Lemma find_path_some (d : Dict.t entry) path name :
  find_path d path = Some name ->
  exists e, In (name, e) d /\ object_path e = path /\ Dict.mem d name = true.
Proof.
  induction d as [|[k e] d IH]; simpl; [discriminate|].
  destruct (String.eqb_spec (object_path e) path) as [E|E].
  - intros H. injection H as <-. exists e. repeat split; auto.
    unfold Dict.mem. simpl. now rewrite String.eqb_refl.
  - intros H. destruct (IH H) as (e' & Hin & Hp & Hm).
    exists e'. repeat split; auto.
    unfold Dict.mem in *. simpl. destruct (k =? name); auto.
Qed.

Lemma find_path_exists (d : Dict.t entry) path name e :
  In (name, e) d -> object_path e = path ->
  exists name', find_path d path = Some name'.
Proof.
  induction d as [|[k e'] d IH]; simpl; [tauto|].
  intros [H|H] Hp.
  - injection H as -> ->. apply String.eqb_eq in Hp. rewrite Hp. eauto.
  - destruct (object_path e' =? path); eauto.
Qed.

Lemma delitem_present (d : Dict.t entry) name s :
  items s = d -> Dict.mem d name = true ->
  delitem name s = (Ret tt, with_items (Dict.del d name) s).
Proof.
  intros <- H. unfold delitem. erewrite bind_Ret by reflexivity.
  now rewrite H.
Qed.

(** What [remove] does to the state. *)
Lemma remove_eq optz srv fuel path s :
  remove optz srv fuel path s
  = (Ret (Some tt),
     match find_path (items s) path with
     | None => s
     | Some name =>
         let s1 := with_items (Dict.del (items s) name) s in
         if (String.length name =? max_key_len s)%nat then
           with_max_key_len
             match items s1 with
             | [] => 0
             | _ => list_max (map String.length (iter (items s1) false))
             end s1
         else s1
     end).
Proof.
  unfold remove. apply failsafe_Ret. unfold remove_body.
  erewrite bind_Ret by reflexivity.
  destruct (find_path (items s) path) as [name|] eqn:F; [|reflexivity].
  destruct (find_path_some _ _ _ F) as (e & _ & _ & Hm).
  erewrite bind_Ret by (now apply delitem_present).
  erewrite bind_Ret by reflexivity.
  cbn [max_key_len with_items].
  destruct (String.length name =? max_key_len s)%nat; [|reflexivity].
  erewrite bind_Ret by reflexivity. reflexivity.
Qed.

(** X3: [remove] never raises and never calls the server. When an entity
    with the path is registered (names being distinct), exactly one such
    entity is deleted: its name is no longer a key, every other name keeps
    its entry, and the registry is one item shorter. *)
Theorem remove_deletes_one_entity :
  forall optz srv fuel path s,
    unique_names s ->
    let r := remove optz srv fuel path s in
    fst r = Ret (Some tt)
    /\ trace (snd r) = trace s /\ tick (snd r) = tick s
    /\ _volume_val_cache (snd r) = _volume_val_cache s
    /\ (forall name0 e0,
          In (name0, e0) (items s) -> object_path e0 = path ->
          exists name e,
            In (name, e) (items s) /\ object_path e = path
            /\ items (snd r) = Dict.del (items s) name
            /\ Dict.get (items (snd r)) name = None
            /\ (forall k, k <> name ->
                  Dict.get (items (snd r)) k = Dict.get (items s) k)
            /\ List.length (items (snd r)) + 1 = List.length (items s)).
Proof.
  intros optz srv fuel path s N r. subst r. rewrite remove_eq. simpl.
  split; [reflexivity|].
  destruct (find_path (items s) path) as [name|] eqn:F.
  - destruct (find_path_some _ _ _ F) as (e & Hin & Hp & Hm).
    assert (Hi : forall s', items (if (String.length name =? max_key_len s)%nat
                            then with_max_key_len
                                   match Dict.del (items s) name with
                                   | [] => 0
                                   | _ :: _ => list_max (map String.length
                                                 (iter (Dict.del (items s) name) false))
                                   end s'
                            else s') = items s').
    { intros s'. now destruct (String.length name =? max_key_len s)%nat. }
    repeat split; try (now destruct (String.length name =? max_key_len s)%nat).
    intros _ _ _ _. exists name, e. rewrite Hi. simpl.
    repeat split; auto.
    + now apply get_del_same.
    + intros k Hk. now apply get_del_other.
    + clear - Hm. unfold Dict.mem in Hm.
      induction (items s) as [|[k v] d IH]; simpl in *; [discriminate|].
      destruct (k =? name); simpl; [lia|]. rewrite <- IH by auto. lia.
  - repeat split; auto.
    intros name0 e0 Hin Hp.
    destruct (find_path_exists _ _ _ _ Hin Hp) as [n' Hn']. congruence.
Qed.

Lemma list_max_perm l l' : Permutation l l' -> list_max l = list_max l'.
Proof. induction 1; simpl; lia. Qed.

Lemma list_max_keys_del (d : Dict.t entry) name :
  Dict.mem d name = true ->
  list_max (map String.length (Dict.keys d))
  = Nat.max (String.length name)
            (list_max (map String.length (Dict.keys (Dict.del d name)))).
Proof.
  unfold Dict.mem. induction d as [|[k v] d IH]; simpl; [discriminate|].
  destruct (String.eqb_spec k name) as [->|Hne]; simpl; auto.
  intros H. rewrite IH by auto. lia.
Qed.

Lemma width_after_iter (d : Dict.t entry) :
  match d with
  | [] => 0
  | _ => list_max (map String.length (iter d false))
  end = list_max (map String.length (Dict.keys d)).
Proof.
  destruct d as [|x d]; [reflexivity|].
  apply list_max_perm, Permutation_map, iter_perm.
Qed.

(** What [add] does once the name is derived, when names are not taken
    from [media.name]. *)
Lemma add_body_eq optz srv path iface s :
  use_media_name optz = false ->
  add_body optz srv path iface s
  = match r_property_list srv (tick s) path iface with
    | None => (Raise DBusException, interacted [EPropertyList path iface] s)
    | Some props =>
        match _get_name optz iface props
                (interacted [EPropertyList path iface] s) with
        | (Raise e, s1) => (Raise e, s1)
        | (Ret name, s1) =>
            let s2 := with_items (Dict.set (items s1) name (iface, path)) s1 in
            (Ret name,
             if (max_key_len s1 <? String.length name)%nat
             then with_max_key_len (String.length name) s2 else s2)
        end
    end.
Proof.
  intros Hm. unfold add_body.
  destruct (r_property_list srv (tick s) path iface) as [props|] eqn:P.
  2:{ erewrite bind_Raise; [reflexivity|].
      unfold property_list, dbus_call. now rewrite P. }
  erewrite bind_Ret by (unfold property_list, dbus_call; rewrite P; reflexivity).
  destruct (_get_name optz iface props _) as [[name|e] s1] eqn:E.
  - erewrite bind_Ret by exact E.
    erewrite bind_Ret by reflexivity. rewrite Hm. cbv beta iota delta [andb].
    erewrite bind_Ret by reflexivity.
    erewrite bind_Ret by reflexivity.
    erewrite bind_Ret by reflexivity.
    cbn [max_key_len with_items].
    destruct (max_key_len s1 <? String.length name)%nat;
      erewrite bind_Ret by reflexivity; reflexivity.
  - now erewrite bind_Raise by exact E.
Qed.

Lemma get_name_raises_key_error optz iface props s e s' :
  _get_name optz iface props s = (Raise e, s') -> e = KeyError.
Proof.
  unfold _get_name, getitem, _get_name_unique, next_unique_idx, bind, ret, raise.
  destruct (iface =? "Stream").
  - destruct (media_name optz props); [congruence|].
    destruct (Dict.get props "application.name"); [congruence|].
    destruct (Dict.get props "media.name"); congruence.
  - destruct (iface =? "Device"); [|congruence].
    destruct (Dict.get props "alsa.id"); [congruence|].
    destruct (Dict.get props "device.api"), (Dict.get props "device.string"),
      (Dict.get props "device.description"); congruence.
Qed.

Lemma failsafe_other {A} (r : M unit) (m : M A) s e s' :
  m s = (Raise e, s') -> e <> DBusException ->
  _dbus_failsafe r m s = (Raise e, s').
Proof.
  intros H He. unfold _dbus_failsafe, try_except.
  erewrite bind_Raise by exact H. destruct e; simpl; congruence.
Qed.

Lemma add_body_width_exact optz srv path iface s :
  use_media_name optz = false -> width_exact s ->
  width_exact (snd (add_body optz srv path iface s)).
Proof.
  intros Hm W. unfold width_exact in *.
rewrite add_body_eq by auto.
  destruct (r_property_list srv (tick s) path iface) as [props|]; [|exact W].
  pose proof (get_name_only_counter optz iface props
                (interacted [EPropertyList path iface] s)) as E.
  destruct (_get_name optz iface props _) as [[name|e] s1]; simpl in E;
    rewrite E; [|exact W].
  cbn [snd]. cbn [max_key_len items with_unique_idx interacted with_items].
  assert (K : list_max (map String.length
                 (Dict.keys (Dict.set (items s) name (iface, path))))
              = Nat.max (max_key_len s) (String.length name)).
  { rewrite keys_set. destruct (Dict.mem (items s) name) eqn:M.
    - rewrite W. apply mem_true_iff in M.
      assert (L : String.length name
                  <= list_max (map String.length (Dict.keys (items s)))).
      { pose proof (list_max_le (map String.length (Dict.keys (items s)))
                      (list_max (map String.length (Dict.keys (items s)))))
          as [H _].
        specialize (H (Nat.le_refl _)). rewrite Forall_forall in H.
        apply H. now apply in_map. }
      lia.
    - rewrite map_app, list_max_app, W. simpl. lia. }
  destruct (max_key_len s <? String.length name)%nat eqn:L; simpl; rewrite K.
  + apply Nat.ltb_lt in L. lia.
  + apply Nat.ltb_ge in L. lia.
Qed.

(** X4: when names are not taken from [media.name], [add] (on a server
    that answers the property read) and [remove] keep [max_key_len] equal
    to the length of the longest registered name. *)
Theorem add_remove_keep_width_exact :
  forall optz srv fuel path iface s,
    use_media_name optz = false ->
    width_exact s ->
    (r_property_list srv (tick s) path iface <> None ->
     width_exact (snd (add optz srv fuel path iface s)))
    /\ width_exact (snd (remove optz srv fuel path s)).
Proof.
  intros optz srv fuel path iface s Hm W. split.
  - intros Hp. pose proof (add_body_width_exact optz srv path iface s Hm W) as B.
    unfold add.
    destruct (add_body optz srv path iface s) as [[name|e] s1] eqn:E.
    + now erewrite failsafe_Ret by exact E.
    + erewrite failsafe_other; [exact B | exact E |].
      rewrite add_body_eq in E by auto.
      destruct (r_property_list srv (tick s) path iface) as [props|];
        [|congruence].
      destruct (_get_name optz iface props _) as [[name|e'] s2] eqn:G;
        [discriminate|].
      injection E as -> _. apply get_name_raises_key_error in G.
      subst. discriminate.
  - unfold width_exact in *. rewrite remove_eq. cbn [snd].
    destruct (find_path (items s) path) as [name|] eqn:F; [|exact W].
    destruct (find_path_some _ _ _ F) as (e & _ & _ & M).
    pose proof (list_max_keys_del _ _ M) as D.
    cbv zeta. cbn [items with_items].
    destruct (String.length name =? max_key_len s)%nat eqn:L; simpl.
    + apply width_after_iter.
    + apply Nat.eqb_neq in L. lia.
Qed.

(** ** Draining the queue *)

Lemma add_keeps_updates optz srv fuel path iface s :
  updates (snd (add optz srv fuel path iface s)) = updates s.
Proof.
  apply (preserves_add (fun s' => updates s' = updates s)); auto.
Qed.

Lemma remove_keeps_updates optz srv fuel path s :
  updates (snd (remove optz srv fuel path s)) = updates s.
Proof. now rewrite remove_eq; simpl; destruct (find_path _ _);
  [destruct (_ =? _)%nat|]. Qed.

Lemma dispatch_keeps_updates optz srv fuel action path s :
  updates (snd (dispatch optz srv fuel action path s)) = updates s.
Proof.
  unfold dispatch.
  repeat match goal with |- context [if ?b then _ else _] => destruct b end;
    try reflexivity; unfold bind;
    match goal with
    | |- context [add ?o ?v ?f ?p ?i ?s] =>
        pose proof (add_keeps_updates o v f p i s) as H;
        destruct (add o v f p i s) as [[?|?] ?]; exact H
    | |- context [remove ?o ?v ?f ?p ?s] =>
        pose proof (remove_keeps_updates o v f p s) as H;
        destruct (remove o v f p s) as [[?|?] ?]; exact H
    end.
Qed.

Lemma update_loop_cons optz srv fuel record rest s :
  update_loop optz srv fuel (record :: rest) s
  = match record with
    | [action; path] =>
        (dispatch optz srv fuel action path ;; update_loop optz srv fuel rest)
          (with_updates rest s)
    | _ => (Raise ValueError, with_updates rest s)
    end.
Proof.
  cbn [update_loop]. erewrite bind_Ret by reflexivity.
  destruct record as [|a [|b [|c l]]]; reflexivity.
Qed.

Lemma update_loop_queue optz srv fuel queue : forall s,
  queue <> [] ->
  let r := update_loop optz srv fuel queue s in
  exists k, 1 <= k <= List.length queue
            /\ updates (snd r) = skipn k queue
            /\ (fst r = Ret tt -> k = List.length queue).
Proof.
  induction queue as [|record rest IH]; intros s Hq r; [congruence|].
  subst r. rewrite update_loop_cons.
  assert (V : exists k, 1 <= k <= List.length (record :: rest)
                /\ updates (snd (@Raise unit ValueError, with_updates rest s))
                   = skipn k (record :: rest)
                /\ (fst (@Raise unit ValueError, with_updates rest s) = Ret tt
                    -> k = List.length (record :: rest))).
  { exists 1. simpl. repeat split; try lia. discriminate. }
  destruct record as [|action [|path [|c l]]]; try exact V.
  pose proof (dispatch_keeps_updates optz srv fuel action path
                (with_updates rest s)) as D.
  unfold bind.
  destruct (dispatch optz srv fuel action path (with_updates rest s))
    as [[[]|e] s1]; simpl in D.
  - destruct rest as [|r2 rest'].
    + exists 1. simpl. repeat split; auto; lia.
    + destruct (IH s1) as (k & Hk & Hu & Hr); [discriminate|].
      exists (S k). simpl in *. repeat split; auto; try lia.
  - exists 1. simpl. repeat split; auto; try lia. discriminate.
Qed.

(** X5: [update] takes each record off the queue before acting on it:
    when it returns the queue is empty, and when it raises at least the
    offending record is gone and the rest is kept in order. A record that
    is not an [(action, path)] pair raises [ValueError], an unknown action
    [KeyError], each leaving the records behind it queued. *)
Theorem update_consumes_queue :
  forall optz srv fuel s,
    let r := update optz srv fuel s in
    (fst r = Ret tt -> updates (snd r) = [])
    /\ (exists k, updates (snd r) = skipn k (updates s)
                  /\ (updates s <> [] -> 1 <= k))
    /\ (forall record rest,
          updates s = record :: rest -> List.length record <> 2 ->
          r = (Raise ValueError, with_updates rest s))
    /\ (forall action path rest,
          updates s = [action; path] :: rest ->
          ~ In action ["+"; "-"; "^"; "v"] ->
          r = (Raise KeyError, with_updates rest s)).
Proof.
  intros optz srv fuel s r. subst r. unfold update.
  erewrite bind_Ret by reflexivity.
  destruct (updates s) as [|record rest] eqn:U.
  - simpl. rewrite U. repeat split; auto.
    + exists 0. split; [reflexivity | congruence].
    + discriminate.
    + discriminate.
  - destruct (update_loop_queue optz srv fuel (record :: rest) s)
      as (k & Hk & Hu & Hr); [discriminate|].
    repeat split.
    + intros H. rewrite Hu, (Hr H). apply skipn_all.
    + exists k. split; [exact Hu | lia].
    + intros record' rest' E Hl. injection E as <- <-.
      rewrite update_loop_cons.
      destruct record as [|a [|b [|c l]]]; simpl in Hl; try reflexivity. lia.
    + intros action path rest' E Ha. injection E as -> <-.
      rewrite update_loop_cons. simpl in Ha.
      erewrite bind_Raise; [reflexivity|]. unfold dispatch.
      destruct (String.eqb_spec action "+"); [exfalso; apply Ha; subst; auto 6|].
      destruct (String.eqb_spec action "-"); [exfalso; apply Ha; subst; auto 6|].
      destruct (String.eqb_spec action "^"); [exfalso; apply Ha; subst; auto 6|].
      destruct (String.eqb_spec action "v"); [exfalso; apply Ha; subst; auto 6|]. reflexivity.
Qed.

Lemma find_path_set (d : Dict.t entry) name iface path :
  (forall k e, In (k, e) d -> object_path e <> path) ->
  find_path (Dict.set d name (iface, path)) path = Some name.
Proof.
  induction d as [|[k e] d IH]; simpl; intros H.
  - now rewrite String.eqb_refl.
  - destruct (String.eqb_spec k name) as [->|Hne]; simpl.
    + now rewrite String.eqb_refl.
    + destruct (String.eqb_spec (object_path e) path) as [E|E].
      * exfalso. eapply H; eauto.
      * apply IH. intros k' e' Hin. eapply H; eauto.
Qed.

Lemma in_del_set {V} (d : Dict.t V) k v x :
  In x (Dict.del (Dict.set d k v) k) -> In x d.
Proof.
  induction d as [|[k0 v0] d IH]; simpl.
  - rewrite String.eqb_refl. tauto.
  - destruct (k0 =? k) eqn:E; simpl; rewrite E; simpl; tauto.
Qed.

Lemma del_set_absent {V} (d : Dict.t V) k v :
  Dict.mem d k = false -> Dict.del (Dict.set d k v) k = d.
Proof.
  unfold Dict.mem. induction d as [|[k0 v0] d IH]; simpl.
  - now rewrite String.eqb_refl.
  - destruct (k0 =? k) eqn:E; [discriminate|]. simpl. rewrite E.
    intros H. now rewrite IH.
Qed.

(** X6: draining ['+' path] then ['-' path], for a path no registered
    entity has and a stream named without the counter, returns with the
    queue empty and no entity with that path registered. The registry is
    what it was when the name was new; an entry that had the same name is
    overwritten by the addition and gone after the removal. *)
Theorem stream_added_then_removed :
  forall optz srv fuel s path name,
    use_media_name optz = false ->
    named srv "Stream" path name ->
    (forall k e, In (k, e) (items s) -> object_path e <> path) ->
    updates s = [["+"; path]; ["-"; path]] ->
    let r := update optz srv fuel s in
    fst r = Ret tt
    /\ updates (snd r) = []
    /\ items (snd r) = Dict.del (Dict.set (items s) name ("Stream", path)) name
    /\ (forall k e, In (k, e) (items (snd r)) -> object_path e <> path)
    /\ (Dict.mem (items s) name = false -> items (snd r) = items s).
Proof.
  intros optz srv fuel s path name Hm Hn Hp Hu r.
  assert (E : exists s', r = (Ret tt, s')
              /\ updates s' = []
              /\ items s' = Dict.del (Dict.set (items s) name ("Stream", path))
                                     name).
  { subst r. unfold update. erewrite bind_Ret by reflexivity. rewrite Hu.
    rewrite update_loop_cons.
    destruct (add_plain optz srv (refresh optz srv fuel true) path "Stream"
                name (with_updates [["-"; path]] s) Hm Hn)
      as (s1 & E1 & Hi1 & _).
    pose proof (add_keeps_updates optz srv fuel path "Stream"
                  (with_updates [["-"; path]] s)) as U1.
    unfold add in U1. rewrite E1 in U1. simpl in U1, Hi1.
    erewrite bind_Ret.
    2:{ change (dispatch optz srv fuel "+" path)
          with (add optz srv fuel path "Stream" ;; ret tt).
        unfold add. erewrite bind_Ret by exact E1. reflexivity. }
    rewrite update_loop_cons.
    erewrite bind_Ret.
    2:{ change (dispatch optz srv fuel "-" path)
          with (remove optz srv fuel path ;; ret tt).
        erewrite bind_Ret by apply remove_eq. reflexivity. }
    simpl. eexists. split; [reflexivity|].
    rewrite Hi1, find_path_set by auto. cbv zeta. cbn [items with_items].
    match goal with |- context [if ?b then _ else _] => destruct b end;
      split; reflexivity. }
  destruct E as (s' & -> & Hq & Hi). simpl.
  repeat split; auto.
  - intros k e Hin. rewrite Hi in Hin. apply in_del_set in Hin. eauto.
  - intros M. rewrite Hi. now apply del_set_absent.
Qed.

(** ** Refreshing *)

Lemma refresh_S optz srv fuel' soft :
  refresh optz srv (S fuel') soft
  = ((if soft then ret tt else modify (with_items []) ;; get_bus srv) ;;
     modify (with_caches [] []) ;;
     refresh_rebuild optz srv fuel' soft).
Proof. reflexivity. Qed.

Ltac keep_step side :=
  match goal with
  | |- preserves _ (ret _) => apply preserves_ret
  | |- preserves _ (raise _) => apply preserves_raise
  | |- preserves _ (gets _) => apply preserves_gets
  | |- preserves _ (bind _ _) => apply preserves_bind; [|intros ?]
  | |- preserves _ (try_except_else _ _ _ _) =>
      apply preserves_try_except_else; [| |intros ?]
  | |- preserves _ (mapM _ _) => apply preserves_mapM; intros ?
  | |- preserves _ (forM_ _ _) => apply preserves_forM_; intros ?
  | |- preserves _ (modify _) => apply preserves_modify; side
  | |- preserves _ (core_get _ _) => apply preserves_dbus_call; side
  | |- preserves _ (get_bus _) => apply preserves_dbus_call; side
  | |- preserves _ kill_child => apply preserves_kill_child; side
  | |- preserves _ (del_name ?n) => destruct n; simpl
  | |- preserves _ (delitem _) => apply preserves_delitem; side
  | |- preserves _ (_dbus_failsafe _ _) => apply preserves_failsafe; [side| |]
  | |- preserves _ (add_body _ _ _ _) => apply preserves_add_body; side
  | |- preserves _ (if ?b then _ else _) => destruct b
  | |- preserves _ (refresh _ _ _ _) => auto
  end.

Ltac grown_side :=
  intros; cbv beta;
  match goal with
  | H : grown _ _ |- grown _ _ =>
      let tr := fresh "tr" in
      destruct H as [tr H]; unfold grown; simpl; rewrite H;
      first [ exists tr; reflexivity
            | eexists; rewrite <- app_assoc; reflexivity ]
  end.

Lemma refresh_grows t0 optz srv fuel soft :
  preserves (grown t0) (refresh optz srv fuel soft).
Proof. apply preserves_refresh; grown_side. Qed.

Lemma refresh_adds_grows t0 optz srv fuel' :
  preserves (grown t0) (refresh_adds optz srv fuel').
Proof.
  unfold refresh_adds. repeat keep_step grown_side;
    apply refresh_grows.
Qed.

Lemma refresh_rebuild_grows t0 optz srv fuel' soft :
  preserves (grown t0) (refresh_rebuild optz srv fuel' soft).
Proof.
  unfold refresh_rebuild. repeat keep_step grown_side;
    first [apply refresh_adds_grows | apply refresh_grows].
Qed.

Lemma grown_refl s : grown (trace s) s.
Proof. exists []. now rewrite app_nil_r. Qed.

(** A hard refresh reconnects before anything else. *)
Lemma hard_refresh_reconnects optz srv fuel' s :
  exists tr,
    trace (snd (refresh optz srv (S fuel') false s))
    = (trace s ++ EGetBus :: tr)%list.
Proof.
  rewrite refresh_S.
  destruct (r_get_bus srv (tick s)) eqn:B.
  - erewrite bind_Ret.
    2:{ erewrite bind_Ret by reflexivity. unfold get_bus, dbus_call. simpl.
        rewrite B. reflexivity. }
    erewrite bind_Ret by reflexivity.
    destruct (refresh_rebuild_grows (trace s ++ [EGetBus])%list optz srv fuel'
                false
                (with_caches [] [] (interacted [EGetBus] (with_items [] s))))
      as [tr Htr].
    + exists []. simpl. now rewrite app_nil_r.
    + exists tr. rewrite Htr, <- app_assoc. reflexivity.
  - erewrite bind_Raise.
    2:{ erewrite bind_Ret by reflexivity. unfold get_bus, dbus_call. simpl.
        rewrite B. reflexivity. }
    exists []. reflexivity.
Qed.

(** X7: a soft refresh lets a [DBusException] escape only after a hard
    refresh was attempted, that is after a reconnection to the bus; and a
    hard refresh whose reconnection fails raises that error having emptied
    the registry and done nothing else. *)
Theorem refresh_bus_errors :
  forall optz srv fuel s,
    (fst (refresh optz srv fuel true s) = Raise DBusException ->
     exists tr, trace (snd (refresh optz srv fuel true s)) = (trace s ++ tr)%list
                /\ In EGetBus tr)
    /\ (r_get_bus srv (tick s) = false ->
        refresh optz srv (S fuel) false s
        = (Raise DBusException, interacted [EGetBus] (with_items [] s))).
Proof.
  intros optz srv fuel s. split.
  - destruct fuel as [|f]; [discriminate|].
    rewrite refresh_S.
    erewrite bind_Ret by reflexivity. erewrite bind_Ret by reflexivity.
    unfold refresh_rebuild. erewrite bind_Ret by reflexivity.
    unfold try_except_else.
    pose proof (refresh_adds_grows (trace s) optz srv f
                  (with_max_key_len 0 (with_caches [] [] s)) (grown_refl s))
      as [tr1 G].
    destruct (refresh_adds optz srv f _) as [[names|e] s2]; simpl in G.
    + erewrite bind_Ret by reflexivity. rewrite reconcile_deletes_nothing.
      simpl. destruct (difference names (items s2)); discriminate.
    + destruct e; simpl; try discriminate.
      destruct f as [|f']; [discriminate|].
      destruct (hard_refresh_reconnects optz srv f' s2) as [tr2 H2].
      intros _. exists (tr1 ++ EGetBus :: tr2)%list. split.
      * rewrite H2, G, <- app_assoc. reflexivity.
      * apply in_or_app. right. now left.
  - intros B. rewrite refresh_S.
    erewrite bind_Raise; [reflexivity|].
    erewrite bind_Ret by reflexivity. unfold get_bus, dbus_call. simpl.
    now rewrite B.
Qed.

Ltac caches_side :=
  intros; cbv beta;
  match goal with
  | H : caches_empty _ |- caches_empty _ => exact H
  | |- caches_empty (with_caches [] [] _) => split; reflexivity
  end.

Lemma refresh_keeps_caches_empty optz srv fuel :
  forall soft, preserves caches_empty (refresh optz srv fuel soft).
Proof.
  induction fuel as [|f IH]; intros soft.
  - apply preserves_raise.
  - rewrite refresh_S. unfold refresh_rebuild, refresh_adds.
    repeat keep_step caches_side.
Qed.

Lemma rebuild_leaves_caches_empty optz srv fuel soft s :
  caches_empty
    (snd ((modify (with_caches [] []) ;; refresh_rebuild optz srv fuel soft) s)).
Proof.
  erewrite bind_Ret by reflexivity.
  assert (K : preserves caches_empty (refresh_rebuild optz srv fuel soft)).
  { unfold refresh_rebuild, refresh_adds.
    repeat keep_step caches_side;
      apply refresh_keeps_caches_empty. }
  apply K. split; reflexivity.
Qed.

(** The first step of a hard refresh whose reconnection succeeds. *)
Lemma reconnect_Ret srv s :
  r_get_bus srv (tick s) = true ->
  (modify (with_items []) ;; get_bus srv) s
  = (Ret tt, interacted [EGetBus] (with_items [] s)).
Proof.
  intros B. erewrite bind_Ret by reflexivity.
  unfold get_bus, dbus_call. simpl. now rewrite B.
Qed.

(** X8: after a soft refresh, however it ends, and after a hard refresh
    whose reconnection succeeds, the volume and mute caches are empty. *)
Theorem refresh_empties_caches :
  forall optz srv fuel soft s,
    (soft = false -> r_get_bus srv (tick s) = true) ->
    caches_empty (snd (refresh optz srv (S fuel) soft s)).
Proof.
  intros optz srv fuel soft s B. rewrite refresh_S.
  destruct soft.
  - erewrite bind_Ret by reflexivity. apply rebuild_leaves_caches_empty.
  - erewrite bind_Ret by (apply reconnect_Ret; auto).
    apply rebuild_leaves_caches_empty.
Qed.

Lemma list_max_keys_set (d : Dict.t entry) name v :
  list_max (map String.length (Dict.keys (Dict.set d name v)))
  = Nat.max (list_max (map String.length (Dict.keys d))) (String.length name).
Proof.
  rewrite keys_set. destruct (Dict.mem d name) eqn:M.
  - apply mem_true_iff in M.
    assert (L : String.length name
                <= list_max (map String.length (Dict.keys d))).
    { pose proof (list_max_le (map String.length (Dict.keys d))
                    (list_max (map String.length (Dict.keys d)))) as [H _].
      specialize (H (Nat.le_refl _)). rewrite Forall_forall in H.
      apply H. now apply in_map. }
    lia.
  - rewrite map_app, list_max_app. simpl. lia.
Qed.

Lemma list_max_keys_register es : forall d,
  list_max (map String.length (Dict.keys (register es d)))
  = longest (map fst es) (list_max (map String.length (Dict.keys d))).
Proof.
  unfold longest. induction es as [|[k v] es IH]; intros d; simpl; auto.
  rewrite IH, list_max_keys_set. reflexivity.
Qed.

Lemma NoDup_keys_register es : forall d : Dict.t entry,
  NoDup (Dict.keys d) -> NoDup (Dict.keys (register es d)).
Proof.
  induction es as [|[k v] es IH]; intros d N; simpl; auto.
  apply IH. now apply NoDup_keys_set.
Qed.

Lemma get_register_from es : forall (d : Dict.t entry) k v,
  Dict.get (register es d) k = Some v -> In (k, v) es \/ Dict.get d k = Some v.
Proof.
  induction es as [|[k1 v1] es IH]; intros d k v H; simpl in *; auto.
  destruct (IH _ _ _ H) as [H'|H']; auto.
  destruct (String.eqb_spec k1 k) as [->|Hne].
  - rewrite get_set_same in H'. injection H' as ->. auto.
  - rewrite get_set_other in H' by congruence. auto.
Qed.

Lemma refresh_hard_plain optz srv fuel streams sinks :
  use_media_name optz = false ->
  (forall n, r_core_get srv n "PlaybackStreams" = Some (map fst streams)) ->
  (forall n, r_core_get srv n "Sinks" = Some (map fst sinks)) ->
  Forall (fun pn => named srv "Stream" (fst pn) (snd pn)) streams ->
  Forall (fun pn => named srv "Device" (fst pn) (snd pn)) sinks ->
  forall s, r_get_bus srv (tick s) = true ->
  exists sd,
    refresh optz srv (S fuel) false s = (Ret tt, interacted [EKillChild] sd)
    /\ items sd = register (entries "Stream" streams ++ entries "Device" sinks)%list []
    /\ max_key_len sd = longest (map snd streams ++ map snd sinks)%list 0
    /\ grown (trace s ++ [EGetBus])%list sd.
Proof.
  intros Hm Hst Hsk Fst Fsk s B.
  set (s0 := with_max_key_len 0
               (with_caches [] [] (interacted [EGetBus] (with_items [] s)))).
  set (sa := interacted [ECoreGet "PlaybackStreams"] s0).
  destruct (mapM_add_plain optz srv (refresh optz srv fuel true) "Stream"
              streams Hm Fst sa) as (sb & Eb & Hib & Hlb).
  destruct (mapM_add_plain optz srv (refresh optz srv fuel true) "Device"
              sinks Hm Fsk (interacted [ECoreGet "Sinks"] sb))
    as (sd & Ed & Hid & Hld).
  cbn [items interacted max_key_len] in Hid, Hld.
  assert (Hia : items sa = []) by reflexivity.
  assert (Hla : max_key_len sa = 0) by reflexivity.
  assert (A : refresh_adds optz srv fuel s0
              = (Ret (map (fun pn => Some (snd pn)) streams), sd)).
  { unfold refresh_adds.
    erewrite bind_Ret
      by (unfold core_get, dbus_call; simpl; rewrite Hst; reflexivity).
    erewrite bind_Ret by exact Eb.
    erewrite bind_Ret
      by (unfold core_get, dbus_call; rewrite Hsk; reflexivity).
    erewrite bind_Ret by exact Ed. reflexivity. }
  exists sd. split; [|split; [|split]].
  - rewrite refresh_S.
    erewrite bind_Ret.
    2:{ erewrite bind_Ret by reflexivity. unfold get_bus, dbus_call. simpl.
        rewrite B. reflexivity. }
    erewrite bind_Ret by reflexivity.
    unfold refresh_rebuild. erewrite bind_Ret by reflexivity.
    erewrite try_except_else_Ret by exact A. reflexivity.
  - rewrite Hid, Hib, Hia. now rewrite register_app.
  - rewrite Hld, Hlb, Hla. unfold longest. now rewrite map_app, fold_left_app.
  - pose proof (refresh_adds_grows (trace s ++ [EGetBus])%list optz srv fuel s0)
      as G. rewrite A in G. apply G. exists []. simpl. now rewrite app_nil_r.
Qed.

Lemma named_functional srv iface path a b :
  named srv iface path a -> named srv iface path b -> a = b.
Proof.
  intros Ha Hb. destruct (Ha 0) as (pa & Pa & Na), (Hb 0) as (pb & Pb & Nb).
  congruence.
Qed.

(** X9: with names not taken from [media.name], on a server that
    reconnects, lists the same streams and sinks at every call and
    describes each of them so that its name needs no counter, a hard
    refresh returns with a registry rebuilt from the snapshot alone: the
    name of every listed object is registered, every entry is a listed
    object under its name with its interface, names are distinct,
    [max_key_len] is the longest name's length, the caches are empty, and
    the trace starts with the reconnection and ends with the signal to the
    child. *)
Theorem hard_refresh_rebuilds_registry :
  forall optz srv fuel streams sinks s,
    use_media_name optz = false ->
    r_get_bus srv (tick s) = true ->
    (forall n, r_core_get srv n "PlaybackStreams" = Some streams) ->
    (forall n, r_core_get srv n "Sinks" = Some sinks) ->
    (forall p, In p streams -> exists name, named srv "Stream" p name) ->
    (forall p, In p sinks -> exists name, named srv "Device" p name) ->
    let r := refresh optz srv (S fuel) false s in
    fst r = Ret tt
    /\ (forall p name, In p streams -> named srv "Stream" p name ->
          Dict.mem (items (snd r)) name = true)
    /\ (forall p name, In p sinks -> named srv "Device" p name ->
          Dict.mem (items (snd r)) name = true)
    /\ (forall name e, Dict.get (items (snd r)) name = Some e ->
          (iface_of e = "Stream" /\ In (object_path e) streams
           /\ named srv "Stream" (object_path e) name)
          \/ (iface_of e = "Device" /\ In (object_path e) sinks
              /\ named srv "Device" (object_path e) name))
    /\ unique_names (snd r)
    /\ width_exact (snd r)
    /\ caches_empty (snd r)
    /\ (exists tr, trace (snd r) = (trace s ++ EGetBus :: tr ++ [EKillChild])%list).
Proof.
  intros optz srv fuel streams sinks s Hm B Hst Hsk Nst Nsk r.
  destruct (named_paths_exist _ _ _ Nst) as (ps & <- & Fst).
  destruct (named_paths_exist _ _ _ Nsk) as (pk & <- & Fsk).
  destruct (refresh_hard_plain optz srv fuel ps pk Hm Hst Hsk Fst Fsk s B)
    as (sd & E & Hi & Hl & [tr G]).
  assert (C : caches_empty (snd (refresh optz srv (S fuel) false s))).
  { rewrite refresh_S. erewrite bind_Ret by (now apply reconnect_Ret).
    apply rebuild_leaves_caches_empty. }
  subst r. rewrite E in *. cbn [fst snd items interacted] in *.
  destruct C as [C1 C2].
  rewrite Forall_forall in Fst, Fsk.
  assert (Kin : forall iface l p name,
             In (p, name) l -> In name (map fst (entries iface l))).
  { intros iface l p name H. unfold entries. rewrite map_map. simpl.
    apply in_map_iff. exists (p, name). auto. }
  assert (Pin : forall iface l p,
             (forall x, In x l -> named srv iface (fst x) (snd x)) ->
             In p (map fst l) -> forall name, named srv iface p name ->
             In (p, name) l).
  { intros iface l p F H name Hn. apply in_map_iff in H.
    destruct H as ([p' n'] & <- & Hin). specialize (F _ Hin). simpl in *.
    now rewrite (named_functional _ _ _ _ _ Hn F). }
  repeat split; auto.
  - intros p name Hp Hn. rewrite Hi. apply mem_register_key.
    rewrite map_app, in_app_iff. left. eapply Kin, Pin; eauto.
  - intros p name Hp Hn. rewrite Hi. apply mem_register_key.
    rewrite map_app, in_app_iff. right. eapply Kin, Pin; eauto.
  - intros name e H. rewrite Hi in H.
    apply get_register_from in H. destruct H as [H|H]; [|discriminate].
    apply in_app_iff in H. unfold entries in H.
    destruct H as [H|H]; apply in_map_iff in H;
      destruct H as ([p n] & H & Hin); simpl in H; injection H as <- <-;
      [left | right]; simpl.
    + split; [reflexivity|]. split; [|apply (Fst _ Hin)].
      apply in_map_iff. eexists (p, _). eauto.
    + split; [reflexivity|]. split; [|apply (Fsk _ Hin)].
      apply in_map_iff. eexists (p, _). eauto.
  - unfold unique_names. cbn [items interacted]. rewrite Hi.
    apply NoDup_keys_register. constructor.
  - unfold width_exact. cbn [items interacted max_key_len].
    rewrite Hi, Hl, list_max_keys_register.
    simpl. f_equal. unfold entries. rewrite map_app, !map_map. reflexivity.
  - exists tr. simpl. rewrite G, <- !app_assoc. reflexivity.
Qed.

(** ** Volumes stay between 0 and 1 *)

Lemma normalized_level_ok m v :
  (0 < m)%Z -> (0 <= v)%Z -> level_ok (Qmin (inject_Z v / inject_Z m) 1).
Proof.
  intros Hm Hv. unfold level_ok.
  assert (Hq : (0 <= inject_Z v / inject_Z m)%Q).
  { apply Qle_shift_div_l.
    - change 0%Q with (inject_Z 0). rewrite <- Zlt_Qlt. lia.
    - rewrite Qmult_0_l. change 0%Q with (inject_Z 0). rewrite <- Zle_Qle. lia. }
  split.
  - apply Q.min_glb; [exact Hq | lra].
  - apply Q.le_min_r.
Qed.

Lemma sum_from (val : list Q) : forall a,
  (fold_left Qplus val a == a + fold_left Qplus val 0)%Q.
Proof.
  induction val as [|q val IH]; intros a; simpl.
  - lra.
  - rewrite (IH (a + q)%Q), (IH (0 + q)%Q). lra.
Qed.

Lemma sum_bounds (val : list Q) :
  Forall level_ok val ->
  (0 <= sum val <= inject_Z (Z.of_nat (List.length val)))%Q.
Proof.
  unfold sum. induction 1 as [|q val [H0 H1] _ IH].
  - split; apply Qle_refl.
  - cbn [fold_left List.length]. rewrite sum_from.
    rewrite Nat2Z.inj_succ. unfold Z.succ. rewrite inject_Z_plus.
    change (inject_Z 1) with 1%Q. lra.
Qed.

Lemma mean_ok (val : list Q) :
  val <> [] -> Forall level_ok val -> level_ok (mean val).
Proof.
  intros Hne F. pose proof (sum_bounds val F) as [H0 H1].
  assert (Hn : (0 < inject_Z (Z.of_nat (List.length val)))%Q).
  { change 0%Q with (inject_Z 0). rewrite <- Zlt_Qlt.
    destruct val; [congruence | simpl; lia]. }
  unfold level_ok, mean. split.
  - apply Qle_shift_div_l; [exact Hn | lra].
  - apply Qle_shift_div_r; [exact Hn | lra].
Qed.

Ltac keep_more side :=
  first
    [ keep_step side
    | match goal with
      | |- preserves _ (getitem _ _) => apply preserves_getitem
      | |- preserves _ (try_except _ _ _) => apply preserves_try_except
      | |- preserves _ (dbus_call _ _) => apply preserves_dbus_call; side
      | |- preserves _ (time _) => apply preserves_time; side
      | |- preserves _ (remove_body _) => apply preserves_remove_body; side
      | |- preserves _ (match ?x with _ => _ end) => destruct x
      end ].

Ltac range_side :=
  intros; cbv beta;
  match goal with
  | H : cache_in_range _ |- cache_in_range _ => exact H
  | |- cache_in_range (with_caches [] [] _) =>
      let H := fresh in intros ? ? ? H; discriminate H
  end.

Lemma refresh_keeps_cache_in_range optz srv fuel :
  forall soft, preserves cache_in_range (refresh optz srv fuel soft).
Proof.
  induction fuel as [|f IH]; intros soft.
  - apply preserves_raise.
  - rewrite refresh_S. unfold refresh_rebuild, refresh_adds.
    repeat keep_step range_side.
Qed.

Lemma failsafe_keeps_cache_in_range {A} optz srv fuel (m : M A) :
  preserves cache_in_range m ->
  preserves cache_in_range (_dbus_failsafe (refresh optz srv fuel true) m).
Proof.
  intros H. apply preserves_failsafe; auto; try range_side.
  apply refresh_keeps_cache_in_range.
Qed.

Lemma failsafe_Ret_inv {A} (r : M unit) (m : M A) s a s' :
  _dbus_failsafe r m s = (Ret (Some a), s') ->
  exists s0, m s0 = (Ret a, s').
Proof.
  unfold _dbus_failsafe, try_except, bind.
  destruct (m s) as [[a0|e] s1] eqn:E1.
  - intros H. injection H as <- <-. eauto.
  - destruct e; simpl; try discriminate.
    destruct (r s1) as [[[]|e] s2].
    + destruct (m s2) as [[a0|e] s3] eqn:E2.
      * intros H. injection H as <- <-. eauto.
      * destruct e; simpl; try discriminate.
        rewrite call_fail_hook_eq. discriminate.
    + destruct e; simpl; try discriminate.
      rewrite call_fail_hook_eq. discriminate.
Qed.

Lemma try_except_raise_Ret_inv {A} (m : M A) e e' s a s' :
  try_except m e (raise e') s = (Ret a, s') -> m s = (Ret a, s').
Proof.
  unfold try_except. destruct (m s) as [[a0|e0] s0]; auto.
  destruct (exn_eqb e0 e); discriminate.
Qed.

Lemma get_volume_body_unsigned srv item s levels s' :
  levels_unsigned srv ->
  _get_volume_body srv item s = (Ret levels, s') -> Forall (Z.le 0) levels.
Proof.
  intros U. unfold _get_volume_body.
  erewrite bind_Ret by reflexivity. unfold getitem.
  destruct (Dict.get (items s) item) as [e|].
  - erewrite bind_Ret by reflexivity. unfold dbus_call.
    destruct (r_get_volume srv (tick s) (object_path e) (iface_of e))
      as [l|] eqn:G; [|discriminate].
    intros H. injection H as <- _. eapply U; eauto.
  - erewrite bind_Raise by reflexivity. discriminate.
Qed.

Lemma cache_in_range_set s item val ts :
  cache_in_range s -> Forall level_ok val ->
  cache_in_range (with_caches (Dict.set (_volume_val_cache s) item (val, ts))
                              (_mute_val_cache s) s).
Proof.
  intros C F item' val' ts'. simpl.
  destruct (String.eqb_spec item item') as [<-|Hne].
  - rewrite get_set_same. intros H. injection H as <- _. exact F.
  - rewrite get_set_other by congruence. apply C.
Qed.

Lemma fetch_volume_in_range optz srv fuel item ts s :
  (0 < max_level optz)%Z -> levels_unsigned srv -> cache_in_range s ->
  cache_in_range (snd (fetch_volume optz srv fuel item ts s))
  /\ (forall val, fst (fetch_volume optz srv fuel item ts s) = Ret val ->
        Forall level_ok val).
Proof.
  intros Hm U C. unfold fetch_volume.
  assert (K : preserves cache_in_range
                (try_except (_get_volume optz srv fuel item) KeyError
                            (raise PAUpdate))).
  { unfold _get_volume. apply preserves_try_except; [|apply preserves_raise].
    apply failsafe_keeps_cache_in_range. unfold _get_volume_body.
    repeat keep_more range_side. }
  specialize (K s C).
  destruct (try_except (_get_volume optz srv fuel item) KeyError
              (raise PAUpdate) s) as [[[levels|]|e] s1] eqn:E;
    simpl in K.
  2:{ erewrite bind_Ret by exact E. split; [exact K | discriminate]. }
  2:{ erewrite bind_Raise by exact E. split; [exact K | discriminate]. }
  assert (F : Forall (Z.le 0) levels).
  { apply try_except_raise_Ret_inv in E. unfold _get_volume in E.
    apply failsafe_Ret_inv in E. destruct E as [s0 G].
    eapply get_volume_body_unsigned; eauto. }
  assert (Fv : Forall level_ok
                 (map (fun v => Qmin (inject_Z v / inject_Z (max_level optz)) 1)
                      levels)).
  { apply Forall_map. eapply Forall_impl; [|exact F].
    intros v Hv. now apply normalized_level_ok. }
  erewrite bind_Ret by exact E. cbv beta iota.
  erewrite bind_Ret by (apply mapM_normalize; lia).
  erewrite bind_Ret by reflexivity. simpl. split.
  - now apply cache_in_range_set.
  - intros val H. injection H as <-. exact Fv.
Qed.

Lemma get_volume_in_range optz srv fuel item raw s :
  (0 < max_level optz)%Z -> levels_unsigned srv -> cache_in_range s ->
  cache_in_range (snd (get_volume optz srv fuel item raw s))
  /\ volume_ok (fst (get_volume optz srv fuel item raw s)).
Proof.
  intros Hm U C. unfold get_volume.
  erewrite bind_Ret by reflexivity.
  erewrite bind_Ret by reflexivity.
  erewrite bind_Ret by reflexivity.
  set (s0 := interacted [] s).
  assert (C0 : cache_in_range s0) by exact C.
  pose proof (fetch_volume_in_range optz srv fuel item (r_time srv (tick s)) s0
                Hm U C0) as [Fc Fv].
  assert (V : forall (m : M (list Q)),
             (cache_in_range (snd (m s0))
              /\ forall val, fst (m s0) = Ret val -> Forall level_ok val) ->
             cache_in_range
               (snd ((val <- m ;;
                      if raw then ret (Channels val)
                      else match val with
                           | [] => raise ZeroDivisionError
                           | _ => ret (Average (mean val))
                           end) s0))
             /\ volume_ok
                  (fst ((val <- m ;;
                         if raw then ret (Channels val)
                         else match val with
                              | [] => raise ZeroDivisionError
                              | _ => ret (Average (mean val))
                              end) s0))).
  { intros m [Hc Hv]. unfold bind.
    destruct (m s0) as [[val|e] s1]; simpl in *; [|split; auto].
    specialize (Hv val eq_refl).
    destruct raw; [split; auto|].
    destruct val as [|q val]; [split; simpl; auto|].
    split; [exact Hc|]. simpl. apply mean_ok; [discriminate | exact Hv]. }
  destruct (Dict.get (_volume_val_cache s) item) as [[val ts]|] eqn:G.
  - destruct (Qltb ts (r_time srv (tick s) - _cache_time s0)).
    + apply V. split; auto.
    + apply V. split; [exact C0|]. intros val' H. injection H as <-.
      eapply C; eauto.
  - apply V. split; auto.
Qed.

Section Range.

Variable optz : options.
Variable srv : remote.
Variable py_round : Q -> Z.
Hypothesis max_level_positive : (0 < max_level optz)%Z.
Hypothesis server_unsigned : levels_unsigned srv.

Lemma get_volume_keeps_cache_in_range fuel item raw :
  preserves cache_in_range (get_volume optz srv fuel item raw).
Proof. intros s C. now apply get_volume_in_range. Qed.

Lemma set_volume_keeps_cache_in_range fuel item level :
  preserves cache_in_range (set_volume optz srv py_round fuel item level).
Proof.
  unfold set_volume.
  apply preserves_bind; [apply get_volume_keeps_cache_in_range|]. intros cur.
  apply preserves_bind.
  { unfold len. destruct cur; [apply preserves_ret | apply preserves_raise]. }
  intros n. cbv zeta.
  apply preserves_bind.
  { apply preserves_mapM. intros v. unfold UInt32.
    match goal with |- context [if ?b then _ else _] => destruct b end;
      [apply preserves_ret | apply preserves_raise]. }
  intros val_dbus.
  apply preserves_bind.
  { apply preserves_try_except; [|apply preserves_raise].
    apply preserves_bind; [|intros; apply preserves_ret].
    unfold _set_volume. apply failsafe_keeps_cache_in_range.
    unfold _set_volume_body. repeat keep_more range_side. }
  intros _. apply preserves_bind; [apply preserves_time; range_side|].
  intros ts. apply preserves_modify. intros s C.
  apply cache_in_range_set; auto.
  apply Forall_forall. intros q Hq. apply repeat_spec in Hq. subst q.
  apply clamp_bounds.
Qed.

Lemma add_keeps_cache_in_range fuel path iface :
  preserves cache_in_range (add optz srv fuel path iface).
Proof.
  apply failsafe_keeps_cache_in_range. apply preserves_add_body; range_side.
Qed.

Lemma remove_keeps_cache_in_range fuel path :
  preserves cache_in_range (remove optz srv fuel path).
Proof.
  apply failsafe_keeps_cache_in_range. apply preserves_remove_body; range_side.
Qed.

Lemma update_keeps_cache_in_range fuel :
  preserves cache_in_range (update optz srv fuel).
Proof.
  unfold update. apply preserves_bind; [apply preserves_gets|]. intros queue.
  induction queue as [|record rest IH]; [apply preserves_ret|].
  intros s C. rewrite update_loop_cons.
  destruct record as [|action [|path [|c l]]]; try exact C.
  assert (D : preserves cache_in_range (dispatch optz srv fuel action path)).
  { unfold dispatch.
    repeat match goal with
           | |- preserves _ (if ?b then _ else _) => destruct b
           | |- preserves _ (bind _ _) =>
               apply preserves_bind; [|intros; apply preserves_ret]
           | |- preserves _ (add _ _ _ _ _) => apply add_keeps_cache_in_range
           | |- preserves _ (remove _ _ _ _) => apply remove_keeps_cache_in_range
           | |- preserves _ (raise _) => apply preserves_raise
           end. }
  apply (preserves_bind _ _ _ D (fun _ => IH)). exact C.
Qed.

Lemma run_operations_keep_cache_in_range fuel ops : forall s,
  cache_in_range s ->
  cache_in_range (run_operations optz srv py_round fuel ops s).
Proof.
  unfold run_operations.
  induction ops as [|op ops IH]; intros s C; [exact C|].
  simpl. apply IH. destruct op; simpl.
  - now apply add_keeps_cache_in_range.
  - now apply remove_keeps_cache_in_range.
  - now apply update_keeps_cache_in_range.
  - now apply refresh_keeps_cache_in_range.
  - exact C.
  - now apply get_volume_keeps_cache_in_range.
  - now apply set_volume_keeps_cache_in_range.
Qed.

End Range.

(** X10: with a positive [max_level] and a server reporting unsigned
    levels, every cached volume stays made of levels between 0 and 1
    through any sequence of calls, and whatever [get_volume] then returns,
    the tuple or the mean, cached or fetched, is between 0 and 1. *)
Theorem volumes_stay_in_range :
  forall optz srv py_round fuel ops s item raw,
    (0 < max_level optz)%Z ->
    levels_unsigned srv ->
    cache_in_range s ->
    let s' := run_operations optz srv py_round fuel ops s in
    cache_in_range s'
    /\ volume_ok (fst (get_volume optz srv fuel item raw s')).
Proof.
  intros optz srv py_round fuel ops s item raw Hm U C s'.
  assert (C' : cache_in_range s')
    by now apply run_operations_keep_cache_in_range.
  split; [exact C'|]. now apply get_volume_in_range.
Qed.

(** ** Writing, then reading *)

Lemma get_volume_fresh optz srv fuel item raw s val ts :
  Dict.get (_volume_val_cache s) item = Some (val, ts) ->
  ~ (ts < r_time srv (tick s) - _cache_time s)%Q ->
  get_volume optz srv fuel item raw s
  = (if raw then Ret (Channels val)
     else match val with
          | [] => Raise ZeroDivisionError
          | _ => Ret (Average (mean val))
          end, interacted [] s).
Proof.
  intros Hc Hage.
  assert (Hf : Qltb ts (r_time srv (tick s) - _cache_time s) = false).
  { now apply Qltb_false. }
  unfold get_volume.
  erewrite bind_Ret by reflexivity.
  erewrite bind_Ret by reflexivity.
  erewrite bind_Ret by reflexivity.
  change (_cache_time (interacted [] s)) with (_cache_time s).
  rewrite Hc, Hf.
  erewrite bind_Ret by reflexivity.
  destruct raw; [reflexivity|]. now destruct val.
Qed.

Lemma get_volume_cached optz srv fuel item raw s val ts :
  Dict.get (_volume_val_cache s) item = Some (val, ts) ->
  (r_time srv (tick s) - ts <= _cache_time s)%Q ->
  get_volume optz srv fuel item raw s
  = (if raw then Ret (Channels val)
     else match val with
          | [] => Raise ZeroDivisionError
          | _ => Ret (Average (mean val))
          end, interacted [] s).
Proof.
  intros Hc Hage. apply get_volume_fresh with (ts := ts); [exact Hc | lra].
Qed.

(** X11: after a [set_volume] that went through (as in C3), a
    [get_volume] made while the written value is no older than the cache
    time (the code's test [ts < ts_chk - self._cache_time] fails) calls
    nothing on the server and answers from the write: the tuple of [n]
    times [max(0, min(1, x))] when [raw] is set, and otherwise the sum of
    these [n] levels, added from 0, divided by [n]. With one or two
    channels that quotient is the written level itself. *)
Theorem set_then_get_volume :
  forall optz srv py_round fuel item level s chans s1 e,
    (forall q, (Qfloor q <= py_round q <= Qceiling q)%Z) ->
    (0 <= max_level optz < 2 ^ 32)%Z ->
    get_volume optz srv fuel item true s = (Ret (Channels chans), s1) ->
    Dict.get (items s1) item = Some e ->
    let clamped := Qmax 0 (Qmin 1 level) in
    let n := List.length chans in
    r_set_volume srv (tick s1) (object_path e) (iface_of e)
      (repeat (py_round (clamped * inject_Z (max_level optz))%Q) n) = true ->
    let s' := snd (set_volume optz srv py_round fuel item level s) in
    ~ (r_time srv (S (tick s1)) < r_time srv (tick s') - _cache_time s')%Q ->
    forall raw,
      let g := get_volume optz srv fuel item raw s' in
      trace (snd g) = trace s'
      /\ (raw = true -> fst g = Ret (Channels (repeat clamped n)))
      /\ (raw = false -> n <> 0 ->
          fst g = Ret (Average (fold_left Qplus (repeat clamped n) 0%Q
                                / inject_Z (Z.of_nat n))))
      /\ (raw = false -> n = 1 \/ n = 2 ->
          exists m, fst g = Ret (Average m) /\ (m == clamped)%Q).
Proof.
  intros optz srv py_round fuel item level s chans s1 e Hround Hmax Hget He
         clamped n Hset s' Hage raw g.
  destruct (set_volume_when_representable optz srv py_round fuel item level s
              chans s1 e Hget He) as (_ & _ & Hc & _); auto.
  { now apply rounded_level_in_range. }
  fold clamped n s' in Hc.
  subst g. rewrite (get_volume_fresh _ _ _ _ _ _ _ _ Hc Hage).
  simpl. rewrite app_nil_r. split; [reflexivity|].
  split; [intros ->; reflexivity|].
  assert (E : n <> 0 ->
              (if raw
               then Ret (Channels (repeat clamped n))
               else match repeat clamped n with
                    | [] => Raise ZeroDivisionError
                    | _ => Ret (Average (mean (repeat clamped n)))
                    end)
              = (if raw
                 then Ret (Channels (repeat clamped n))
                 else Ret (Average (fold_left Qplus (repeat clamped n) 0%Q
                                    / inject_Z (Z.of_nat n))))).
  { intros Hn. destruct raw; [reflexivity|].
    unfold mean, sum. rewrite repeat_length.
    destruct n; [congruence | reflexivity]. }
  split.
  - intros -> Hn. now rewrite E.
  - intros -> Hn. eexists. split.
    + rewrite E by lia. reflexivity.
    + destruct Hn as [-> | ->]; simpl; field.
Qed.

(** X12: for a name that is not registered, [get_volume] and
    [set_volume] with nothing cached raise [PAUpdate] having read the clock
    and called nothing on the server; and [set_volume] with a fresh cached
    value raises [PAUpdate] too, leaving the cache as it was. *)
Theorem volume_of_unregistered_name :
  forall optz srv py_round fuel item s,
    Dict.get (items s) item = None ->
    (Dict.get (_volume_val_cache s) item = None ->
     forall raw level,
       get_volume optz srv fuel item raw s = (Raise PAUpdate, interacted [] s)
       /\ set_volume optz srv py_round fuel item level s
          = (Raise PAUpdate, interacted [] s))
    /\ (forall val ts level,
          Dict.get (_volume_val_cache s) item = Some (val, ts) ->
          (r_time srv (tick s) - ts <= _cache_time s)%Q ->
          (forall q, (Qfloor q <= py_round q <= Qceiling q)%Z) ->
          (0 <= max_level optz < 2 ^ 32)%Z ->
          set_volume optz srv py_round fuel item level s
          = (Raise PAUpdate, interacted [] s)).
Proof.
  intros optz srv py_round fuel item s Hi.
  assert (B : forall s0, items s0 = items s ->
              _get_volume_body srv item s0 = (Raise KeyError, s0)).
  { intros s0 E. unfold _get_volume_body.
    erewrite bind_Ret by reflexivity.
    erewrite bind_Raise; [reflexivity|]. unfold getitem. now rewrite E, Hi. }
  assert (G : forall raw, Dict.get (_volume_val_cache s) item = None ->
              get_volume optz srv fuel item raw s
              = (Raise PAUpdate, interacted [] s)).
  { intros raw Hc. unfold get_volume.
    erewrite bind_Ret by reflexivity.
    erewrite bind_Ret by reflexivity.
    erewrite bind_Ret by reflexivity. rewrite Hc.
    erewrite bind_Raise; [reflexivity|].
    unfold fetch_volume. erewrite bind_Raise; [reflexivity|].
    unfold try_except, _get_volume.
    rewrite (failsafe_other _ _ _ KeyError (interacted [] s));
      [reflexivity | now apply B | discriminate]. }
  split.
  - intros Hc raw level. split; [now apply G|].
    unfold set_volume. erewrite bind_Raise; [reflexivity | now apply G].
  - intros val ts level Hc Hage Hround Hmax.
    unfold set_volume.
    erewrite bind_Ret
      by (rewrite (get_volume_cached _ _ _ _ _ _ _ _ Hc Hage); reflexivity).
    erewrite bind_Ret by reflexivity.
    erewrite bind_Ret
      by (apply mapM_UInt32_repeat; now apply rounded_level_in_range).
    erewrite bind_Raise; [reflexivity|].
    unfold try_except.
    erewrite bind_Raise.
    2:{ unfold _set_volume. apply (failsafe_other _ _ _ KeyError); [|discriminate].
        unfold _set_volume_body.
        erewrite bind_Ret by reflexivity.
        erewrite bind_Raise; [reflexivity|]. unfold getitem. simpl.
        now rewrite Hi. }
    reflexivity.
Qed.

(** ** The unique counter *)

Lemma cycle_succ_mod i :
  (i < 2 ^ 30)%N -> cycle_succ i = ((i + 1) mod 2 ^ 30)%N.
Proof.
  unfold cycle_succ. change (2 ^ 30)%N with 1073741824%N. intros H.
  destruct (i + 1 <? 1073741824)%N eqn:E.
  - apply N.ltb_lt in E. now rewrite N.mod_small.
  - apply N.ltb_ge in E. replace (i + 1)%N with 1073741824%N by lia.
    reflexivity.
Qed.

Lemma cycle_succ_bound i : (cycle_succ i < 2 ^ 30)%N.
Proof.
  unfold cycle_succ. change (2 ^ 30)%N with 1073741824%N.
  destruct (i + 1 <? 1073741824)%N eqn:E.
  - now apply N.ltb_lt in E.
  - lia.
Qed.

Lemma iter_cycle_succ j : forall i,
  (i < 2 ^ 30)%N ->
  Nat.iter j cycle_succ i = ((i + N.of_nat j) mod 2 ^ 30)%N.
Proof.
  induction j as [|j IH]; intros i Hi.
  - simpl. rewrite N.add_0_r. now rewrite N.mod_small.
  - rewrite Nat.iter_succ_r, IH by apply cycle_succ_bound.
    rewrite cycle_succ_mod by auto. rewrite Nat2N.inj_succ.
    rewrite N.Div0.add_mod_idemp_l. f_equal. lia.
Qed.

Lemma iter_cycle_succ_neq i j :
  (i < 2 ^ 30)%N -> j <> 0 -> (N.of_nat j < 2 ^ 30)%N ->
  Nat.iter j cycle_succ i <> i.
Proof.
  intros Hi Hj Hb. rewrite iter_cycle_succ by auto.
  change (2 ^ 30)%N with 1073741824%N in *.
  destruct (N.ltb_spec (i + N.of_nat j) 1073741824) as [L|L].
  - rewrite N.mod_small by auto. lia.
  - replace (i + N.of_nat j)%N
      with ((i + N.of_nat j - 1073741824) + 1 * 1073741824)%N by lia.
    rewrite N.Div0.mod_add, N.mod_small by lia. lia.
Qed.

Lemma mapM_get_name_unique name k : forall s,
  mapM _get_name_unique (repeat name k) s
  = (Ret (drawn name (_unique_idx s) k),
     with_unique_idx (Nat.iter k cycle_succ (_unique_idx s)) s).
Proof.
  induction k as [|k IH]; intros s.
  - simpl. now rewrite with_unique_idx_same.
  - cbn [repeat mapM drawn].
    erewrite bind_Ret by reflexivity.
    erewrite bind_Ret by apply IH.
    rewrite Nat.iter_succ_r. reflexivity.
Qed.

Lemma in_drawn name k : forall i x,
  In x (drawn name i k) ->
  exists j, j < k /\ x = name ++ " #" ++ str_of_N (Nat.iter j cycle_succ i).
Proof.
  induction k as [|k IH]; intros i x H; simpl in H; [tauto|].
  destruct H as [<-|H].
  - exists 0. split; [lia | reflexivity].
  - destruct (IH _ _ H) as (j & Hj & ->).
    exists (S j). split; [lia|]. now rewrite Nat.iter_succ_r.
Qed.

Lemma NoDup_drawn name k : forall i,
  (i < 2 ^ 30)%N -> (N.of_nat k <= 2 ^ 30)%N -> NoDup (drawn name i k).
Proof.
  induction k as [|k IH]; intros i Hi Hk; simpl; constructor.
  - intros H. apply in_drawn in H. destruct H as (j & Hj & E).
    apply suffixed_inj in E. rewrite <- Nat.iter_succ_r in E.
    symmetry in E. revert E. apply iter_cycle_succ_neq; auto; lia.
  - apply IH; [apply cycle_succ_bound | lia].
Qed.

Lemma length_drawn name k : forall i, List.length (drawn name i k) = k.
Proof. induction k; intros i; simpl; auto. Qed.

(** X13: from a counter below [2**30], up to [2**30] successive calls of
    [_get_name_unique] on one name return pairwise different names, all
    different from the name itself; the counter stays below [2**30] and
    the registry is not touched. *)
Theorem unique_suffixes_until_wrap :
  forall name k s,
    (_unique_idx s < 2 ^ 30)%N -> (N.of_nat k <= 2 ^ 30)%N ->
    exists names s',
      mapM _get_name_unique (repeat name k) s = (Ret names, s')
      /\ List.length names = k
      /\ NoDup names
      /\ (forall x, In x names -> x <> name)
      /\ (_unique_idx s' < 2 ^ 30)%N
      /\ items s' = items s.
Proof.
  intros name k s Hi Hk.
  exists (drawn name (_unique_idx s) k),
         (with_unique_idx (Nat.iter k cycle_succ (_unique_idx s)) s).
  split; [apply mapM_get_name_unique|].
  split; [apply length_drawn|]. split; [now apply NoDup_drawn|].
  split; [|split; [|reflexivity]].
  - intros x H. apply in_drawn in H. destruct H as (j & _ & ->).
    apply suffixed_neq.
  - simpl. destruct k; simpl; [exact Hi | apply cycle_succ_bound].
Qed.

(** ** Drawing the window *)

(** X14: the columns [win_draw] settles on, for a window of more than one
    column and names of at most [K] characters. The label column is never
    wider than the window, and a bar that is drawn fills the row exactly
    (label, 2 for the mute button, bar, 5 for its caps). With [K + 17]
    columns or more the labels get their [K] columns and the bar the rest;
    below that the bar is kept at 10 and the labels are cut, down to 10
    columns at 27; from 26 to 18 columns the bar shrinks; below 18 there is
    no bar and the labels take the window, or [min(K, win_len)] columns
    below 10. *)
Theorem layout_widths :
  forall win_len max_key_len,
    (1 < win_len)%Z ->
    let K := Z.of_nat max_key_len in
    let item_len_max := fst (layout win_len max_key_len) in
    let bar_len := snd (layout win_len max_key_len) in
    (0 <= item_len_max <= win_len)%Z
    /\ (0 < bar_len -> item_len_max + 2 + bar_len + 5 = win_len)%Z
    /\ (K + 17 <= win_len -> item_len_max = K /\ bar_len = win_len - K - 7)%Z
    /\ (win_len < K + 17 -> 27 <= win_len ->
        item_len_max = win_len - 17 /\ bar_len = 10)%Z
    /\ (win_len < K + 17 -> 18 <= win_len < 27 ->
        item_len_max = 10 /\ bar_len = win_len - 17)%Z
    /\ (win_len < K + 17 -> 10 <= win_len < 18 ->
        item_len_max = win_len /\ bar_len <= 0)%Z
    /\ (win_len < K + 17 -> win_len < 10 ->
        item_len_max = Z.min K win_len /\ bar_len <= 0)%Z.
Proof.
  intros W Kn HW K i b. subst K i b. unfold layout.
  change (Z.of_nat (String.length (bar_caps ""))) with 5%Z.
  unfold item_len_min, bar_len_min, mute_button_len.
  destruct (Z.ltb_spec (W - Z.of_nat Kn - 2 - 5) 10); [|cbn [fst snd]; lia].
  match goal with
  | |- context [(?a <=? 0)%Z] => destruct (Z.leb_spec a 0)
  end;
    match goal with
    | |- context [(?a <? 10)%Z] => destruct (Z.ltb_spec a 10)
    end; cbn [fst snd]; lia.
Qed.

Lemma length_str_times s n :
  String.length (str_times s n) = Z.to_nat n * String.length s.
Proof.
  unfold str_times. induction (Z.to_nat n) as [|k IH]; simpl; auto.
  now rewrite append_length, IH.
Qed.

Lemma length_substring_0 m : forall s,
  String.length (substring 0 m s) = Nat.min m (String.length s).
Proof.
  induction m as [|m IH]; intros [|c s]; simpl; auto.
Qed.

Lemma length_slice_to item n :
  (0 <= n)%Z -> (Z.of_nat (String.length (slice_to item n)) <= n)%Z.
Proof.
  intros Hn. unfold slice_to.
  destruct (Z.ltb_spec n 0); [lia|].
  rewrite length_substring_0. lia.
Qed.

Lemma bar_fill_bounds (py_round : Q -> Z) bar_len volume :
  (forall q, (Qfloor q <= py_round q <= Qceiling q)%Z) ->
  level_ok volume -> (0 <= bar_len)%Z ->
  (0 <= py_round (volume * inject_Z bar_len)%Q <= bar_len)%Z.
Proof.
  intros Hr [H0 H1] Hb.
  assert (Hbl : (0 <= inject_Z bar_len)%Q).
  { change 0%Q with (inject_Z 0). rewrite <- Zle_Qle. lia. }
  assert (Hq0 : (inject_Z 0 <= volume * inject_Z bar_len)%Q).
  { change (inject_Z 0) with 0%Q. now apply Qmult_le_0_compat. }
  assert (Hq1 : (volume * inject_Z bar_len <= inject_Z bar_len)%Q).
  { rewrite <- (Qmult_1_l (inject_Z bar_len)) at 2.
    now apply Qmult_le_compat_r. }
  apply Qfloor_resp_le in Hq0. rewrite Qfloor_Z in Hq0.
  apply Qceiling_resp_le in Hq1. rewrite Qceiling_Z in Hq1.
  specialize (Hr (volume * inject_Z bar_len)%Q). lia.
Qed.

(** X15: for a volume between 0 and 1 and any rounding between floor
    and ceiling, the bar of a row is [' [ '], [bar_fill] times ['#'],
    [bar_len - bar_fill] times ['-'], [' ]'] with
    [0 <= bar_fill <= bar_len]: it is [bar_len + 5] characters long at every
    volume, empty at volume 0 and full at volume 1. *)
Theorem volume_bar_shape :
  forall (py_round : Q -> Z) bar_len volume,
    (forall q, (Qfloor q <= py_round q <= Qceiling q)%Z) ->
    level_ok volume -> (0 <= bar_len)%Z ->
    let bar_fill := py_round (volume * inject_Z bar_len)%Q in
    (0 <= bar_fill <= bar_len)%Z
    /\ volume_bar py_round bar_len volume
       = " [ " ++ str_times "#" bar_fill
               ++ str_times "-" (bar_len - bar_fill) ++ " ]"
    /\ Z.of_nat (String.length (volume_bar py_round bar_len volume))
       = (bar_len + 5)%Z
    /\ ((volume == 0)%Q -> bar_fill = 0%Z)
    /\ ((volume == 1)%Q -> bar_fill = bar_len).
Proof.
  intros py_round b v Hr Hv Hb f.
  pose proof (bar_fill_bounds py_round b v Hr Hv Hb) as Hf. fold f in Hf.
  split; [exact Hf|]. split; [|split; [|split]].
  - unfold volume_bar, bar_caps. fold f.
    generalize (str_times "#" f) (str_times "-" (b - f)). intros x y.
    simpl. f_equal. f_equal. f_equal.
    induction x; simpl; [reflexivity | now f_equal].
  - unfold volume_bar, bar_caps. fold f.
    rewrite !append_length, !length_str_times. simpl. lia.
  - intros E. specialize (Hr (v * inject_Z b)%Q). fold f in Hr.
    assert (Q0 : (v * inject_Z b == inject_Z 0)%Q) by (rewrite E; ring).
    assert (F0 : Qfloor (v * inject_Z b) = 0%Z)
      by (rewrite Q0; apply Qfloor_Z).
    assert (C0 : Qceiling (v * inject_Z b) = 0%Z)
      by (rewrite Q0; apply Qceiling_Z).
    lia.
  - intros E. specialize (Hr (v * inject_Z b)%Q). fold f in Hr.
    assert (Q1 : (v * inject_Z b == inject_Z b)%Q) by (rewrite E; ring).
    assert (F1 : Qfloor (v * inject_Z b) = b)
      by (rewrite Q1; apply Qfloor_Z).
    assert (C1 : Qceiling (v * inject_Z b) = b)
      by (rewrite Q1; apply Qceiling_Z).
    lia.
Qed.

Lemma layout_fits win_len max_key_len :
  (1 < win_len)%Z ->
  (0 <= fst (layout win_len max_key_len) <= win_len)%Z
  /\ ((0 < snd (layout win_len max_key_len))%Z ->
      (fst (layout win_len max_key_len) + 2
       + snd (layout win_len max_key_len) + 5 = win_len)%Z).
Proof.
  intros HW. unfold layout.
  change (Z.of_nat (String.length (bar_caps ""))) with 5%Z.
  unfold item_len_min, bar_len_min, mute_button_len.
  destruct (Z.ltb_spec (win_len - Z.of_nat max_key_len - 2 - 5) 10);
    [|cbn [fst snd]; lia].
  match goal with
  | |- context [(?a <=? 0)%Z] => destruct (Z.leb_spec a 0)
  end;
    match goal with
    | |- context [(?a <? 10)%Z] => destruct (Z.ltb_spec a 10)
    end; cbn [fst snd]; lia.
Qed.

Lemma in_combine_seq {A} (l : list A) : forall start i x,
  In (i, x) (combine (seq start (List.length l)) l) ->
  start <= i /\ nth_error l (i - start) = Some x.
Proof.
  induction l as [|y l IH]; intros start i x H; simpl in H; [tauto|].
  destruct H as [H|H].
  - injection H as <- <-. rewrite Nat.sub_diag. split; [lia | reflexivity].
  - apply IH in H. destruct H as [Hs Hn]. split; [lia|].
    replace (i - start) with (S (i - S start)) by lia. exact Hn.
Qed.

Lemma mapM_Ret_inv {A B} (P : PAMenu -> Prop) (R : A -> B -> Prop)
    (f : A -> M B) :
  (forall x s y s', P s -> f x s = (Ret y, s') -> P s' /\ R x y) ->
  forall l s ys s',
    P s -> mapM f l s = (Ret ys, s') -> P s' /\ Forall2 R l ys.
Proof.
  intros Hf. induction l as [|x l IH]; intros s ys s' HP H.
  - injection H as <- <-. split; [exact HP | constructor].
  - cbn [mapM] in H. unfold bind at 1 in H.
    destruct (f x s) as [[y|e] s1] eqn:E; [|discriminate].
    destruct (Hf _ _ _ _ HP E) as [HP1 HR].
    unfold bind at 1 in H.
    destruct (mapM f l s1) as [[ys'|e] s2] eqn:E'; [|discriminate].
    injection H as <- <-.
    destruct (IH _ _ _ HP1 E') as [HP2 HF]. split; [exact HP2|].
    now constructor.
Qed.

Lemma Forall2_nth_error {A B} (R : A -> B -> Prop) l l' :
  Forall2 R l l' ->
  forall i y, nth_error l' i = Some y ->
    exists x, nth_error l i = Some x /\ R x y.
Proof.
  induction 1 as [|x y0 l l' HR _ IH]; intros i y H.
  - destruct i; discriminate.
  - destruct i as [|i]; simpl in *.
    + injection H as <-. eauto.
    + now apply IH.
Qed.

Lemma draw_row_fits optz srv py_round get_mute fuel win_len longest hl item
    s cells s' :
  (forall q, (Qfloor q <= py_round q <= Qceiling q)%Z) ->
  (0 < max_level optz)%Z -> levels_unsigned srv ->
  (forall i, preserves cache_in_range (get_mute i)) ->
  (1 < win_len)%Z -> cache_in_range s ->
  draw_row optz srv py_round get_mute fuel win_len (layout win_len longest)
           hl item s = (Ret cells, s') ->
  cache_in_range s'
  /\ (hd_error cells
      = Some (0%Z, slice_to item (fst (layout win_len longest)), item =? hl)
      /\ Forall (fits win_len) cells).
Proof.
  intros Hr Hm U Hmute HW C.
  pose proof (layout_fits win_len longest HW) as [Hi Hb].
  destruct (layout win_len longest) as [i b]. cbn [fst snd] in *.
  assert (L : fits win_len (0%Z, slice_to item i, item =? hl)).
  { pose proof (length_slice_to item i). simpl. lia. }
  unfold draw_row, mute_button_len.
  destruct (Z.gtb_spec win_len (i + 2)) as [G|G].
  2:{ intros H. injection H as <- <-. repeat split; auto. }
  unfold bind at 1. pose proof (Hmute item s C) as C1.
  destruct (get_mute item s) as [[mute|e] s1]; [|discriminate].
  simpl in C1.
  assert (B : fits win_len (i, if mute then " M" else " -", false)).
  { destruct mute; simpl; lia. }
  destruct (Z.gtb_spec b 0) as [Hb0|Hb0].
  2:{ intros H. injection H as <- <-. repeat split; auto. }
  unfold bind at 1.
  pose proof (get_volume_in_range optz srv fuel item false s1 Hm U C1)
    as [C2 V].
  destruct (get_volume optz srv fuel item false s1) as [[[val|v]|e] s2];
    try discriminate.
  simpl in C2, V. intros H. injection H as <- <-.
  split; [exact C2|]. split; [reflexivity|].
  apply Forall_cons; [exact L|]. apply Forall_cons; [exact B|].
  apply Forall_cons; [|constructor].
  pose proof (bar_fill_bounds py_round b v Hr V) as F.
  unfold fits, volume_bar, bar_caps.
  rewrite !append_length, !length_str_times. simpl. lia.
Qed.

(** X16: when [win_draw] returns (with a positive [max_level], a server
    reporting unsigned levels, cached volumes between 0 and 1 and a
    [get_mute] that keeps them so), it has drawn nothing on a window of one
    column, and otherwise one row for each of the first [win_rows - 1]
    names in iteration order: row [i] starts with the [i]-th name, cut to
    the label column and reversed when it is the highlight, and none of
    its [addstr] calls writes outside the [win_len] columns of the
    window. *)
Theorem win_draw_stays_in_window :
  forall optz srv py_round get_mute fuel win_rows win_len hl s rows s',
    (forall q, (Qfloor q <= py_round q <= Qceiling q)%Z) ->
    (0 < max_level optz)%Z ->
    levels_unsigned srv ->
    (forall item, preserves cache_in_range (get_mute item)) ->
    cache_in_range s ->
    win_draw optz srv py_round get_mute fuel win_rows win_len hl s
    = (Ret rows, s') ->
    ((win_len <= 1)%Z -> rows = [] /\ s' = s)
    /\ ((1 < win_len)%Z ->
        List.length rows
        = Nat.min (List.length (iter (items s) false))
                  (Z.to_nat (win_rows - 1)))
    /\ (forall row cells,
          In (row, cells) rows ->
          (Z.of_nat row < win_rows - 1)%Z
          /\ (exists item,
                nth_error (iter (items s) false) row = Some item
                /\ hd_error cells
                   = Some (0%Z,
                           slice_to item
                             (fst (layout win_len (max_key_len s))),
                           item =? hl))
          /\ Forall (fits win_len) cells)
    /\ cache_in_range s'.
Proof.
  intros optz srv py_round get_mute fuel win_rows W hl s rows s'
         Hr Hm U Hmute C. unfold win_draw.
  destruct (Z.leb_spec W 1) as [HW|HW].
  - intros H. injection H as <- <-.
    split; [auto|]. split; [lia|]. split; [intros ? ? []| exact C].
  - erewrite bind_Ret by reflexivity.
    erewrite bind_Ret by reflexivity. cbv zeta.
    set (names := firstn (Z.to_nat (win_rows - 1)) (iter (items s) false)).
    unfold bind at 1.
    destruct (mapM (draw_row optz srv py_round get_mute fuel W
                      (layout W (max_key_len s)) hl) names s)
      as [[drawn_rows|e] s1] eqn:E; [|discriminate].
    intros H. injection H as <- <-.
    apply (mapM_Ret_inv cache_in_range
             (fun item cells =>
                hd_error cells
                = Some (0%Z, slice_to item (fst (layout W (max_key_len s))),
                        item =? hl)
                /\ Forall (fits W) cells)) in E; auto.
    2:{ intros x s0 y s0' C0 D.
        eapply draw_row_fits; eauto. }
    destruct E as [C1 F].
    assert (Len : List.length drawn_rows = List.length names)
      by (symmetry; eapply Forall2_length; eauto).
    split; [lia|]. split; [|split; [|exact C1]].
    + intros _. rewrite length_combine, length_seq, Len, Nat.min_id.
      unfold names. now rewrite length_firstn, Nat.min_comm.
    + intros row cells H. rewrite <- Len in H.
      apply in_combine_seq in H. destruct H as [_ H].
      rewrite Nat.sub_0_r in H.
      destruct (Forall2_nth_error _ _ _ F _ _ H) as (item & Hn & Hh & Hf).
      unfold names in Hn. rewrite nth_error_firstn in Hn.
      destruct (Nat.ltb_spec row (Z.to_nat (win_rows - 1))) as [L|L];
        [|discriminate].
      split; [lia|]. split; [exists item; auto | exact Hf].
Qed.

(** ** A server that is gone *)

Lemma soft_refresh_server_down optz srv fuel s :
  down_from srv (tick s) ->
  refresh optz srv (S (S fuel)) true s = (Raise DBusException, given_up s).
Proof.
  intros D.
  destruct (D (tick s) (Nat.le_refl _)) as (_ & Hc & _).
  destruct (D (S (tick s)) (Nat.le_succ_diag_r _)) as (Hb & _).
  rewrite refresh_S.
  erewrite bind_Ret by reflexivity. erewrite bind_Ret by reflexivity.
  unfold refresh_rebuild. erewrite bind_Ret by reflexivity.
  unfold try_except_else.
  assert (A : refresh_adds optz srv (S fuel)
                (with_max_key_len 0 (with_caches [] [] s))
              = (Raise DBusException,
                 interacted [ECoreGet "PlaybackStreams"]
                   (with_max_key_len 0 (with_caches [] [] s)))).
  { unfold refresh_adds. erewrite bind_Raise; [reflexivity|].
    unfold core_get, dbus_call. simpl. now rewrite Hc. }
  rewrite A. cbn [exn_eqb]. rewrite refresh_S.
  erewrite bind_Raise; [reflexivity|].
  erewrite bind_Ret by reflexivity.
  unfold get_bus, dbus_call. simpl. now rewrite Hb.
Qed.

Lemma failsafe_gives_up {A} (r : M unit) (m : M A) s s1 s2 :
  m s = (Raise DBusException, s1) ->
  r s1 = (Raise DBusException, s2) ->
  _dbus_failsafe r m s = (Ret None, after_fail_hook s2).
Proof.
  intros Hm Hr. unfold _dbus_failsafe, try_except.
  erewrite bind_Raise by exact Hm. cbn [exn_eqb].
  erewrite bind_Raise by exact Hr. cbn [exn_eqb].
  erewrite bind_Ret by apply call_fail_hook_eq. reflexivity.
Qed.

Lemma down_from_later srv n m : down_from srv n -> n <= m -> down_from srv m.
Proof. intros D L k Hk. apply D. lia. Qed.

(** X17: when the server is gone (every call fails from now on) and the
    failure hook, if any, returns, a volume read of a registered name with
    nothing cached tries the read, a soft refresh and the reconnection of
    a hard one, calls the hook and raises [TypeError], not [PAUpdate],
    leaving the registry and the caches empty. A volume write over a fresh
    cached value goes the same way but returns, with the registry empty
    and the level it could not write cached as the volume of the name. *)
Theorem volume_calls_on_dead_server :
  forall optz srv py_round fuel item e s,
    down_from srv (tick s) ->
    Dict.get (items s) item = Some e ->
    let hook := if fail_hook s then [EFailHook] else [] in
    (forall raw,
       Dict.get (_volume_val_cache s) item = None ->
       let r := get_volume optz srv (S (S fuel)) item raw s in
       fst r = Raise TypeError
       /\ items (snd r) = []
       /\ caches_empty (snd r)
       /\ trace (snd r)
          = (trace s ++ [EGetVolume (object_path e) (iface_of e);
                         ECoreGet "PlaybackStreams"; EGetBus] ++ hook)%list)
    /\ (forall val ts level,
          Dict.get (_volume_val_cache s) item = Some (val, ts) ->
          (r_time srv (tick s) - ts <= _cache_time s)%Q ->
          (forall q, (Qfloor q <= py_round q <= Qceiling q)%Z) ->
          (0 <= max_level optz < 2 ^ 32)%Z ->
          let clamped := Qmax 0 (Qmin 1 level) in
          let n := List.length val in
          let dbus_level := py_round (clamped * inject_Z (max_level optz))%Q in
          let r := set_volume optz srv py_round (S (S fuel)) item level s in
          fst r = Ret tt
          /\ items (snd r) = []
          /\ (exists ts', _volume_val_cache (snd r)
                          = [(item, (repeat clamped n, ts'))])
          /\ trace (snd r)
             = (trace s ++ [ESetVolume (object_path e) (iface_of e)
                                       (repeat dbus_level n);
                            ECoreGet "PlaybackStreams"; EGetBus] ++ hook)%list).
Proof.
  intros optz srv py_round fuel item e s D He hook.
  assert (D1 : down_from srv (tick (interacted [] s)))
    by (eapply down_from_later; [exact D | simpl; lia]).
  destruct (D1 _ (Nat.le_refl _)) as (_ & _ & Hgv & Hsv).
  split.
  - intros raw Hc r. subst r.
    assert (G : _get_volume optz srv (S (S fuel)) item (interacted [] s)
                = (Ret None,
                   after_fail_hook
                     (given_up (interacted [EGetVolume (object_path e)
                                                       (iface_of e)]
                                  (interacted [] s))))).
    { unfold _get_volume. eapply failsafe_gives_up.
      - unfold _get_volume_body. erewrite bind_Ret by reflexivity.
        erewrite bind_Ret
          by (unfold getitem; simpl; rewrite He; reflexivity).
        unfold dbus_call. rewrite Hgv. reflexivity.
      - apply soft_refresh_server_down.
        eapply down_from_later; [exact D1 | simpl; lia]. }
    unfold get_volume.
    erewrite bind_Ret by reflexivity.
    erewrite bind_Ret by reflexivity.
    erewrite bind_Ret by reflexivity. rewrite Hc.
    erewrite bind_Raise.
    2:{ unfold fetch_volume. erewrite bind_Ret.
        2:{ apply try_except_Ret. exact G. }
        reflexivity. }
    unfold after_fail_hook, given_up, hook. simpl.
    destruct (fail_hook s); simpl; rewrite ?app_nil_r, <- ?app_assoc;
      repeat split; reflexivity.
  - intros val ts level Hc Hage Hround Hmax clamped n dbus_level r. subst r.
    assert (W : _set_volume optz srv (S (S fuel)) item (repeat dbus_level n)
                  (interacted [] s)
                = (Ret None,
                   after_fail_hook
                     (given_up (interacted [ESetVolume (object_path e)
                                              (iface_of e)
                                              (repeat dbus_level n)]
                                  (interacted [] s))))).
    { unfold _set_volume. eapply failsafe_gives_up.
      - unfold _set_volume_body. erewrite bind_Ret by reflexivity.
        erewrite bind_Ret
          by (unfold getitem; simpl; rewrite He; reflexivity).
        unfold dbus_call. rewrite Hsv. reflexivity.
      - apply soft_refresh_server_down.
        eapply down_from_later; [exact D1 | simpl; lia]. }
    unfold set_volume.
    erewrite bind_Ret
      by (rewrite (get_volume_cached _ _ _ _ _ _ _ _ Hc Hage); reflexivity).
    erewrite bind_Ret by reflexivity.
    erewrite bind_Ret
      by (apply mapM_UInt32_repeat; now apply rounded_level_in_range).
    erewrite bind_Ret.
    2:{ apply try_except_Ret. erewrite bind_Ret by exact W. reflexivity. }
    erewrite bind_Ret by reflexivity.
    unfold modify, after_fail_hook, given_up, hook. simpl.
    destruct (fail_hook s); simpl; rewrite ?app_nil_r, <- ?app_assoc;
      (split; [reflexivity|]); (split; [reflexivity|]);
      (split; [eexists; reflexivity | reflexivity]).
Qed.

(** ** What [add] returns *)

Lemma bind_Ret_inv {A B} (m : M A) (k : A -> M B) s b s' :
  bind m k s = (Ret b, s') ->
  exists a s1, m s = (Ret a, s1) /\ k a s1 = (Ret b, s').
Proof.
  unfold bind. destruct (m s) as [[a|e] s1]; [eauto | discriminate].
Qed.

Lemma get_name_known_iface optz iface props s name s' :
  _get_name optz iface props s = (Ret name, s') ->
  iface = "Stream" \/ iface = "Device".
Proof.
  unfold _get_name.
  destruct (String.eqb_spec iface "Stream"); [auto|].
  destruct (String.eqb_spec iface "Device"); [auto|]. discriminate.
Qed.

Lemma add_body_registers optz srv path iface s name s' :
  add_body optz srv path iface s = (Ret name, s') ->
  Dict.get (items s') name = Some (iface, path)
  /\ String.length name <= max_key_len s'
  /\ (iface = "Stream" \/ iface = "Device").
Proof.
  unfold add_body. intros H.
  apply bind_Ret_inv in H. destruct H as (props & s1 & _ & H).
  apply bind_Ret_inv in H. destruct H as (name0 & s2 & Hn & H).
  apply get_name_known_iface in Hn.
  apply bind_Ret_inv in H. destruct H as (d & s3 & _ & H).
  apply bind_Ret_inv in H. destruct H as (name1 & s4 & _ & H).
  apply bind_Ret_inv in H. destruct H as ([] & s5 & Hs & H).
  apply bind_Ret_inv in H. destruct H as (longest & s6 & Hl & H).
  apply bind_Ret_inv in H. destruct H as ([] & s7 & Hw & H).
  injection H as <- <-.
  injection Hs as <-. injection Hl as <- <-.
  split; [|split; [|exact Hn]].
  - assert (I : items s7
                = Dict.set (items s4) name1 (iface, path)).
    { cbn [max_key_len with_items items] in Hw.
      destruct (max_key_len s4 <? String.length name1)%nat;
        injection Hw as <-; reflexivity. }
    rewrite I. apply get_set_same.
  - cbn [max_key_len with_items] in Hw.
    destruct (Nat.ltb_spec (max_key_len s4) (String.length name1));
      injection Hw as <-; simpl; lia.
Qed.

(** X18: whenever [add] returns a name, that name is registered for the
    added path with the interface given, [max_key_len] is at least its
    length, and the interface is ['Stream'] or ['Device']. *)
Theorem add_registers_returned_name :
  forall optz srv fuel path iface s name s',
    add optz srv fuel path iface s = (Ret (Some name), s') ->
    Dict.get (items s') name = Some (iface, path)
    /\ String.length name <= max_key_len s'
    /\ (iface = "Stream" \/ iface = "Device").
Proof.
  intros optz srv fuel path iface s name s' H.
  unfold add in H. apply failsafe_Ret_inv in H. destruct H as [s0 H].
  eapply add_body_registers; eauto.
Qed.

(** ** Iterating backwards *)

(** X19: with distinct names, [reversed(self)] yields the names of
    [iter(self)] in the opposite order: sorting with [reverse=True] keeps
    the order of equal keys, but no two items have the same key. *)
Theorem reversed_mirrors_iteration :
  forall d : Dict.t entry,
    NoDup (Dict.keys d) ->
    reversed d = rev (iter d false)
    /\ iter d false = rev (reversed d)
    /\ (forall i, i < List.length (iter d false) ->
          nth i (reversed d) ""
          = nth (List.length (iter d false) - S i) (iter d false) "").
Proof.
  intros d N. pose proof (reversed_is_rev d N) as R.
  split; [exact R|]. split.
  - now rewrite R, rev_involutive.
  - intros i Hi. rewrite R. now apply rev_nth.
Qed.

(** ** The further properties on the sample server *)

Lemma sample_levels_unsigned streams sinks :
  levels_unsigned (Sample.server streams sinks).
Proof.
  intros n path iface levels H. injection H as <-.
  repeat constructor; discriminate.
Qed.

Lemma new_menu_cache_in_range t h : cache_in_range (new_menu t h).
Proof. intros item val ts H. discriminate H. Qed.

Lemma menu_of_three_cache_in_range : cache_in_range Scene.menu_of_three.
Proof. intros item val ts H. discriminate H. Qed.

Lemma next_prev_key_inverse_witness :
  prev_key Sample.three (next_key Sample.three "song #0") = "song #0"
  /\ next_key Sample.three (prev_key Sample.three "song #0") = "song #0"
  /\ In (next_key Sample.three "song #0") (Dict.keys Sample.three)
  /\ In (prev_key Sample.three "song #0") (Dict.keys Sample.three).
Proof.
  apply (next_prev_key_inverse Sample.three "song #0").
  - unfold Sample.three. simpl.
    repeat constructor; simpl; intuition discriminate.
  - simpl. auto.
Defined.

Lemma next_prev_key_of_stranger_witness :
  next_key Sample.three "" = "App (u@h:1)"
  /\ prev_key Sample.three "" = "App (u@h:1)"
  /\ In (next_key Sample.three "") (Dict.keys Sample.three)
  /\ In (prev_key Sample.three "") (Dict.keys Sample.three).
Proof.
  apply (next_prev_key_of_stranger Sample.three "").
  - unfold Sample.three. simpl.
    repeat constructor; simpl; intuition discriminate.
  - simpl. intuition discriminate.
  - discriminate.
Defined.

Lemma remove_deletes_one_entity_witness :
  let s := Sample.menu_with "Speakers" ("Device", "/sink/0") in
  let r := remove Sample.by_application (Sample.server [] []) 1 "/sink/0" s in
  fst r = Ret (Some tt)
  /\ trace (snd r) = []
  /\ exists name e,
       In (name, e) (items s) /\ object_path e = "/sink/0"
       /\ items (snd r) = Dict.del (items s) name
       /\ Dict.get (items (snd r)) name = None.
Proof.
  intros s r.
  destruct (remove_deletes_one_entity Sample.by_application
              (Sample.server [] []) 1 "/sink/0" s) as (H1 & H2 & _ & _ & H5).
  { repeat constructor. simpl. tauto. }
  split; [exact H1|]. split; [exact H2|].
  destruct (H5 "Speakers" ("Device", "/sink/0"))
    as (name & e & Hin & Hp & Hi & Hg & _);
    [left; reflexivity | reflexivity |].
  exists name, e. auto.
Defined.

Lemma add_remove_keep_width_exact_witness :
  let s := Sample.menu_with "Speakers" ("Device", "/sink/0") in
  let srv := Sample.server ["/stream/app"] ["/sink/0"] in
  width_exact (snd (add Sample.by_application srv 1 "/stream/app" "Stream" s))
  /\ width_exact (snd (remove Sample.by_application srv 1 "/sink/0" s)).
Proof.
  intros s srv.
  destruct (add_remove_keep_width_exact Sample.by_application srv 1
              "/stream/app" "Stream" s) as [Ha _];
    [reflexivity | reflexivity |].
  destruct (add_remove_keep_width_exact Sample.by_application srv 1
              "/sink/0" "Device" s) as [_ Hr];
    [reflexivity | reflexivity |].
  split; [apply Ha; discriminate | exact Hr].
Defined.

Lemma update_consumes_queue_witness :
  let srv := Sample.server ["/stream/app"] ["/sink/0"] in
  let queued q := with_updates q (new_menu None true) in
  updates (snd (update Sample.by_application srv 1
                  (queued [["+"; "/stream/app"]; ["v"; "/sink/0"]]))) = []
  /\ update Sample.by_application srv 1
       (queued [["+"]; ["v"; "/sink/0"]])
     = (Raise ValueError, with_updates [["v"; "/sink/0"]]
                            (queued [["+"]; ["v"; "/sink/0"]]))
  /\ update Sample.by_application srv 1
       (queued [["?"; "/sink/0"]; ["v"; "/sink/0"]])
     = (Raise KeyError, with_updates [["v"; "/sink/0"]]
                          (queued [["?"; "/sink/0"]; ["v"; "/sink/0"]])).
Proof.
  intros srv queued. split; [|split].
  - destruct (update_consumes_queue Sample.by_application srv 1
                (queued [["+"; "/stream/app"]; ["v"; "/sink/0"]]))
      as (H & _).
    apply H. reflexivity.
  - destruct (update_consumes_queue Sample.by_application srv 1
                (queued [["+"]; ["v"; "/sink/0"]]))
      as (_ & _ & H & _).
    apply (H ["+"] [["v"; "/sink/0"]]); [reflexivity | discriminate].
  - destruct (update_consumes_queue Sample.by_application srv 1
                (queued [["?"; "/sink/0"]; ["v"; "/sink/0"]]))
      as (_ & _ & _ & H).
    apply (H "?" "/sink/0" [["v"; "/sink/0"]]); [reflexivity|].
    simpl. intuition discriminate.
Defined.

Lemma stream_added_then_removed_witness :
  let s := with_updates [["+"; "/stream/app"]; ["-"; "/stream/app"]]
             (Sample.menu_with "Speakers" ("Device", "/sink/0")) in
  let r := update Sample.by_application (Sample.server ["/stream/app"] [])
             1 s in
  fst r = Ret tt
  /\ updates (snd r) = []
  /\ items (snd r) = [("Speakers", ("Device", "/sink/0"))].
Proof.
  intros s r.
  destruct (stream_added_then_removed Sample.by_application
              (Sample.server ["/stream/app"] []) 1 s "/stream/app"
              "App (u@h:1)") as (H1 & H2 & _ & _ & H5).
  - reflexivity.
  - intros n. eexists. split; reflexivity.
  - intros k e [H|[]]. injection H as _ <-. discriminate.
  - reflexivity.
  - split; [exact H1|]. split; [exact H2|]. apply H5. reflexivity.
Defined.

Lemma refresh_bus_errors_witness :
  let s := Sample.menu_with "Speakers" ("Device", "/sink/0") in
  (exists tr,
     trace (snd (refresh Sample.by_application Scene.unreachable 2 true s))
     = ([] ++ tr)%list
     /\ In EGetBus tr)
  /\ refresh Sample.by_application Scene.unreachable 1 false s
     = (Raise DBusException, interacted [EGetBus] (with_items [] s)).
Proof.
  intros s.
  destruct (refresh_bus_errors Sample.by_application Scene.unreachable 2 s)
    as [H1 _].
  destruct (refresh_bus_errors Sample.by_application Scene.unreachable 0 s)
    as [_ H2].
  split; [apply H1; reflexivity | apply H2; reflexivity].
Defined.

Lemma refresh_empties_caches_witness :
  let s := with_caches [("Speakers", ([1 # 2; 1 # 2], 0))]%Q
                       [("Speakers", (true, 0%Q))]
             (Sample.menu_with "Speakers" ("Device", "/sink/0")) in
  caches_empty (snd (refresh Sample.by_application
                       (Sample.server [] ["/sink/0"]) 1 true s))
  /\ caches_empty (snd (refresh Sample.by_application
                          (Sample.server [] ["/sink/0"]) 1 false s)).
Proof.
  intros s. split.
  - apply (refresh_empties_caches Sample.by_application
             (Sample.server [] ["/sink/0"]) 0 true s).
    discriminate.
  - apply (refresh_empties_caches Sample.by_application
             (Sample.server [] ["/sink/0"]) 0 false s).
    reflexivity.
Defined.

Lemma hard_refresh_rebuilds_registry_witness :
  let srv := Sample.server ["/stream/app"] ["/sink/0"] in
  let r := refresh Sample.by_application srv 1 false
             (Sample.menu_with "gone" ("Stream", "/stream/gone")) in
  fst r = Ret tt
  /\ Dict.mem (items (snd r)) "App (u@h:1)" = true
  /\ Dict.mem (items (snd r)) "Speakers" = true
  /\ unique_names (snd r)
  /\ width_exact (snd r)
  /\ caches_empty (snd r)
  /\ (exists tr, trace (snd r) = ([] ++ EGetBus :: tr ++ [EKillChild])%list).
Proof.
  intros srv r.
  assert (Ns : named srv "Stream" "/stream/app" "App (u@h:1)")
    by (intros n; eexists; split; reflexivity).
  assert (Nk : named srv "Device" "/sink/0" "Speakers")
    by (intros n; eexists; split; reflexivity).
  destruct (hard_refresh_rebuilds_registry Sample.by_application srv 0
              ["/stream/app"] ["/sink/0"]
              (Sample.menu_with "gone" ("Stream", "/stream/gone")))
    as (H1 & H2 & H3 & _ & H5 & H6 & H7 & H8).
  - reflexivity.
  - reflexivity.
  - reflexivity.
  - reflexivity.
  - intros p [<-|[]]. now exists "App (u@h:1)".
  - intros p [<-|[]]. now exists "Speakers".
  - split; [exact H1|].
    split; [apply (H2 "/stream/app"); [left; reflexivity | exact Ns]|].
    split; [apply (H3 "/sink/0"); [left; reflexivity | exact Nk]|].
    auto.
Defined.

Lemma volumes_stay_in_range_witness :
  let srv := Sample.server ["/stream/song"] ["/sink/0"] in
  let s' := run_operations Sample.by_application srv Sample.round_half_up 2
              [OpRefresh false; OpSetVolume "Speakers" (3 # 2);
               OpSignal ["+"; "/stream/song"]; OpUpdate]
              (new_menu None true) in
  cache_in_range s'
  /\ volume_ok (fst (get_volume Sample.by_application srv 2 "Speakers"
                       false s')).
Proof.
  apply (volumes_stay_in_range Sample.by_application
           (Sample.server ["/stream/song"] ["/sink/0"])
           Sample.round_half_up 2).
  - reflexivity.
  - apply sample_levels_unsigned.
  - apply new_menu_cache_in_range.
Defined.

Lemma set_then_get_volume_witness :
  let s := Sample.menu_with "Speakers" ("Device", "/sink/0") in
  let srv := Sample.server [] ["/sink/0"] in
  let s' := snd (set_volume Sample.by_application srv Sample.round_half_up 1
                   "Speakers" (1 # 2) s) in
  let g := get_volume Sample.by_application srv 1 "Speakers" true s' in
  let g' := get_volume Sample.by_application srv 1 "Speakers" false s' in
  trace s' = [EGetVolume "/sink/0" "Device";
              ESetVolume "/sink/0" "Device" [32768%Z; 32768%Z]]
  /\ trace (snd g) = trace s'
  /\ fst g = Ret (Channels (repeat (Qmax 0 (Qmin 1 (1 # 2))) 2))
  /\ trace (snd g') = trace s'
  /\ (exists m, fst g' = Ret (Average m) /\ (m == 1 # 2)%Q).
Proof.
  intros s srv s' g g'.
  assert (H : forall raw,
             let g := get_volume Sample.by_application srv 1 "Speakers" raw
                        s' in
             trace (snd g) = trace s'
             /\ (raw = true ->
                 fst g = Ret (Channels (repeat (Qmax 0 (Qmin 1 (1 # 2))) 2)))
             /\ (raw = false -> 2 <> 0 ->
                 fst g = Ret (Average
                                (fold_left Qplus
                                   (repeat (Qmax 0 (Qmin 1 (1 # 2))) 2) 0%Q
                                 / inject_Z (Z.of_nat 2))))
             /\ (raw = false -> 2 = 1 \/ 2 = 2 ->
                 exists m, fst g = Ret (Average m)
                           /\ (m == Qmax 0 (Qmin 1 (1 # 2)))%Q)).
  { apply (set_then_get_volume Sample.by_application srv
             Sample.round_half_up 1 "Speakers" (1 # 2) s
             [Qmin (32768 / 65536) 1; Qmin (65536 / 65536) 1]
             (snd (get_volume Sample.by_application srv 1 "Speakers" true s))
             ("Device", "/sink/0")).
    - apply round_half_up_between.
    - split; [apply Z.leb_le | apply Z.ltb_lt]; reflexivity.
    - reflexivity.
    - reflexivity.
    - reflexivity.
    - intros L. vm_compute in L. discriminate L. }
  destruct (H true) as (T & C & _).
  destruct (H false) as (T' & _ & _ & A).
  split; [reflexivity|]. split; [exact T|].
  split; [apply C; reflexivity|]. split; [exact T'|].
  destruct A as (m & Hm & Em); [reflexivity | right; reflexivity |].
  exists m. split; [exact Hm|]. rewrite Em. reflexivity.
Defined.

Lemma volume_of_unregistered_name_witness :
  let s := Sample.menu_with "Speakers" ("Device", "/sink/0") in
  let srv := Sample.server [] ["/sink/0"] in
  let cached := with_caches [("gone", ([1 # 2; 1 # 2], 0))]%Q [] s in
  get_volume Sample.by_application srv 1 "gone" false s
  = (Raise PAUpdate, interacted [] s)
  /\ set_volume Sample.by_application srv Sample.round_half_up 1 "gone" 1 s
     = (Raise PAUpdate, interacted [] s)
  /\ set_volume Sample.by_application srv Sample.round_half_up 1 "gone" 1
       cached
     = (Raise PAUpdate, interacted [] cached).
Proof.
  intros s srv cached.
  destruct (volume_of_unregistered_name Sample.by_application srv
              Sample.round_half_up 1 "gone" s) as [H _]; [reflexivity|].
  destruct (H eq_refl false 1%Q) as [Hg Hs].
  destruct (volume_of_unregistered_name Sample.by_application srv
              Sample.round_half_up 1 "gone" cached) as [_ H'];
    [reflexivity|].
  split; [exact Hg|]. split; [exact Hs|].
  apply (H' [1 # 2; 1 # 2]%Q 0%Q 1%Q).
  - reflexivity.
  - vm_compute. discriminate.
  - apply round_half_up_between.
  - split; [apply Z.leb_le | apply Z.ltb_lt]; reflexivity.
Defined.

Lemma unique_suffixes_until_wrap_witness :
  exists names s',
    mapM _get_name_unique (repeat "song" 3) (new_menu None true)
    = (Ret names, s')
    /\ List.length names = 3
    /\ NoDup names
    /\ (forall x, In x names -> x <> "song")
    /\ (_unique_idx s' < 2 ^ 30)%N
    /\ items s' = items (new_menu None true).
Proof.
  apply (unique_suffixes_until_wrap "song" 3 (new_menu None true)).
  - reflexivity.
  - vm_compute. discriminate.
Defined.

Lemma layout_widths_witness :
  layout 80 11 = (11, 62)%Z
  /\ layout 30 20 = (13, 10)%Z
  /\ layout 20 20 = (10, 3)%Z
  /\ (fst (layout 12 20) = 12 /\ snd (layout 12 20) <= 0)%Z
  /\ (fst (layout 8 20) = Z.min 20 8 /\ snd (layout 8 20) <= 0)%Z.
Proof.
  assert (P : forall (p : Z * Z) a b, fst p = a /\ snd p = b -> p = (a, b)).
  { intros [x y] a b [Ha Hb]. simpl in *. now subst. }
  pose proof (layout_widths 80 11 ltac:(lia)) as (_ & _ & H80 & _).
  pose proof (layout_widths 30 20 ltac:(lia)) as (_ & _ & _ & H30 & _).
  pose proof (layout_widths 20 20 ltac:(lia)) as (_ & _ & _ & _ & H20 & _).
  pose proof (layout_widths 12 20 ltac:(lia)) as (_ & _ & _ & _ & _ & H12 & _).
  pose proof (layout_widths 8 20 ltac:(lia)) as (_ & _ & _ & _ & _ & _ & H8).
  split; [apply P, H80; lia|].
  split; [apply P, H30; lia|].
  split; [apply P, H20; lia|].
  split; [apply H12; lia | apply H8; lia].
Defined.

Lemma volume_bar_shape_witness :
  volume_bar Sample.round_half_up 10 (1 # 2) = " [ #####----- ]"
  /\ volume_bar Sample.round_half_up 10 0 = " [ ---------- ]"
  /\ volume_bar Sample.round_half_up 10 1 = " [ ########## ]".
Proof.
  destruct (volume_bar_shape Sample.round_half_up 10 (1 # 2))
    as (_ & Hhalf & _).
  { apply round_half_up_between. }
  { split; vm_compute; discriminate. }
  { lia. }
  destruct (volume_bar_shape Sample.round_half_up 10 0) as (_ & Hzero & _).
  { apply round_half_up_between. }
  { split; vm_compute; discriminate. }
  { lia. }
  destruct (volume_bar_shape Sample.round_half_up 10 1) as (_ & Hfull & _).
  { apply round_half_up_between. }
  { split; vm_compute; discriminate. }
  { lia. }
  split; [exact Hhalf|]. split; [exact Hzero | exact Hfull].
Defined.

Lemma win_draw_stays_in_window_witness :
  let srv := Sample.server ["/stream/song"; "/stream/app"] ["/sink/0"] in
  let r := win_draw Sample.by_application srv Sample.round_half_up
             (Scene.muted ["Speakers"]) 1 3 40 "Speakers"
             Scene.menu_of_three in
  exists rows,
    fst r = Ret rows
    /\ List.length rows = 2
    /\ (forall row cells,
          In (row, cells) rows ->
          (Z.of_nat row < 3 - 1)%Z /\ Forall (fits 40) cells)
    /\ cache_in_range (snd r).
Proof.
  intros srv r.
  assert (E : r = (Ret match fst r with Ret rows => rows | Raise _ => [] end,
                   snd r)) by (vm_compute; reflexivity).
  destruct (win_draw_stays_in_window Sample.by_application srv
              Sample.round_half_up (Scene.muted ["Speakers"]) 1 3 40
              "Speakers" Scene.menu_of_three _ _
              (round_half_up_between) ltac:(reflexivity)
              (sample_levels_unsigned _ _)
              (fun item s C => C) menu_of_three_cache_in_range E)
    as (_ & Hl & Hrows & Hc).
  eexists. split; [exact (f_equal fst E)|].
  split; [apply Hl; lia|]. split; [|exact Hc].
  intros row cells H. destruct (Hrows row cells H) as (Hr & _ & Hf). auto.
Defined.

Lemma unreachable_down n : down_from Scene.unreachable n.
Proof. intros k _. repeat split. Qed.

Lemma volume_calls_on_dead_server_witness :
  let s := Sample.menu_with "Speakers" ("Device", "/sink/0") in
  let cached := with_caches [("Speakers", ([1 # 2; 1 # 2], 0))]%Q [] s in
  let r := get_volume Sample.by_application Scene.unreachable 2 "Speakers"
             false s in
  let w := set_volume Sample.by_application Scene.unreachable
             Sample.round_half_up 2 "Speakers" 1 cached in
  (fst r = Raise TypeError
   /\ items (snd r) = []
   /\ caches_empty (snd r)
   /\ trace (snd r) = [EGetVolume "/sink/0" "Device";
                       ECoreGet "PlaybackStreams"; EGetBus; EFailHook])
  /\ (fst w = Ret tt
      /\ items (snd w) = []
      /\ (exists ts', _volume_val_cache (snd w)
                      = [("Speakers",
                          (repeat (Qmax 0 (Qmin 1 1)) 2, ts'))])
      /\ trace (snd w) = [ESetVolume "/sink/0" "Device" [65536%Z; 65536%Z];
                          ECoreGet "PlaybackStreams"; EGetBus; EFailHook]).
Proof.
  intros s cached r w. split.
  - destruct (volume_calls_on_dead_server Sample.by_application
                Scene.unreachable Sample.round_half_up 0 "Speakers"
                ("Device", "/sink/0") s) as [H _].
    + apply unreachable_down.
    + reflexivity.
    + apply (H false). reflexivity.
  - destruct (volume_calls_on_dead_server Sample.by_application
                Scene.unreachable Sample.round_half_up 0 "Speakers"
                ("Device", "/sink/0") cached) as [_ H].
    + apply unreachable_down.
    + reflexivity.
    + apply (H [1 # 2; 1 # 2]%Q 0%Q 1%Q).
      * reflexivity.
      * vm_compute. discriminate.
      * apply round_half_up_between.
      * split; [apply Z.leb_le | apply Z.ltb_lt]; reflexivity.
Defined.

Lemma add_registers_returned_name_witness :
  let r := add Sample.by_application (Sample.server ["/stream/app"] []) 1
             "/stream/app" "Stream" (new_menu None true) in
  Dict.get (items (snd r)) "App (u@h:1)" = Some ("Stream", "/stream/app")
  /\ String.length "App (u@h:1)" <= max_key_len (snd r)
  /\ ("Stream" = "Stream" \/ "Stream" = "Device").
Proof.
  intros r.
  apply (add_registers_returned_name Sample.by_application
           (Sample.server ["/stream/app"] []) 1 "/stream/app" "Stream"
           (new_menu None true) "App (u@h:1)" (snd r)).
  reflexivity.
Defined.

Lemma reversed_mirrors_iteration_witness :
  reversed Sample.three = ["song #0"; "App (u@h:1)"; "Speakers"]
  /\ iter Sample.three false = rev (reversed Sample.three).
Proof.
  destruct (reversed_mirrors_iteration Sample.three) as (H1 & H2 & _).
  { unfold Sample.three. simpl.
    repeat constructor; simpl; intuition discriminate. }
  split; [exact H1 | exact H2].
Defined.
